(** * PrimeWorldEditor: the archive engine and the resource store

    A shallow embedding of [src/Common/Serialization/IArchive.h] and of
    [src/Core/GameProject/CResourceStore.cpp], and the properties of the
    specification proved (or refuted) on it.  After those come the enum
    values of [src/Core/Resource/Script/Property/CEnumProperty.h], the
    templates of [src/Core/Resource/Script/IPropertyTemplate.h] and the
    loader of [src/Core/Resource/Factory/CStringLoader.cpp], with the
    properties the code itself shows.

    - Integers of the source ([u16], [u32], [size_t], [int]) are [Z]; where the
      source relies on a width, the wrap-around is written out.
    - Flag words are [Z] tested with [Z.land], as the source tests them with [&].
    - [ASSERT] failures and dereferences of [nullptr] are outcomes of a small
      state-and-error monad. *)

From stdpp Require Import base option list gmap strings sorting.
From Stdlib Require Import ZArith Lia.

(** ** Outcomes *)

(** Modelled from the spec: the [ASSERT] macro of [Common/AssertMacro.h], which
    is not among the sources.  Contract violations are fatal assertions that
    stop execution ([AssertFail]).  [Undefined] is the outcome of an operation
    C++ gives no meaning to (a member call through [nullptr], an iterator
    moved past the end). *)
Inductive result (A : Type) : Type :=
  | Ok (a : A)
  | AssertFail
  | Undefined.
Arguments Ok {A} a.
Arguments AssertFail {A}.
Arguments Undefined {A}.

(** [flag_set w f] is the C++ test [(w & f) != 0]. *)
Definition flag_set (w f : Z) : bool := negb (Z.land w f =? 0)%Z.

(** The state-and-error monad the member functions run in, over the state
    [St] of the object they belong to. *)
Definition StateErr (St A : Type) : Type := St -> result (A * St).

Definition ret {St A} (a : A) : StateErr St A := fun s => Ok (a, s).

Definition bind {St A B} (m : StateErr St A) (k : A -> StateErr St B) : StateErr St B :=
  fun s =>
    match m s with
    | Ok (a, s') => k a s'
    | AssertFail => AssertFail
    | Undefined => Undefined
    end.

#[global] Instance StateErr_ret {St} : MRet (StateErr St) := fun A a => ret a.
#[global] Instance StateErr_bind {St} : MBind (StateErr St) := fun A B k m => bind m k.

Definition get {St} : StateErr St St := fun s => Ok (s, s).
Definition modify {St} (f : St -> St) : StateErr St unit := fun s => Ok (tt, f s).
Definition ASSERT {St} (c : bool) : StateErr St unit :=
  fun s => if c then Ok (tt, s) else AssertFail.
Definition undefined {St A} : StateErr St A := fun _ => Undefined.

(** Unfolds the monad so that a run can be followed call by call. *)
Ltac run :=
  unfold mbind, StateErr_bind, bind, mret, StateErr_ret, ret, get, modify, ASSERT, undefined.

(** * Part I: [IArchive.h] *)

Module Archive.
Local Open Scope Z_scope.

(** [enum ESerialHint] *)
Definition SH_HexDisplay : Z := 0x1.
Definition SH_Optional   : Z := 0x2.
Definition SH_NeverSave  : Z := 0x4.
Definition SH_AlwaysSave : Z := 0x8.
Definition SH_Attribute  : Z := 0x10.
Definition SH_IgnoreName : Z := 0x20.

(** [enum EArchiveFlags] *)
Definition AF_Reader     : Z := 0x1.
Definition AF_Writer     : Z := 0x2.
Definition AF_Text       : Z := 0x4.
Definition AF_Binary     : Z := 0x8.
Definition AF_NoSkipping : Z := 0x10.

(** [enum EArchiveVersion] *)
Definition eArVer_Initial         : Z := 0.
Definition eArVer_32BitBinarySize : Z := 1.
Definition eArVer_Refactor        : Z := 2.
Definition eArVer_Max             : Z := 3.
Definition skCurrentArchiveVersion : Z := eArVer_Max - 1.

(** A pointer is [None] for [nullptr] and [Some a] for the address [a]. *)
Definition addr := Z.
Definition ptr := option addr.

(** The test [p == nullptr]. *)
Definition is_nullptr (p : ptr) : bool :=
  match p with None => true | Some _ => false end.

(** What the templates ask of a value type at compile time: [typeid], [sizeof],
    the [SUPPORTS_DEFAULT_VALUES] macro, [operator==] and
    [std::is_polymorphic_v]. *)
Class SerialTraits (V : Type) := {
  type_hash : Z;
  type_size : Z;
  SUPPORTS_DEFAULT_VALUES : bool;
  equal_to : V -> V -> bool;
  is_polymorphic_v : bool;
}.
Arguments type_hash V {_}.
Arguments type_size V {_}.
Arguments SUPPORTS_DEFAULT_VALUES V {_}.
Arguments is_polymorphic_v V {_}.

(** [struct TSerialParameter].  [rValue] is a reference in the source: the
    record carries the referenced value and, in [rValueAddr], its address
    ([&rValue]).  [pDefaultValue] is [None] for [nullptr]. *)
Record TSerialParameter (V : Type) := mkParam {
  pkName : string;
  rValue : V;
  rValueAddr : addr;
  HintFlags : Z;
  pDefaultValue : option V;
}.
Arguments mkParam {V}.
Arguments pkName {V}.
Arguments rValue {V}.
Arguments rValueAddr {V}.
Arguments HintFlags {V}.
Arguments pDefaultValue {V}.

Definition set_rValue {V} (p : TSerialParameter V) (v : V) : TSerialParameter V :=
  mkParam (pkName p) v (rValueAddr p) (HintFlags p) (pDefaultValue p).

(** The two [SerialParameter] overloads, selected by [SUPPORTS_DEFAULT_VALUES]. *)
Definition SerialParameter {V} {ST : SerialTraits V}
    (name : string) (v : V) (a : addr) (hints : Z) (dflt : V) : TSerialParameter V :=
  if SUPPORTS_DEFAULT_VALUES V
  then mkParam name v a hints (Some dflt)
  else mkParam name v a hints None.

Definition ParameterMatchesDefault {V} {ST : SerialTraits V} (kParameter : TSerialParameter V) : bool :=
  if SUPPORTS_DEFAULT_VALUES V
  then match pDefaultValue kParameter with
       | Some d => equal_to (rValue kParameter) d
       | None => false
       end
  else false.

Definition InitParameterToDefault {V} {ST : SerialTraits V}
    (Param : TSerialParameter V) : bool * TSerialParameter V :=
  if SUPPORTS_DEFAULT_VALUES V
  then match pDefaultValue Param with
       | Some d => (true, set_rValue Param d)
       | None => (false, Param)
       end
  else (false, Param).

(** [struct SParmStackEntry] *)
Module SParmStackEntry.
Record t := mk {
  TypeID : Z;
  TypeSize : Z;
  pDataPointer : addr;
  HintFlags : Z;
}.
End SParmStackEntry.

(** [class IArchive].  [world] is everything outside the base object that the
    calls can see or change: the derived archive's own data (the document being
    read or written) and the heap that holds the pointees. *)
Record IArchive (W : Type) := mkArchive {
  mArchiveVersion : Z;
  mFileVersion : Z;
  mGame : Z;
  mArchiveFlags : Z;
  mParmStack : list SParmStackEntry.t;
  world : W;
}.
Arguments mkArchive {W}.
Arguments mArchiveVersion {W}.
Arguments mFileVersion {W}.
Arguments mGame {W}.
Arguments mArchiveFlags {W}.
Arguments mParmStack {W}.
Arguments world {W}.

Definition set_stack {W} (arc : IArchive W) (s : list SParmStackEntry.t) : IArchive W :=
  mkArchive (mArchiveVersion arc) (mFileVersion arc) (mGame arc) (mArchiveFlags arc)
            s (world arc).

Definition set_world {W} (arc : IArchive W) (w : W) : IArchive W :=
  mkArchive (mArchiveVersion arc) (mFileVersion arc) (mGame arc) (mArchiveFlags arc)
            (mParmStack arc) w.

(** Accessors *)
Definition IsReader {W} (arc : IArchive W) : bool := flag_set (mArchiveFlags arc) AF_Reader.
Definition IsWriter {W} (arc : IArchive W) : bool := flag_set (mArchiveFlags arc) AF_Writer.
Definition IsTextFormat {W} (arc : IArchive W) : bool := flag_set (mArchiveFlags arc) AF_Text.
Definition IsBinaryFormat {W} (arc : IArchive W) : bool := flag_set (mArchiveFlags arc) AF_Binary.
Definition ArchiveVersion {W} (arc : IArchive W) : Z := mArchiveVersion arc.

(** The member functions of [IArchive] run on the archive. *)
Abbreviation M W := (StateErr (IArchive W)).

(** The pure virtual interface of [IArchive] that the operators use. *)
Class Backend (W : Type) := {
  ParamBegin : string -> Z -> W -> bool * W;
  ParamEnd : W -> W;
  (** [Pointer] is passed by reference: the hook returns its new value. *)
  PreSerializePointer : ptr -> Z -> W -> bool * ptr * W;
}.

(** One [SerializePrimitive] overload for the type [V], and access to a [V]
    held on the heap. *)
Class Primitive (W V : Type) := {
  SerializePrimitive : V -> Z -> W -> V * W;
  load : addr -> W -> V;
  store : addr -> V -> W -> W;
}.

(** What the build and the compiler fix: whether [_DEBUG] is defined, the
    [typeid] hash of [u32], and, for the automatic variable [Type] of the
    pointer operators, its address and the indeterminate content an
    uninitialised [u32] starts with. *)
Class Platform := {
  DEBUG : bool;
  u32_hash : Z;
  local_Type_addr : addr;
  indeterminate_u32 : Z;
}.

(** The pointer type [ValType*] of a pointer parameter and its pointee. *)
Class PointerTraits (W : Type) := {
  ptr_type_hash : Z;
  ptr_type_size : Z;
  (** [std::is_polymorphic_v<ValType>] *)
  pointee_is_polymorphic : bool;
  (** [new ValType] *)
  new_ValType : W -> addr * W;
}.

(** [SUPPORTS_DEFAULT_VALUES] is false for every pointer type. *)
Definition ptr_SerialTraits `{PointerTraits W} : SerialTraits ptr := {|
  type_hash := ptr_type_hash;
  type_size := ptr_type_size;
  SUPPORTS_DEFAULT_VALUES := false;
  equal_to := fun p q => bool_decide (p = q);
  is_polymorphic_v := false;
|}.

Definition u32_SerialTraits `{Platform} : SerialTraits Z := {|
  type_hash := u32_hash;
  type_size := 4;
  SUPPORTS_DEFAULT_VALUES := true;
  equal_to := Z.eqb;
  is_polymorphic_v := false;
|}.

(** A [Serialize] function that runs against the archive: the member
    [ValType::Serialize(IArchive&)] or the global [Serialize(IArchive&, ValType&)],
    on a value held by the caller and on an object on the heap. *)
Class Serializable (W V : Type) := {
  Serialize : V -> M W V;
  Serialize_at : addr -> M W unit;
}.

(** [ValType::ArchiveConstructor], in the two shapes [ArchiveConstructorType]
    tells apart. *)
Inductive ArchiveConstructorType (W T : Type) :=
  | Basic (ArchiveConstructor : T -> W -> ptr * W)
  | Advanced (ArchiveConstructor : T -> IArchive W -> ptr * W).
Arguments Basic {W T}.
Arguments Advanced {W T}.

(** An abstract class: the virtual [Type()] of an object and the
    value-initialised [ObjectType()]. *)
Class Abstract (W T : Type) := {
  ObjType : addr -> W -> T;
  ObjectType_zero : T;
}.

(** The factory of an abstract class. *)
Class Factory (W T : Type) := {
  Constructor : ArchiveConstructorType W T;
}.

Section Engine.
Context {W : Type} `{!Backend W} `{!Platform}.

(** The virtual calls, lifted to the monad. *)
Definition callParamBegin (name : string) (flags : Z) : M W bool :=
  fun arc =>
    let '(b, w) := ParamBegin name flags (world arc) in Ok (b, set_world arc w).

Definition callParamEnd : M W unit :=
  fun arc => Ok (tt, set_world arc (ParamEnd (world arc))).

Definition callPreSerializePointer (p : ptr) (flags : Z) : M W (bool * ptr) :=
  fun arc =>
    let '(b, p', w) := PreSerializePointer p flags (world arc) in
    Ok ((b, p'), set_world arc w).

Definition callSerializePrimitive {V} `{!Primitive W V} (v : V) (flags : Z) : M W V :=
  fun arc =>
    let '(v', w) := SerializePrimitive v flags (world arc) in
    Ok (v', set_world arc w).

Definition ShouldSerializeParameter {V} {ST : SerialTraits V}
    (Param : TSerialParameter V) (arc : IArchive W) : bool :=
  if flag_set (mArchiveFlags arc) AF_NoSkipping then true
  else if IsWriter arc then
    if flag_set (HintFlags Param) SH_NeverSave then false
    else if flag_set (HintFlags Param) SH_Optional
            && (Z.land (HintFlags Param) SH_AlwaysSave =? 0)
            && ParameterMatchesDefault Param
         then false
         else true
  else true.

(** The [SParmStackEntry] that [PushParameter] fills in for a parameter. *)
Definition Entry {V} {ST : SerialTraits V} (Param : TSerialParameter V) : SParmStackEntry.t :=
  SParmStackEntry.mk (type_hash V) (type_size V) (rValueAddr Param) (HintFlags Param).

Definition PushParameter {V} {ST : SerialTraits V} (Param : TSerialParameter V) : M W unit :=
  arc ← get;
  (if DEBUG then
     match last (mParmStack arc) with
     | Some back => ASSERT (Z.land (SParmStackEntry.HintFlags back) SH_Attribute =? 0)
     | None => ret tt
     end
   else ret tt);;
  modify (fun arc => set_stack arc (mParmStack arc ++ [Entry Param])).

(** The debug check of [PushParameter] fails: the frame on top of the stack
    carries [SH_Attribute]. *)
Definition attribute_parent (arc : IArchive W) : bool :=
  DEBUG && match last (mParmStack arc) with
           | Some back => negb (Z.land (SParmStackEntry.HintFlags back) SH_Attribute =? 0)
           | None => false
           end.

Definition PopParameter {V} {ST : SerialTraits V} (Param : TSerialParameter V) : M W unit :=
  arc ← get;
  (if DEBUG then
     ASSERT (0 <? Z.of_nat (length (mParmStack arc)));;
     match last (mParmStack arc) with
     | Some kEntry =>
         ASSERT (SParmStackEntry.TypeID kEntry =? type_hash V);;
         ASSERT (SParmStackEntry.pDataPointer kEntry =? rValueAddr Param)
     | None => ret tt
     end
   else ret tt);;
  match mParmStack arc with
  | [] => undefined
  | _ => modify (fun arc => set_stack arc (removelast (mParmStack arc)))
  end.

(** [operator<<] for the Primitive strategy.  The parameter is passed by
    value and its [rValue] is a reference: the operator returns the parameter
    with the value the field holds afterwards. *)
Definition operator_shl_Primitive {V} {ST : SerialTraits V} `{!Primitive W V}
    (rParam : TSerialParameter V) : M W (TSerialParameter V) :=
  PushParameter rParam;;
  arc ← get;
  entered ← (if ShouldSerializeParameter rParam arc
              then callParamBegin (pkName rParam) (HintFlags rParam)
              else ret false);
  rParam' ← (if entered : bool then
                v ← callSerializePrimitive (rValue rParam) (HintFlags rParam);
                callParamEnd;;
                ret (set_rValue rParam v)
              else
                arc ← get;
                if IsReader arc then ret (snd (InitParameterToDefault rParam))
                else ret rParam);
  PopParameter rParam';;
  ret rParam'.

(** [operator<<] for the Global strategy: [Serialize] applied to the archive
    and [rParam.rValue]. *)
Definition operator_shl_Global {V} {ST : SerialTraits V} `{!Serializable W V}
    (rParam : TSerialParameter V) : M W (TSerialParameter V) :=
  PushParameter rParam;;
  arc ← get;
  entered ← (if ShouldSerializeParameter rParam arc
             then callParamBegin (pkName rParam) (HintFlags rParam)
             else ret false);
  rParam' ← (if entered : bool then
               v ← Serialize (rValue rParam);
               callParamEnd;;
               ret (set_rValue rParam v)
             else
               arc ← get;
               if IsReader arc then ret (snd (InitParameterToDefault rParam))
               else ret rParam);
  PopParameter rParam';;
  ret rParam'.

(** [operator<<] for the Member strategy: [rParam.rValue.Serialize] applied
    to the archive. *)
Definition operator_shl_Member {V} {ST : SerialTraits V} `{!Serializable W V}
    (rParam : TSerialParameter V) : M W (TSerialParameter V) :=
  PushParameter rParam;;
  arc ← get;
  entered ← (if ShouldSerializeParameter rParam arc
             then callParamBegin (pkName rParam) (HintFlags rParam)
             else ret false);
  rParam' ← (if entered : bool then
               v ← Serialize (rValue rParam);
               callParamEnd;;
               ret (set_rValue rParam v)
             else
               arc ← get;
               if IsReader arc then ret (snd (InitParameterToDefault rParam))
               else ret rParam);
  PopParameter rParam';;
  ret rParam'.

(** [new ValType], and [SerializePrimitive] on the pointee. *)
Definition callNew `{!PointerTraits W} : M W addr :=
  fun arc => let '(a, w) := new_ValType (world arc) in Ok (a, set_world arc w).

Definition callSerializePrimitive_at {V} `{!Primitive W V} (a : addr) (flags : Z) : M W unit :=
  fun arc =>
    let '(v, w) := SerializePrimitive (load a (world arc)) flags (world arc) in
    Ok (tt, set_world arc (store a v w)).

(** The parameter [SerialParameter("Type", Type, SH_Attribute)] of the
    block below, for the automatic [u32 Type]. *)
Definition legacy_Type_parameter : TSerialParameter Z :=
  SerialParameter (ST := u32_SerialTraits)
    "Type" indeterminate_u32 local_Type_addr SH_Attribute 0.

(** "Support for old versions of archives that serialize types on
    non-abstract polymorphic pointers": the block
    [if (ArchiveVersion() < eArVer_Refactor && IsReader() && std::is_polymorphic_v<ValType>)]
    that the three non-abstract pointer operators open their scope with. *)
Definition legacy_Type_tag `{!PointerTraits W} `{!Primitive W Z} : M W unit :=
  arc ← get;
  if (ArchiveVersion arc <? eArVer_Refactor) && IsReader arc && pointee_is_polymorphic
  then operator_shl_Primitive (ST := u32_SerialTraits) legacy_Type_parameter;; ret tt
  else ret tt.

(** The rest of a pointer operator once its scope is entered and the block
    above is past: from [PreSerializePointer] to the return, with
    [serialize_pointee] for the call that serializes the pointee.  The three
    non-abstract pointer operators read the same from there on. *)
Definition pointee_scope `{!PointerTraits W}
    (serialize_pointee : addr -> M W unit)
    (rParam : TSerialParameter ptr) : M W (TSerialParameter ptr) :=
  '(accepted, p) ← callPreSerializePointer (rValue rParam) (HintFlags rParam);
  p' ← (if accepted : bool then
          arc ← get;
          p1 ← (if is_nullptr p && IsReader arc
                then a ← callNew; ret (Some a)
                else ret p);
          match p1 with
          | Some a => serialize_pointee a
          | None => ret tt
          end;;
          ret p1
        else
          arc ← get;
          if IsReader arc then ret None else ret p);
  callParamEnd;;
  PopParameter (ST := ptr_SerialTraits) (set_rValue rParam p');;
  ret (set_rValue rParam p').

(** The archive as the pointer operators leave it on entering the scope of
    [rParam]: the frame pushed, and the backend past [ParamBegin]. *)
Definition entered_scope `{!PointerTraits W}
    (rParam : TSerialParameter ptr) (w1 : W) (arc : IArchive W) : IArchive W :=
  set_world (set_stack arc (mParmStack arc ++ [Entry (ST := ptr_SerialTraits) rParam])) w1.

(** [operator<<] for a pointer whose pointee has the Primitive strategy. *)
Definition operator_shl_PrimitivePtr `{!PointerTraits W} `{!Primitive W Z} {V} `{!Primitive W V}
    (rParam : TSerialParameter ptr) : M W (TSerialParameter ptr) :=
  arc ← get;
  ASSERT (negb (flag_set (mArchiveFlags arc) AF_Writer)
          || negb (is_nullptr (rValue rParam)));;
  PushParameter (ST := ptr_SerialTraits) rParam;;
  arc ← get;
  entered ← (if ShouldSerializeParameter (ST := ptr_SerialTraits) rParam arc
             then callParamBegin (pkName rParam) (HintFlags rParam)
             else ret false);
  if entered : bool then
    legacy_Type_tag;;
    pointee_scope (fun a => callSerializePrimitive_at (V := V) a (HintFlags rParam)) rParam
  else
    PopParameter (ST := ptr_SerialTraits) rParam;;
    ret rParam.

(** [operator<<] for a pointer whose pointee has the Global strategy.  The
    source calls [ParamBegin(rParam.pkName)] and
    [PreSerializePointer(rParam.rValue, rParam.HintFlags, rParam.HintFlags)]
    here, with one and three arguments where [IArchive] declares two; the
    model passes the name and the hints, as the sibling operators do. *)
Definition operator_shl_GlobalPtr `{!PointerTraits W} `{!Primitive W Z} {V} `{!Serializable W V}
    (rParam : TSerialParameter ptr) : M W (TSerialParameter ptr) :=
  arc ← get;
  ASSERT (negb (IsWriter arc) || negb (is_nullptr (rValue rParam)));;
  PushParameter (ST := ptr_SerialTraits) rParam;;
  arc ← get;
  entered ← (if ShouldSerializeParameter (ST := ptr_SerialTraits) rParam arc
             then callParamBegin (pkName rParam) (HintFlags rParam)
             else ret false);
  if entered : bool then
    legacy_Type_tag;;
    pointee_scope (Serialize_at (V := V)) rParam
  else
    PopParameter (ST := ptr_SerialTraits) rParam;;
    ret rParam.

(** [operator<<] for a pointer whose pointee has the Member strategy and is
    not abstract. *)
Definition operator_shl_MemberPtr `{!PointerTraits W} `{!Primitive W Z} {V} `{!Serializable W V}
    (rParam : TSerialParameter ptr) : M W (TSerialParameter ptr) :=
  PushParameter (ST := ptr_SerialTraits) rParam;;
  arc ← get;
  entered ← (if ShouldSerializeParameter (ST := ptr_SerialTraits) rParam arc
             then callParamBegin (pkName rParam) (HintFlags rParam)
             else ret false);
  if entered : bool then
    legacy_Type_tag;;
    pointee_scope (Serialize_at (V := V)) rParam
  else
    PopParameter (ST := ptr_SerialTraits) rParam;;
    ret rParam.

Definition callArchiveConstructor {T} `{!Factory W T} (Type_ : T) : M W ptr :=
  fun arc =>
    let '(p, w) := match Constructor with
                   | Basic ArchiveConstructor => ArchiveConstructor Type_ (world arc)
                   | Advanced ArchiveConstructor => ArchiveConstructor Type_ arc
                   end in
    Ok (p, set_world arc w).

(** [InstantiateAbstractObject], in its Basic and Advanced variants. *)
Definition InstantiateAbstractObject {T} `{!Factory W T} (Type_ : T) : M W ptr :=
  arc ← get;
  ASSERT (IsReader arc);;
  callArchiveConstructor Type_.

(** [operator<<] for a pointer to an abstract class with the Member strategy.
    [ObjectType] is taken to be one of the integral types with a
    [SerializePrimitive] overload. *)
Definition operator_shl_AbstractPtr
    `{!PointerTraits W} {T} {ST : SerialTraits T} `{!Primitive W T}
    `{!Abstract W T} `{F : !Factory W T}
    {V} `{!Serializable W V}
    (rParam : TSerialParameter ptr) : M W (TSerialParameter ptr) :=
  PushParameter (ST := ptr_SerialTraits) rParam;;
  arc ← get;
  entered ← (if ShouldSerializeParameter (ST := ptr_SerialTraits) rParam arc
             then callParamBegin (pkName rParam) (HintFlags rParam)
             else ret false);
  rParam' ← (if entered : bool then
               '(accepted, p) ← callPreSerializePointer (rValue rParam) (HintFlags rParam);
               p' ← (if accepted : bool then
                       arc ← get;
                       p1 ← (if IsWriter arc then
                               match p with
                               | Some a =>
                                   operator_shl_Primitive
                                     (SerialParameter "Type" (ObjType a (world arc))
                                        local_Type_addr SH_Attribute ObjectType_zero);;
                                   ret p
                               | None => undefined
                               end
                             else
                               let TypeCopy := match p with
                                               | Some a => ObjType a (world arc)
                                               | None => ObjectType_zero
                                               end in
                               prm ← operator_shl_Primitive
                                       (SerialParameter "Type" TypeCopy
                                          local_Type_addr SH_Attribute ObjectType_zero);
                               let Type_ := rValue prm in
                               arc ← get;
                               if IsReader arc && is_nullptr p
                               then InstantiateAbstractObject Type_
                               else if negb (is_nullptr p)
                                    then ASSERT (equal_to Type_ TypeCopy);; ret p
                                    else ret p);
                       match p1 with
                       | Some a => Serialize_at (V := V) a
                       | None => ret tt
                       end;;
                       ret p1
                     else
                       arc ← get;
                       if IsReader arc then ret None else ret p);
               callParamEnd;;
               ret (set_rValue rParam p')
             else ret rParam);
  PopParameter (ST := ptr_SerialTraits) rParam';;
  ret rParam'.

(** [FindParentObject]: [int ParmIdx = mParmStack.size() - 2] subtracts in
    [size_t] (64 bits) and converts to [int] (32 bits, two's complement). *)
Definition to_size_t (z : Z) : Z := z mod 2^64.
Definition to_int (z : Z) : Z :=
  let m := z mod 2^32 in if m <? 2^31 then m else m - 2^32.

(** The loop, with [n = ParmIdx + 1]: it runs while [ParmIdx >= 0].  The
    index it starts from is below the size of the stack, so the lookup finds a
    frame at every turn. *)
Fixpoint FindParentObject_loop (T : Z) (stack : list SParmStackEntry.t) (n : nat) : ptr :=
  match n with
  | O => None
  | S ParmIdx =>
      match stack !! ParmIdx with
      | Some kEntry =>
          if SParmStackEntry.TypeID kEntry =? T
          then Some (SParmStackEntry.pDataPointer kEntry)
          else FindParentObject_loop T stack ParmIdx
      | None => None
      end
  end.

Definition FindParentObject_stack (T : Z) (stack : list SParmStackEntry.t) : ptr :=
  let ParmIdx := to_int (to_size_t (Z.of_nat (length stack) - 2)) in
  FindParentObject_loop T stack (Z.to_nat (ParmIdx + 1)).

Definition FindParentObject {V} {ST : SerialTraits V} (arc : IArchive W) : ptr :=
  FindParentObject_stack (type_hash V) (mParmStack arc).

End Engine.

End Archive.

(** * Part II: [CResourceStore.cpp] *)

Module Store.
Local Open Scope Z_scope.

(** Ids, enumerations and the string types.  [TString] and [TWideString] are
    both [string]: the conversions between them ([ToUTF8], [ToUTF16]) are left
    out. *)
Abbreviation CAssetID := Z.
Abbreviation EResType := Z.
Abbreviation EGame := Z.
Abbreviation TString := string.
Abbreviation TWideString := string.
Abbreviation CFourCC := string.

(** A [CVirtualDirectory*]. *)
Abbreviation dirptr := Z.

(** A [CResourceEntry*].  [mResourceEntries] owns the entries, one under each
    key; a pointer to an entry is modelled by the key the entry is owned
    under, so that the two maps of the store share the one entry. *)
Abbreviation entryptr := CAssetID.

(** [enum EResEntryFlag] *)
Definition eREF_NeedsRecook  : Z := 0x1.
Definition eREF_Transient    : Z := 0x2.
Definition eREF_HasThumbnail : Z := 0x4.
Definition eREF_SavedFlags   : Z := Z.lor eREF_NeedsRecook eREF_HasThumbnail.

(** Modelled from the spec: the payload [CResource] ([Core/Resource/CResource.h]
    is not among the sources).  The payload publishes a reference count, and
    it holds references to the payloads of other entries ([mReferences], by the
    ids of their entries), which it drops when it is released. *)
Record CResource := mkResource {
  mRefCount : Z;
  mReferences : list CAssetID;
}.

Definition IsReferenced (r : CResource) : bool := 0 <? mRefCount r.

(** [class CResourceEntry], with the members [CResourceStore.cpp] reads. *)
Record CResourceEntry := mkEntry {
  mpResource : option CResource;
  mID : CAssetID;
  mType : EResType;
  mpDirectory : option dirptr;
  mName : TWideString;
  mFlags : Z;
}.

Definition IsLoaded (e : CResourceEntry) : bool :=
  match mpResource e with Some _ => true | None => false end.
Definition Resource (e : CResourceEntry) : option CResource := mpResource e.
Definition ID (e : CResourceEntry) : CAssetID := mID e.
Definition Directory (e : CResourceEntry) : option dirptr := mpDirectory e.
Definition Name (e : CResourceEntry) : TWideString := mName e.
Definition ResourceType (e : CResourceEntry) : EResType := mType e.
Definition IsTransient (e : CResourceEntry) : bool := flag_set (mFlags e) eREF_Transient.

Definition set_mpResource (e : CResourceEntry) (r : option CResource) : CResourceEntry :=
  mkEntry r (mID e) (mType e) (mpDirectory e) (mName e) (mFlags e).

(** [class CResourceStore].  [dirs] holds the [CVirtualDirectory] nodes the
    directory pointers point to, [env] the file system and the random source
    of the process, and [errors] what was passed to [Log::Error]: of each
    message, the literal text that comes before the ids and paths the source
    appends to it. *)
Record CResourceStore (D E : Type) := mkStore {
  mGame : EGame;
  mpDatabaseRoot : option dirptr;
  mTransientRoots : list dirptr;
  mResourceEntries : gmap CAssetID CResourceEntry;
  mLoadedResources : gmap CAssetID entryptr;
  mRawDir : TWideString;
  mCookedDir : TWideString;
  mTransientLoadDir : TWideString;
  mDatabaseDirty : bool;
  mCacheFileDirty : bool;
  dirs : D;
  env : E;
  errors : list string;
}.
Arguments mkStore {D E}.
Arguments mGame {D E}.
Arguments mpDatabaseRoot {D E}.
Arguments mTransientRoots {D E}.
Arguments mResourceEntries {D E}.
Arguments mLoadedResources {D E}.
Arguments mRawDir {D E}.
Arguments mCookedDir {D E}.
Arguments mTransientLoadDir {D E}.
Arguments mDatabaseDirty {D E}.
Arguments mCacheFileDirty {D E}.
Arguments dirs {D E}.
Arguments env {D E}.
Arguments errors {D E}.

Section Setters.
Context {D E : Type}.
Implicit Type s : CResourceStore D E.

Definition set_mTransientRoots s (x : list dirptr) : CResourceStore D E :=
  mkStore (mGame s) (mpDatabaseRoot s) x (mResourceEntries s) (mLoadedResources s)
    (mRawDir s) (mCookedDir s) (mTransientLoadDir s) (mDatabaseDirty s) (mCacheFileDirty s)
    (dirs s) (env s) (errors s).
Definition set_mResourceEntries s (x : gmap CAssetID CResourceEntry) : CResourceStore D E :=
  mkStore (mGame s) (mpDatabaseRoot s) (mTransientRoots s) x (mLoadedResources s)
    (mRawDir s) (mCookedDir s) (mTransientLoadDir s) (mDatabaseDirty s) (mCacheFileDirty s)
    (dirs s) (env s) (errors s).
Definition set_mLoadedResources s (x : gmap CAssetID entryptr) : CResourceStore D E :=
  mkStore (mGame s) (mpDatabaseRoot s) (mTransientRoots s) (mResourceEntries s) x
    (mRawDir s) (mCookedDir s) (mTransientLoadDir s) (mDatabaseDirty s) (mCacheFileDirty s)
    (dirs s) (env s) (errors s).
Definition set_mTransientLoadDir s (x : TWideString) : CResourceStore D E :=
  mkStore (mGame s) (mpDatabaseRoot s) (mTransientRoots s) (mResourceEntries s)
    (mLoadedResources s) (mRawDir s) (mCookedDir s) x (mDatabaseDirty s) (mCacheFileDirty s)
    (dirs s) (env s) (errors s).
Definition set_dirs s (x : D) : CResourceStore D E :=
  mkStore (mGame s) (mpDatabaseRoot s) (mTransientRoots s) (mResourceEntries s)
    (mLoadedResources s) (mRawDir s) (mCookedDir s) (mTransientLoadDir s) (mDatabaseDirty s)
    (mCacheFileDirty s) x (env s) (errors s).
Definition set_env s (x : E) : CResourceStore D E :=
  mkStore (mGame s) (mpDatabaseRoot s) (mTransientRoots s) (mResourceEntries s)
    (mLoadedResources s) (mRawDir s) (mCookedDir s) (mTransientLoadDir s) (mDatabaseDirty s)
    (mCacheFileDirty s) (dirs s) x (errors s).
Definition Log_Error s (msg : string) : CResourceStore D E :=
  mkStore (mGame s) (mpDatabaseRoot s) (mTransientRoots s) (mResourceEntries s)
    (mLoadedResources s) (mRawDir s) (mCookedDir s) (mTransientLoadDir s) (mDatabaseDirty s)
    (mCacheFileDirty s) (dirs s) (env s) (errors s ++ [msg]).

End Setters.

(** The member functions of [CResourceStore] run on the store. *)
Abbreviation S D E := (StateErr (CResourceStore D E)).

(** [class CSerialVersion] *)
Record CSerialVersion := mkSerialVersion {
  sv_ArchiveVersion : Z;
  sv_FileVersion : Z;
  sv_Game : EGame;
}.

(** [struct SDatabaseResource] of [SerializeResourceDatabase]; [db_Directory]
    is the directory whose [FullPath()] the record stores. *)
Record SDatabaseResource := mkDatabaseResource {
  db_ID : CAssetID;
  db_Type : EResType;
  db_Directory : option dirptr;
  db_Name : TWideString;
}.

(** What the store calls and the sources do not contain: [CAssetID],
    [TString], [FileUtil], [CResTypeInfo], [CVirtualDirectory], the streams and
    archives of the two files, and the parts of [CResourceEntry] that live in
    [CResourceEntry.cpp].  They are parameters of the model. *)
Class Collaborators (D E F : Type) := {
  (** [CAssetID::IsValid], [CAssetID::RandomID], [CAssetID::ToString] *)
  IsValid : CAssetID -> bool;
  RandomID : E -> CAssetID * E;
  ToString : CAssetID -> TString;
  (** [EResType::eInvalidResType], [CResTypeInfo::TypeForCookedExtension(...)->Type()] *)
  eInvalidResType : EResType;
  TypeForCookedExtension : EGame -> CFourCC -> EResType;
  (** [CVirtualDirectory] *)
  IsValidDirectoryPath : TWideString -> bool;
  IsEmpty : dirptr -> D -> bool;
  RemoveChildResource : dirptr -> entryptr -> D -> D;
  delete_directory : dirptr -> D -> D;
  FindChildResource : dirptr -> TWideString -> D -> option entryptr;
  (** [FileUtil], [TString] *)
  IsValidName : TWideString -> bool -> bool;
  Contains : TWideString -> string -> bool;
  IsAbsolute : TWideString -> bool;
  MakeAbsolute : TWideString -> TWideString;
  GetFileDirectory : TWideString -> TWideString;
  GetFileName : TWideString -> bool -> TString;
  GetFileExtension : TString -> TString;
  ToUpper : TString -> TString;
  IsHexString : TString -> bool;
  ToInt64 : TString -> CAssetID;
  Hash64 : TWideString -> CAssetID;
  CaseInsensitiveCompare : TString -> TString -> bool;
  (** [CResourceEntry::CookedExtension().ToString()], [CResourceEntry::RawExtension()] *)
  CookedExtension : CResourceEntry -> TString;
  RawExtension : CResourceEntry -> TString;
  (** The constructor of [CResourceEntry] links the new entry into the
      directory tree: from the directory path, the Transient flag and the
      entry, the directory it ends up in. *)
  link_directory :
    TWideString -> bool -> entryptr -> list dirptr * D -> option dirptr * (list dirptr * D);
  (** [CResourceEntry::AddToProject], on the store that owns the entry. *)
  AddToProject : TWideString -> TWideString -> entryptr ->
                 CResourceStore D E -> CResourceStore D E;
  (** [CResourceEntry::LoadCooked] on the file at a path: the payload, or
      [None] when the file cannot be opened or is rejected. *)
  LoadCooked : CResourceEntry -> TString -> E -> option CResource;
  (** [CResourceEntry::Load] *)
  Entry_Load : entryptr -> S D E (option CResource);
  (** [CFileInStream::IsValid] on the file at a path, and on the cache file
      at [CacheDataPath()]: the content of the file if it opens. *)
  FileIsValid : TString -> E -> bool;
  OpenCacheFileIn : E -> option F;
  (** Reading at an offset of an input stream: the value read and the offset
      after it.  [CFourCC(stream)], [CSerialVersion(stream)],
      [stream.ReadLong()], [CAssetID(stream, game)]. *)
  ReadFourCC : F -> Z -> CFourCC * Z;
  ReadSerialVersion : F -> Z -> CSerialVersion * Z;
  ReadLong : F -> Z -> Z * Z;
  ReadAssetID : EGame -> F -> Z -> CAssetID * Z;
  (** [CBasicBinaryReader::ParamBegin("EntryCache")] and
      [CResourceEntry::SerializeCacheData] reading at an offset. *)
  ReaderParamBegin : F -> CSerialVersion -> Z -> bool * Z;
  SerializeCacheData : CResourceEntry -> F -> CSerialVersion -> Z -> CResourceEntry;
  (** [CXMLWriter::Save] of the resource database. *)
  SaveXML : TWideString -> TWideString -> list SDatabaseResource -> E -> bool * E;
  (** [CFileOutStream::IsValid] on the cache file, what
      [SerializeCacheData] writes for an entry, and the file written: the
      game, the resource count and the records. *)
  CacheFileOutIsValid : E -> bool;
  CachePayload : CResourceEntry -> list Z;
  WriteCacheFile : EGame -> Z -> list (CAssetID * Z * list Z) -> E -> E;
}.

Section ResourceStore.
Context {D E F : Type} `{!Collaborators D E F}.
Implicit Type s : CResourceStore D E.

(** [*pEntry]: dereferencing a pointer to an entry that is not there has no
    meaning. *)
Definition deref (pEntry : entryptr) : S D E CResourceEntry :=
  s ← get;
  match mResourceEntries s !! pEntry with
  | Some e => mret e
  | None => undefined
  end.

Definition assign (pEntry : entryptr) (e : CResourceEntry) : S D E unit :=
  modify (fun s => set_mResourceEntries s (<[pEntry := e]> (mResourceEntries s))).

Definition FindEntry (rkID : CAssetID) s : option entryptr :=
  if negb (IsValid rkID) then None
  else match mResourceEntries s !! rkID with
       | Some _ => Some rkID
       | None => None
       end.

Definition IsResourceRegistered (rkID : CAssetID) s : bool :=
  match FindEntry rkID s with Some _ => true | None => false end.

Definition IsValidResourcePath (rkPath rkName : TWideString) : bool :=
  IsValidDirectoryPath rkPath
  && IsValidName rkName false
  && negb (Contains rkName "/")
  && negb (Contains rkName "\").

(** Modelled from the spec: the constructor of [CResourceEntry]
    ([CResourceEntry.cpp] is not among the sources).  The entry starts
    unloaded, with the id, type and name given and the Transient flag as
    asked; [link_directory] places it in the directory tree. *)
Definition new_CResourceEntry (rkID : CAssetID) (rkDir rkFilename : TWideString)
    (Type_ : EResType) (Transient : bool) : S D E CResourceEntry :=
  s ← get;
  let '(pDir, (roots, d)) := link_directory rkDir Transient rkID (mTransientRoots s, dirs s) in
  modify (fun s => set_dirs (set_mTransientRoots s roots) d);;
  mret (mkEntry None rkID Type_ pDir rkFilename (if Transient then eREF_Transient else 0)).

Definition RegisterResource (rkID : CAssetID) (Type_ : EResType)
    (rkDir rkName : TWideString) : S D E (option entryptr) :=
  s ← get;
  match FindEntry rkID s with
  | Some pEntry =>
      e ← deref pEntry;
      (if IsTransient e then
         ASSERT (ResourceType e =? Type_);;
         modify (AddToProject rkDir rkName pEntry)
       else
         modify (fun s => Log_Error s
           "Attempted to register resource that's already tracked in the database: "));;
      mret (Some pEntry)
  | None =>
      if IsValidResourcePath rkDir rkName then
        e ← new_CResourceEntry rkID rkDir rkName Type_ false;
        assign rkID e;;
        mret (Some rkID)
      else
        modify (fun s => Log_Error s "Invalid resource path, failed to register: ");;
        mret None
  end.

(** [RegisterTransientResource(EResType, rkDir, rkFileName)] *)
Definition RegisterTransientResource (Type_ : EResType)
    (rkDir rkFileName : TWideString) : S D E entryptr :=
  s ← get;
  let '(id, en) := RandomID (env s) in
  modify (fun s => set_env s en);;
  e ← new_CResourceEntry id rkDir rkFileName Type_ true;
  assign (ID e) e;;
  mret (ID e).

(** [RegisterTransientResource(EResType, rkID, rkDir, rkFileName)] *)
Definition RegisterTransientResource_ID (Type_ : EResType) (rkID : CAssetID)
    (rkDir rkFileName : TWideString) : S D E entryptr :=
  s ← get;
  match FindEntry rkID s with
  | Some pEntry => mret pEntry
  | None =>
      e ← new_CResourceEntry rkID rkDir rkFileName Type_ true;
      assign rkID e;;
      mret rkID
  end.

(** The entry with [n] references fewer on its payload, if it has one. *)
Definition drop_references (n : Z) (e : CResourceEntry) : CResourceEntry :=
  match mpResource e with
  | Some r => set_mpResource e (Some (mkResource (mRefCount r - n) (mReferences r)))
  | None => e
  end.

(** [CResource::Release] as the destructor of a payload applies it to a
    payload it holds: one reference fewer. *)
Definition Release (target : CAssetID)
    (m : gmap CAssetID CResourceEntry) : gmap CAssetID CResourceEntry :=
  alter (drop_references 1) target m.

(** Modelled from the spec: [CResourceEntry::Unload] ([CResourceEntry.cpp] is
    not among the sources).  It "only succeeds if the payload reports no
    outstanding external references; on success releases the payload", and
    "returns false (refusing to unload) otherwise".  The spec also has it
    remove the entry from the loaded-map; [CResourceStore.cpp] does that itself
    after [Unload] returns true, through an iterator or a [find] that it
    asserts to succeed, so the model leaves the map to the callers. *)
Definition Unload (pEntry : entryptr) : S D E bool :=
  e ← deref pEntry;
  match mpResource e with
  | Some r =>
      if IsReferenced r then mret false
      else
        modify (fun s => set_mResourceEntries s
          (foldr Release (<[pEntry := set_mpResource e None]> (mResourceEntries s))
             (mReferences r)));;
        mret true
  | None => mret true
  end.

Definition DeleteResourceEntry (pEntry : entryptr) : S D E bool :=
  e ← deref pEntry;
  let ID_ := ID e in
  unloaded ← (if IsLoaded e then
                b ← Unload pEntry;
                if b : bool then
                  s ← get;
                  ASSERT (bool_decide (is_Some (mLoadedResources s !! ID_)));;
                  modify (fun s => set_mLoadedResources s (delete ID_ (mLoadedResources s)));;
                  mret true
                else mret false
              else mret true);
  if unloaded : bool then
    match Directory e with
    | Some d => modify (fun s => set_dirs s (RemoveChildResource d pEntry (dirs s)))
    | None => mret tt
    end;;
    s ← get;
    ASSERT (bool_decide (is_Some (mResourceEntries s !! ID_)));;
    modify (fun s => set_mResourceEntries s (delete ID_ (mResourceEntries s)));;
    mret true
  else mret false.

(** A [std::map] is walked in the order of its keys. *)
Definition key_le {A} (x y : CAssetID * A) : Prop := x.1 <= y.1.

#[global] Instance key_le_dec {A} (x y : CAssetID * A) : Decision (key_le x y) :=
  Z_le_dec x.1 y.1.

Definition in_order {A} (m : gmap CAssetID A) : list (CAssetID * A) :=
  merge_sort key_le (map_to_list m).

(** The [while] loop of [DestroyUnreferencedResources] over the pairs the
    iterator has still to visit.  Erasing the pair under the iterator leaves
    the pairs after it in place, and nothing in the body touches them, so they
    are the ones the map held when the loop began. *)
Fixpoint scan_loaded (It : list (CAssetID * entryptr)) (NumDeleted : Z) : S D E Z :=
  match It with
  | [] => mret NumDeleted
  | (key, pEntry) :: It' =>
      e ← deref pEntry;
      match Resource e with
      | None => undefined
      | Some r =>
          unloaded ← (if negb (IsReferenced r) then Unload pEntry else mret false);
          if unloaded : bool then
            modify (fun s => set_mLoadedResources s (delete key (mLoadedResources s)));;
            (if IsTransient e then DeleteResourceEntry pEntry;; mret tt else mret tt);;
            scan_loaded It' ((NumDeleted + 1) mod 2^32)
          else scan_loaded It' NumDeleted
      end
  end.

(** One turn of the [do ... while]: a full scan of the loaded-map. *)
Definition scan_pass : S D E Z :=
  s ← get;
  scan_loaded (in_order (mLoadedResources s)) 0.

(** The [do ... while (NumDeleted > 0)], at most [turns] times over. *)
Fixpoint unload_unreferenced (turns : nat) : S D E bool :=
  match turns with
  | O => mret false
  | Datatypes.S turns' =>
      NumDeleted ← scan_pass;
      if 0 <? NumDeleted then unload_unreferenced turns' else mret true
  end.

(** The closing [for] loop over [mTransientRoots].  After [erase] the iterator
    stands on the next root and the loop's own increment steps over it; when
    the erased root was the last one the increment moves the iterator past the
    end. *)
Fixpoint destroy_empty_roots (DirIt : list dirptr) : S D E (list dirptr) :=
  match DirIt with
  | [] => mret []
  | pRoot :: rest =>
      s ← get;
      if IsEmpty pRoot (dirs s) then
        modify (fun s => set_dirs s (delete_directory pRoot (dirs s)));;
        match rest with
        | [] => undefined
        | next :: rest' => kept ← destroy_empty_roots rest'; mret (next :: kept)
        end
      else kept ← destroy_empty_roots rest; mret (pRoot :: kept)
  end.

(** [DestroyUnreferencedResources].  Every turn of the [do ... while] but the
    last erases at least one pair, so one turn more than the loaded-map has
    pairs is enough; the first component of the result tells that the loop
    left through its own condition. *)
Definition DestroyUnreferencedResources : S D E bool :=
  s ← get;
  finished ← unload_unreferenced (Datatypes.S (size (mLoadedResources s)));
  s ← get;
  roots ← destroy_empty_roots (mTransientRoots s);
  modify (fun s => set_mTransientRoots s roots);;
  mret finished.

(** The invariant of the store that the specification states: "every entry in
    the loaded-map is also in the entries-map and has [IsLoaded() == true];
    every entry in entries-map has a unique id". *)
Definition store_wf s : Prop :=
  (forall k p, mLoadedResources s !! k = Some p ->
     p = k /\ exists e r, mResourceEntries s !! k = Some e /\ mpResource e = Some r) /\
  (forall k e, mResourceEntries s !! k = Some e -> mID e = k).

(** How many of the references in [l] are to [j]. *)
Fixpoint held (j : CAssetID) (l : list CAssetID) : Z :=
  match l with
  | [] => 0
  | x :: l' => (if decide (x = j) then 1 else 0) + held j l'
  end.

(** What [DestroyUnreferencedResources] may have made of the store [s0] by
    the time it is [s]: the loaded-map has only lost pairs; an entry still
    loaded has its flags and the references it holds, and no more references
    on it than it had; an entry that was loaded and no longer is has lost its
    payload, and is gone altogether if it was transient; and a payload still
    loaded to which a payload now unloaded held a reference has at least one
    reference fewer than it had. *)
Definition evolves s0 s : Prop :=
  store_wf s /\
  (forall k p, mLoadedResources s !! k = Some p -> mLoadedResources s0 !! k = Some p) /\
  (forall k p e, mLoadedResources s !! k = Some p -> mResourceEntries s !! k = Some e ->
     exists e0 r0 r, mResourceEntries s0 !! k = Some e0 /\ mpResource e0 = Some r0 /\
       mpResource e = Some r /\ mFlags e = mFlags e0 /\
       mReferences r = mReferences r0 /\ mRefCount r <= mRefCount r0) /\
  (forall k p e0, mLoadedResources s0 !! k = Some p -> mResourceEntries s0 !! k = Some e0 ->
     mLoadedResources s !! k = None ->
     match mResourceEntries s !! k with
     | Some e => mpResource e = None /\ IsTransient e0 = false
     | None => True
     end) /\
  (forall k p e0 r0 j q e r,
     mLoadedResources s0 !! k = Some p -> mLoadedResources s !! k = None ->
     mResourceEntries s0 !! k = Some e0 -> mpResource e0 = Some r0 ->
     j ∈ mReferences r0 -> j <> k ->
     mLoadedResources s !! j = Some q -> mResourceEntries s !! j = Some e ->
     mpResource e = Some r ->
     exists e0' r0', mResourceEntries s0 !! j = Some e0' /\ mpResource e0' = Some r0' /\
       mRefCount r <= mRefCount r0' - 1).

(** No payload in the loaded-map is unreferenced. *)
Definition all_referenced s : Prop :=
  forall k p e r, mLoadedResources s !! k = Some p -> mResourceEntries s !! k = Some e ->
    mpResource e = Some r -> IsReferenced r = true.

(** [FindEntry(const TWideString&)] *)
Definition FindEntry_path (rkPath : TWideString) s : option entryptr :=
  match mpDatabaseRoot s with
  | Some root => FindChildResource root rkPath (dirs s)
  | None => None
  end.

Definition TrackLoadedResource (pEntry : entryptr) : S D E unit :=
  e ← deref pEntry;
  ASSERT (IsLoaded e);;
  s ← get;
  ASSERT (bool_decide (mLoadedResources s !! ID e = None));;
  modify (fun s => set_mLoadedResources s (<[ID e := pEntry]> (mLoadedResources s))).

(** Modelled from the spec: [pEntry->LoadCooked(File)] ([CResourceEntry.cpp]
    is not among the sources).  On success the entry holds the payload and has
    registered with the loaded-map of the store; on failure [nullptr] is
    returned and the entry stays unloaded. *)
Definition Entry_LoadCooked (pEntry : entryptr) (Path : TString) : S D E (option CResource) :=
  e ← deref pEntry;
  s ← get;
  match LoadCooked e Path (env s) with
  | Some r =>
      assign pEntry (set_mpResource e (Some r));;
      TrackLoadedResource pEntry;;
      mret (Some r)
  | None => mret None
  end.

(** [LoadResource(const CAssetID&, const CFourCC&)].  The call
    [RegisterTransientResource(Type, mTransientLoadDir, Name.ToUTF16())] has
    no [CAssetID] among its arguments: it is the overload that draws a random
    id. *)
Definition LoadResource (rkID : CAssetID) (rkType : CFourCC) : S D E (option CResource) :=
  if negb (IsValid rkID) then mret None
  else
    s ← get;
    match mLoadedResources s !! rkID with
    | Some Find => e ← deref Find; mret (Resource e)
    | None =>
        match FindEntry rkID s with
        | Some pEntry => Entry_Load pEntry
        | None =>
            let Type_ := TypeForCookedExtension (mGame s) rkType in
            if negb (Type_ =? eInvalidResType) then
              let Name_ := ToString rkID in
              pEntry ← RegisterTransientResource Type_ (mTransientLoadDir s) Name_;
              let Path := mTransientLoadDir s +:+ Name_ +:+ "." +:+ rkType in
              pRes ← Entry_LoadCooked pEntry Path;
              match pRes with
              | None => DeleteResourceEntry pEntry;; mret tt
              | Some _ => mret tt
              end;;
              mret pRes
            else
              modify (fun s => Log_Error s "Can't load requested resource with ID");;
              mret None
        end
    end.

(** [LoadResource(const TWideString&)] *)
Definition LoadResource_path (rkPath : TWideString) : S D E (option CResource) :=
  if negb (IsAbsolute rkPath) then
    s ← get;
    match FindEntry_path rkPath s with
    | Some pEntry =>
        e ← deref pEntry;
        let Ext := GetFileExtension rkPath in
        (if negb (String.eqb Ext "") then
           if Z.of_nat (String.length Ext) =? 4
           then ASSERT (CaseInsensitiveCompare Ext (CookedExtension e))
           else ASSERT (CaseInsensitiveCompare Ext (RawExtension e))
         else mret tt);;
        Entry_Load pEntry
    | None => mret None
    end
  else
    let Dir := MakeAbsolute (GetFileDirectory rkPath) in
    let Name_ := GetFileName rkPath false in
    let ID_ := if IsHexString Name_ then ToInt64 Name_ else Hash64 rkPath in
    s ← get;
    match mLoadedResources s !! ID_ with
    | Some Find => e ← deref Find; mret (Resource e)
    | None =>
        let PathUTF8 := rkPath in
        let Extension := ToUpper (GetFileExtension PathUTF8) in
        let Type_ := TypeForCookedExtension (mGame s) Extension in
        if Type_ =? eInvalidResType then
          modify (fun s => Log_Error s "Unable to load resource; unrecognized extension");;
          mret None
        else if negb (FileIsValid PathUTF8 (env s)) then
          modify (fun s => Log_Error s "Unable to load resource; couldn't open file: ");;
          mret None
        else
          let OldTransientDir := mTransientLoadDir s in
          modify (fun s => set_mTransientLoadDir s Dir);;
          pEntry ← RegisterTransientResource_ID Type_ ID_ Dir Name_;
          pRes ← Entry_LoadCooked pEntry PathUTF8;
          match pRes with
          | None => DeleteResourceEntry pEntry;; mret tt
          | Some _ => mret tt
          end;;
          modify (fun s => set_mTransientLoadDir s OldTransientDir);;
          mret pRes
    end.



(** What the [for] loop of [LoadCacheFile] does with the record of [ID_]
    once its header is read, the stream standing at [pos]: from [FindEntry] to
    [Reader.ParamEnd()].  The reader leaves the stream wherever it stopped
    reading; the loop does not look at that offset, it seeks. *)
Definition LoadEntryCache (CacheFile : F) (Version : CSerialVersion)
    (ID_ : CAssetID) (pos : Z) : S D E unit :=
  s ← get;
  match FindEntry ID_ s with
  | Some pEntry =>
      e ← deref pEntry;
      if negb (IsTransient e) then
        let '(entered, pos) := ReaderParamBegin CacheFile Version pos in
        if entered : bool
        then assign pEntry (SerializeCacheData e CacheFile Version pos)
        else mret tt
      else mret tt
  | None => mret tt
  end.

(** The body of the [for] loop of [LoadCacheFile] for the record at [pos]; it
    returns the offset the stream is left at, which is where [Seek] puts it. *)
Definition LoadCacheFile_record (CacheFile : F) (Version : CSerialVersion) (pos : Z) : S D E Z :=
  let '(ID_, pos) := ReadAssetID (sv_Game Version) CacheFile pos in
  let '(EntryCacheSize, pos) := ReadLong CacheFile pos in
  let EntryCacheEnd := (pos + EntryCacheSize) mod 2^32 in
  LoadEntryCache CacheFile Version ID_ pos;;
  mret EntryCacheEnd.

Fixpoint LoadCacheFile_loop (CacheFile : F) (Version : CSerialVersion)
    (NumResources : nat) (pos : Z) : S D E Z :=
  match NumResources with
  | O => mret pos
  | Datatypes.S n =>
      pos' ← LoadCacheFile_record CacheFile Version pos;
      LoadCacheFile_loop CacheFile Version n pos'
  end.

Definition LoadCacheFile : S D E bool :=
  s ← get;
  match OpenCacheFileIn (env s) with
  | None =>
      modify (fun s => Log_Error s "Failed to open cache file for load: ");;
      mret false
  | Some CacheFile =>
      let '(Magic, pos) := ReadFourCC CacheFile 0 in
      if negb (String.eqb Magic "CACH") then
        modify (fun s => Log_Error s "Invalid resource cache data magic: ");;
        mret false
      else
        let '(Version, pos) := ReadSerialVersion CacheFile pos in
        let '(NumResources, pos) := ReadLong CacheFile pos in
        LoadCacheFile_loop CacheFile Version (Z.to_nat NumResources) pos;;
        mret true
  end.

(** The records of a cache file after its header, as the specification lays
    them out, [count × [id][u32 length][payload]]: the id, the offset of the
    payload and its length, each record starting where the payload of the one
    before ends. *)
Fixpoint cache_records (CacheFile : F) (Game : EGame) (count : nat) (pos : Z)
    : list (CAssetID * Z * Z) :=
  match count with
  | O => []
  | Datatypes.S n =>
      let '(id, p1) := ReadAssetID Game CacheFile pos in
      let '(len, p2) := ReadLong CacheFile p1 in
      (id, p2, len) :: cache_records CacheFile Game n (p2 + len)
  end.

Fixpoint for_each {A} (f : A -> S D E unit) (l : list A) : S D E unit :=
  match l with
  | [] => mret tt
  | x :: l' => f x;; for_each f l'
  end.




End ResourceStore.

End Store.

(** * Fixtures: small concrete archives on which the statements are run *)

Module Fixture.
Import Archive.
Local Open Scope Z_scope.

(** The world of the fixture: the answer [ParamBegin] gives, and the names of
    the entries begun so far, in order (the document). *)
Definition World : Type := bool * list string.

(** [ParamBegin] records the name it is given; the pointer hook accepts and
    leaves the pointer alone. *)
#[export] Instance backend : Backend World := {|
  ParamBegin := fun name _ w => (fst w, (fst w, snd w ++ [name]));
  ParamEnd := fun w => w;
  PreSerializePointer := fun p _ w => (true, p, w);
|}.

#[export] Instance platform : Platform := {|
  DEBUG := true;
  u32_hash := 32;
  local_Type_addr := 1000;
  indeterminate_u32 := 0;
|}.

#[export] Instance u32_primitive : Primitive World Z := {|
  SerializePrimitive := fun v _ w => (v, w);
  load := fun _ _ => 0;
  store := fun _ _ w => w;
|}.

#[export] Instance u32_traits : SerialTraits Z := u32_SerialTraits.

(** A polymorphic pointee class; [new] hands out the address 4096. *)
#[export] Instance pointer : PointerTraits World := {|
  ptr_type_hash := 64;
  ptr_type_size := 8;
  pointee_is_polymorphic := true;
  new_ValType := fun w => (4096, w);
|}.

(** Objects whose [Serialize] leaves the archive alone. *)
#[export] Instance object : Serializable World unit := {|
  Serialize := fun v => ret v;
  Serialize_at := fun _ => ret tt;
|}.

(** Every object is of type 5. *)
#[export] Instance abstract : Abstract World Z := {|
  ObjType := fun _ _ => 5;
  ObjectType_zero := 0;
|}.

#[export] Instance factory : Factory World Z := {|
  Constructor := Basic (fun _ w => (Some 8192, w));
|}.

Definition archive (flags version : Z) (answer : bool) : IArchive World :=
  mkArchive version 0 0 flags [] (answer, []).

(** A pointer field named "Obj". *)
Definition Obj (p : ptr) : TSerialParameter ptr := mkParam "Obj" p 500 0 None.

(** The field [FileVer] of [SerializeVersion]: an optional attribute with
    default 0, holding 0. *)
Definition FileVer : TSerialParameter Z :=
  SerialParameter "FileVer" 0 100 (Z.lor SH_Attribute SH_Optional) 0.

(** Three frames: a [u32] at 200 under a pointer at 300 under the [u32] at
    400 that is being serialized. *)
Definition three_frames : IArchive World :=
  set_stack (archive AF_Reader 2 true)
    [SParmStackEntry.mk 32 4 200 0; SParmStackEntry.mk 64 8 300 0;
     SParmStackEntry.mk 32 4 400 0].

End Fixture.

(** * Fixtures: a small concrete store *)

Module StoreFixture.
Import Store.
Local Open Scope Z_scope.

(** Files are lists of bytes; the environment is the next id the random
    source hands out and the cache file on disk. *)
Definition File : Type := list Z.
Definition Env : Type := Z * File.

Definition byte_at (f : File) (pos : Z) : Z := nth (Z.to_nat pos) f 0.

(** A big-endian [u32]. *)
Definition be32 (f : File) (pos : Z) : Z :=
  byte_at f pos * 2^24 + byte_at f (pos + 1) * 2^16 + byte_at f (pos + 2) * 2^8
  + byte_at f (pos + 3).

Definition char_at (f : File) (pos : Z) : string :=
  String (Ascii.ascii_of_nat (Z.to_nat (byte_at f pos))) EmptyString.

Fixpoint has_char (c : Ascii.ascii) (s : string) : bool :=
  match s with
  | EmptyString => false
  | String c' s' => if Ascii.eqb c c' then true else has_char c s'
  end.

#[export] Instance collaborators : Collaborators unit Env File := {|
  IsValid := fun id => negb (id =? 0xFFFFFFFF);
  RandomID := fun en => (en.1, (en.1 + 1, en.2));
  ToString := fun _ => "id";
  eInvalidResType := -1;
  TypeForCookedExtension := fun _ ext => if String.eqb ext "TXTR" then 1 else -1;
  IsValidDirectoryPath := fun _ => true;
  IsEmpty := fun _ _ => false;
  RemoveChildResource := fun _ _ d => d;
  delete_directory := fun _ d => d;
  FindChildResource := fun _ _ _ => None;
  IsValidName := fun n _ => negb (String.eqb n "");
  Contains := fun s c => match c with
                         | String ch EmptyString => has_char ch s
                         | _ => false
                         end;
  IsAbsolute := fun p => match p with
                         | String c _ => Ascii.eqb c (Ascii.ascii_of_nat 47)
                         | EmptyString => false
                         end;
  MakeAbsolute := fun p => p;
  GetFileDirectory := fun _ => "/";
  GetFileName := fun p _ => p;
  GetFileExtension := fun _ => "TXTR";
  ToUpper := fun e => e;
  IsHexString := fun _ => false;
  ToInt64 := fun _ => 0;
  Hash64 := fun _ => 77;
  CaseInsensitiveCompare := String.eqb;
  CookedExtension := fun _ => "TXTR";
  RawExtension := fun _ => "txtr";
  link_directory := fun _ _ _ x => (None, x);
  AddToProject := fun _ rkName pEntry s =>
    set_mResourceEntries s
      (alter (fun e => mkEntry (mpResource e) (mID e) (mType e) (mpDirectory e) rkName
                         (Z.land (mFlags e) (Z.lnot eREF_Transient)))
         pEntry (mResourceEntries s));
  LoadCooked := fun _ _ _ => None;
  Entry_Load := fun _ => ret None;
  FileIsValid := fun _ _ => true;
  OpenCacheFileIn := fun en => Some en.2;
  ReadFourCC := fun f pos =>
    (char_at f pos +:+ char_at f (pos + 1) +:+ char_at f (pos + 2) +:+ char_at f (pos + 3),
     pos + 4);
  ReadSerialVersion := fun f pos =>
    (mkSerialVersion (byte_at f pos * 2^8 + byte_at f (pos + 1))
       (byte_at f (pos + 2) * 2^8 + byte_at f (pos + 3)) (be32 f (pos + 4)),
     pos + 8);
  ReadLong := fun f pos => (be32 f pos, pos + 4);
  ReadAssetID := fun _ f pos => (be32 f pos, pos + 4);
  ReaderParamBegin := fun _ _ pos => (true, pos);
  SerializeCacheData := fun e f _ pos =>
    mkEntry (mpResource e) (mID e) (mType e) (mpDirectory e) (mName e) (byte_at f pos);
  SaveXML := fun _ _ _ en => (true, en);
  CacheFileOutIsValid := fun _ => true;
  CachePayload := fun _ => [];
  WriteCacheFile := fun _ _ _ en => en;
|}.

(** A cache file with two records: one of two bytes for the id 9, one of one
    byte (the flag [eREF_HasThumbnail]) for the id 7. *)
Definition cache_file : File :=
  [67; 65; 67; 72;  0; 0; 0; 0; 0; 0; 0; 1;  0; 0; 0; 2;
   0; 0; 0; 9;  0; 0; 0; 2;  170; 187;
   0; 0; 0; 7;  0; 0; 0; 1;  4].

Definition store (entries : gmap Z CResourceEntry) (loaded : gmap Z Z)
    : CResourceStore unit Env :=
  mkStore 1 None [] entries loaded "raw" "cooked" "/tmp/" false false tt (100, cache_file) [].

(** The entry 7, registered in the project and not loaded. *)
Definition hero : CResourceEntry := mkEntry None 7 1 None "hero" 0.

(** The entries 1 and 2, both loaded: the payload of 2 holds the one reference
    there is on the payload of 1, and nothing refers to the payload of 2.  The
    entry 2 is transient. *)
Definition A_entry : CResourceEntry :=
  mkEntry (Some (mkResource 1 [])) 1 1 None "A" 0.
Definition B_entry : CResourceEntry :=
  mkEntry (Some (mkResource 0 [1])) 2 1 None "B" eREF_Transient.

Definition chain : CResourceStore unit Env :=
  store (<[1 := A_entry]> (<[2 := B_entry]> ∅)) (<[1 := 1]> (<[2 := 2]> ∅)).

(** The project store: the entry 7 registered, nothing loaded. *)
Definition project : CResourceStore unit Env := store (<[7 := hero]> ∅) ∅.


(** A store that holds an entry under the id 100, the id the random source
    hands out next. *)
Definition held_entry : CResourceEntry := mkEntry None 100 1 None "held" 0.
Definition crowded : CResourceStore unit Env := store (<[100 := held_entry]> ∅) ∅.

End StoreFixture.

(** * What the sources name and do not contain *)

Module Game.

(** [eUnknownGame] of [Common/EGame.h], which is not among the sources. *)
Class GameConstants := {
  eUnknownGame : Z;
}.

End Game.

(** * Part II, continued: more of [CResourceStore.cpp] *)

Module StoreMore.
Import Store Game.
Local Open Scope Z_scope.

(** [struct SDatabaseResource] as a reader fills it in: [pType] is a
    [CResTypeInfo*] read from the document, held here as the [Type()] of what
    it points to, and [Directory] is the path read. *)
Record SDatabaseResource_read := mkDatabaseResource_read {
  rd_ID : CAssetID;
  rd_pType : option EResType;
  rd_Directory : TWideString;
  rd_Name : TWideString;
}.

Section ResourceStoreMore.
Context {D E F : Type} `{!Collaborators D E F} `{!GameConstants}.
Implicit Type s : CResourceStore D E.

Definition set_mGame s (x : EGame) : CResourceStore D E :=
  mkStore x (mpDatabaseRoot s) (mTransientRoots s) (mResourceEntries s) (mLoadedResources s)
    (mRawDir s) (mCookedDir s) (mTransientLoadDir s) (mDatabaseDirty s) (mCacheFileDirty s)
    (dirs s) (env s) (errors s).
Definition set_mpDatabaseRoot s (x : option dirptr) : CResourceStore D E :=
  mkStore (mGame s) x (mTransientRoots s) (mResourceEntries s) (mLoadedResources s)
    (mRawDir s) (mCookedDir s) (mTransientLoadDir s) (mDatabaseDirty s) (mCacheFileDirty s)
    (dirs s) (env s) (errors s).

(** The loop "Register resources" that ends [SerializeResourceDatabase] on a
    reader: [RegisterResource(rRes.ID, rRes.pType->Type(), rRes.Directory,
    rRes.Name)] for every record read, the value returned dropped. *)
Fixpoint RegisterResources (Resources : list SDatabaseResource_read) : S D E unit :=
  match Resources with
  | [] => mret tt
  | rRes :: Iter =>
      match rd_pType rRes with
      | Some Type_ =>
          RegisterResource (rd_ID rRes) Type_ (rd_Directory rRes) (rd_Name rRes);;
          RegisterResources Iter
      | None => undefined
      end
  end.

(** The loop "Delete all entries from old project" of [CloseProject] over the
    pairs the iterator has still to visit: the pair of an entry that is not
    transient is erased, which leaves the pairs after it in place.  What the
    destructor of [CResourceEntry] does ([CResourceEntry.cpp] is not among
    the sources) is left out. *)
Fixpoint delete_project_entries (It : list (CAssetID * CResourceEntry)) : S D E unit :=
  match It with
  | [] => mret tt
  | (key, pEntry) :: It' =>
      (if negb (IsTransient pEntry)
       then modify (fun s => set_mResourceEntries s (delete key (mResourceEntries s)))
       else mret tt);;
      delete_project_entries It'
  end.

(** [CloseProject].  [Log::Write], which lists the resources still loaded,
    is not recorded; [mpProj] is not part of the model. *)
Definition CloseProject : S D E unit :=
  DestroyUnreferencedResources;;
  s ← get;
  (if negb (Nat.eqb (size (mLoadedResources s)) 0) then
     modify (fun s => Log_Error s " resources still loaded on project close:");;
     ASSERT false
   else mret tt);;
  s ← get;
  delete_project_entries (in_order (mResourceEntries s));;
  s ← get;
  match mpDatabaseRoot s with
  | Some root => modify (fun s => set_dirs s (delete_directory root (dirs s)))
  | None => mret tt
  end;;
  modify (fun s => set_mGame (set_mpDatabaseRoot s None) eUnknownGame).

(** No entry of the store is transient. *)
Definition no_transient s : Prop :=
  forall k e, mResourceEntries s !! k = Some e -> IsTransient e = false.

(** The record of [Resources] that comes to be registered under the id [k]
    when [k] is free: the first one with that id and a path that
    [IsValidResourcePath] accepts. *)
Definition first_record (k : CAssetID) (Resources : list SDatabaseResource_read)
    : option SDatabaseResource_read :=
  List.find (fun rRes => (rd_ID rRes =? k)
                         && IsValidResourcePath (rd_Directory rRes) (rd_Name rRes))
            Resources.

(** What [LoadCacheFile] may make of the store [s]: the loaded-map and the
    log are what they were, the entries are stored under the same ids, and
    the transient entries and those under an id that is not valid are the
    same entries. *)
Definition cache_frame s s' : Prop :=
  mLoadedResources s' = mLoadedResources s /\
  errors s' = errors s /\
  (forall k, is_Some (mResourceEntries s' !! k) <-> is_Some (mResourceEntries s !! k)) /\
  (forall k e, mResourceEntries s !! k = Some e -> IsTransient e = true ->
     mResourceEntries s' !! k = Some e) /\
  (forall k, IsValid k = false -> mResourceEntries s' !! k = mResourceEntries s !! k).

End ResourceStoreMore.

End StoreMore.

(** * Part III: [CEnumProperty.h] *)

Module EnumProperty.
Local Open Scope Z_scope.

(** The conversion to [uint32]. *)
Definition uint32 (z : Z) : Z := z mod 2^32.

(** [struct SEnumValue] *)
Record SEnumValue := mkEnumValue {
  Name : string;
  ID : Z;
}.

(** [AddValue] *)
Definition AddValue (mValues : list SEnumValue) (ValueName : string) (ValueID : Z)
    : list SEnumValue :=
  mValues ++ [mkEnumValue ValueName ValueID].

(** [NumPossibleValues]: the [size_t] size returned as a [uint32]. *)
Definition NumPossibleValues (mValues : list SEnumValue) : Z :=
  uint32 (Z.of_nat (length mValues)).

(** The [for] loop of [ValueIndex], at most [turns] times over, from the
    index [ValueIdx] on.  The index is a [uint32] and the size a [size_t]:
    the increment wraps around at 2^32. *)
Fixpoint ValueIndex_loop (turns : nat) (mValues : list SEnumValue) (ID_ : Z) (ValueIdx : Z)
    : option Z :=
  match turns with
  | O => None
  | S turns' =>
      if ValueIdx <? Z.of_nat (length mValues) then
        match mValues !! Z.to_nat ValueIdx with
        | Some v =>
            if ID v =? ID_ then Some ValueIdx
            else ValueIndex_loop turns' mValues ID_ (uint32 (ValueIdx + 1))
        | None => None
        end
      else Some (uint32 (-1))
  end.

(** [ValueIndex].  A loop that has not returned after one turn more than
    the vector has elements has wrapped around and never returns: [None]. *)
Definition ValueIndex (mValues : list SEnumValue) (ID_ : Z) : option Z :=
  ValueIndex_loop (S (length mValues)) mValues ID_ 0.

(** [ValueID] and [ValueName] *)
Definition ValueID (mValues : list SEnumValue) (Index : Z) : result Z :=
  if (0 <=? Index) && (Index <? Z.of_nat (length mValues)) then
    match mValues !! Z.to_nat Index with
    | Some v => Ok (ID v)
    | None => Undefined
    end
  else AssertFail.

Definition ValueName (mValues : list SEnumValue) (Index : Z) : result string :=
  if (0 <=? Index) && (Index <? Z.of_nat (length mValues)) then
    match mValues !! Z.to_nat Index with
    | Some v => Ok (Name v)
    | None => Undefined
    end
  else AssertFail.

(** [HasValidValue], on the [int32] the property data holds: [int ID] is
    converted to the [uint32] parameter of [ValueIndex]. *)
Definition HasValidValue (mValues : list SEnumValue) (Value : Z) : option bool :=
  match mValues with
  | [] => Some true
  | _ =>
      let ID_ := Value in
      Index ← ValueIndex mValues (uint32 ID_);
      Some ((0 <=? Index) && (Index <? Z.of_nat (length mValues)))
  end.

End EnumProperty.

(** * Part I, continued: [SerializeVersion], [SerializeArraySize], the containers *)

Module Containers.
Import Archive Game.
Local Open Scope Z_scope.

(** The [operator<<] overload that the compiler selects for a value type. *)
Class Streamable (W V : Type) := {
  operator_shl : TSerialParameter V -> M W (TSerialParameter V);
}.

(** How an object of type [V] starts: [V()], value-initialised, and
    [V Val;], default-initialised (for a scalar type, whatever the memory
    holds). *)
Class Constructible (V : Type) := {
  ValType_zero : V;
  default_init : V;
}.

(** What the build and the compiler fix for the functions below: the
    addresses of the automatic variables [Size], [Val] and [Key] and of the
    three version fields of the archive, and the [typeid] hashes of [u16] and
    of [EGame]. *)
Class Layout := {
  local_Size_addr : addr;
  local_Val_addr : addr;
  local_Key_addr : addr;
  mArchiveVersion_addr : addr;
  mFileVersion_addr : addr;
  mGame_addr : addr;
  u16_hash : Z;
  EGame_hash : Z;
}.

Definition u16_SerialTraits `{Layout} : SerialTraits Z := {|
  type_hash := u16_hash;
  type_size := 2;
  SUPPORTS_DEFAULT_VALUES := true;
  equal_to := Z.eqb;
  is_polymorphic_v := false;
|}.

Definition EGame_SerialTraits `{Layout} : SerialTraits Z := {|
  type_hash := EGame_hash;
  type_size := 4;
  SUPPORTS_DEFAULT_VALUES := true;
  equal_to := Z.eqb;
  is_polymorphic_v := false;
|}.

(** [SerializePrimitive(u16&, u32)], and the global
    [Serialize(IArchive&, EGame&)] that [Common/EGame.h] declares. *)
Class VersionBackend (W : Type) := {
  u16_Primitive : Primitive W Z;
  EGame_Serializable : Serializable W Z;
}.

(** The virtual [SerializeArraySize], which a derived archive may override. *)
Class ArraySize (W : Type) := {
  SerializeArraySize : Z -> M W Z;
}.

Definition set_mArchiveVersion {W} (arc : IArchive W) (x : Z) : IArchive W :=
  mkArchive x (mFileVersion arc) (mGame arc) (mArchiveFlags arc) (mParmStack arc) (world arc).
Definition set_mFileVersion {W} (arc : IArchive W) (x : Z) : IArchive W :=
  mkArchive (mArchiveVersion arc) x (mGame arc) (mArchiveFlags arc) (mParmStack arc) (world arc).
Definition set_mGame {W} (arc : IArchive W) (x : Z) : IArchive W :=
  mkArchive (mArchiveVersion arc) (mFileVersion arc) x (mArchiveFlags arc) (mParmStack arc)
            (world arc).

Section Versions.
Context {W : Type} `{!Backend W} `{!Platform} `{!Layout} `{!GameConstants}.

(** The three parameters of [SerializeVersion], on the values the fields
    hold. *)
Definition ArchiveVer_parameter (v : Z) : TSerialParameter Z :=
  SerialParameter (ST := u16_SerialTraits) "ArchiveVer" v mArchiveVersion_addr SH_Attribute 0.
Definition FileVer_parameter (v : Z) : TSerialParameter Z :=
  SerialParameter (ST := u16_SerialTraits)
    "FileVer" v mFileVersion_addr (Z.lor SH_Attribute SH_Optional) 0.
Definition Game_parameter (v : Z) : TSerialParameter Z :=
  SerialParameter (ST := EGame_SerialTraits)
    "Game" v mGame_addr (Z.lor SH_Attribute SH_Optional) eUnknownGame.

(** [SerializeVersion].  The three parameters refer to the fields of the
    archive itself: what an operator leaves in its parameter is what the
    field holds when the next one runs. *)
Definition SerializeVersion `{!VersionBackend W} : M W unit :=
  arc ← get;
  prm ← @operator_shl_Primitive W _ _ Z u16_SerialTraits u16_Primitive
          (ArchiveVer_parameter (mArchiveVersion arc));
  modify (fun arc => set_mArchiveVersion arc (rValue prm));;
  arc ← get;
  prm ← @operator_shl_Primitive W _ _ Z u16_SerialTraits u16_Primitive
          (FileVer_parameter (mFileVersion arc));
  modify (fun arc => set_mFileVersion arc (rValue prm));;
  arc ← get;
  prm ← @operator_shl_Global W _ _ Z EGame_SerialTraits EGame_Serializable
          (Game_parameter (mGame arc));
  modify (fun arc => set_mGame arc (rValue prm)).

(** The default [SerializeArraySize] of [IArchive]: "just stores size as an
    attribute property". *)
Definition IArchive_SerializeArraySize `{!Primitive W Z} (Value : Z) : M W Z :=
  prm ← operator_shl_Primitive (ST := u32_SerialTraits)
          (SerialParameter (ST := u32_SerialTraits) "Size" Value local_Size_addr SH_Attribute 0);
  mret (rValue prm).

Definition default_ArraySize `{!Primitive W Z} : ArraySize W := {|
  SerializeArraySize := IArchive_SerializeArraySize;
|}.

End Versions.

Section Vector.
Context {W : Type} `{!Backend W} `{!Platform} `{!Layout} `{!ArraySize W}.
Context {T : Type} {ST : SerialTraits T} `{!Streamable W T} `{!Constructible T}.

(** [std::vector::resize]: the first [Size] elements, and value-initialised
    elements to make up the number. *)
Definition resize (Size : nat) (Vector : list T) : list T :=
  take Size Vector ++ replicate (Size - length Vector) ValType_zero.

(** The element "Item" of a container, at an address. *)
Definition Item_parameter (x : T) (a : addr) : TSerialParameter T :=
  SerialParameter "Item" x a SH_IgnoreName ValType_zero.

(** The loop [for (u32 i = 0; i < Size; i++)] of the vector, with [turns] for
    [Size - i]; [data] is [Vector.data()].  Reading [Vector[i]] past the end
    of the vector has no meaning. *)
Fixpoint vector_items (data : addr) (turns : nat) (i : Z) (Vector : list T) : M W (list T) :=
  match turns with
  | O => mret Vector
  | S turns' =>
      match Vector !! Z.to_nat i with
      | Some x =>
          prm ← operator_shl (Item_parameter x (data + i * type_size T));
          vector_items data turns' (i + 1) (<[Z.to_nat i := rValue prm]> Vector)
      | None => undefined
      end
  end.

(** [Serialize(IArchive&, std::vector<T>&)] *)
Definition Serialize_vector (data : addr) (Vector : list T) : M W (list T) :=
  let Size := Z.of_nat (length Vector) mod 2^32 in
  Size ← SerializeArraySize Size;
  arc ← get;
  let Vector := if IsReader arc then resize (Z.to_nat Size) Vector else Vector in
  vector_items data (Z.to_nat Size) 0 Vector.

End Vector.

Section SetAndMap.
Context {W : Type} `{!Backend W} `{!Platform} `{!Layout} `{!ArraySize W}.

(** The order a [std::set] or a [std::map] is walked in: that of
    [operator<] on the keys. *)
Definition not_greater {K} (less : K -> K -> bool) (x y : K) : Prop := less y x = false.

#[global] Instance not_greater_dec {K} (less : K -> K -> bool) (x y : K)
    : Decision (not_greater less x y) :=
  bool_eq_dec (less y x) false.

Section Set_.
Context {T : Type} `{Countable T} {ST : SerialTraits T} `{!Streamable W T} `{!Constructible T}.
Variable less : T -> T -> bool.

(** The loop of a reader: [Size] times, a fresh [T Val] is serialized and
    inserted. *)
Fixpoint set_read (turns : nat) (Set_ : gset T) : M W (gset T) :=
  match turns with
  | O => mret Set_
  | S turns' =>
      prm ← operator_shl (SerialParameter "Item" default_init local_Val_addr SH_IgnoreName
                            ValType_zero);
      set_read turns' ({[ rValue prm ]} ∪ Set_)
  end.

(** The loop of any other archive: a copy of every element is serialized. *)
Fixpoint set_write (Iter : list T) : M W unit :=
  match Iter with
  | [] => mret tt
  | Val :: Iter' =>
      operator_shl (SerialParameter "Item" Val local_Val_addr SH_IgnoreName ValType_zero);;
      set_write Iter'
  end.

(** [Serialize(IArchive&, std::set<T>&)] *)
Definition Serialize_set (Set_ : gset T) : M W (gset T) :=
  Size ← SerializeArraySize (Z.of_nat (size Set_) mod 2^32);
  arc ← get;
  if IsReader arc then set_read (Z.to_nat Size) Set_
  else set_write (merge_sort (not_greater less) (elements Set_));; mret Set_.

End Set_.

Section Map_.
Context {KeyType : Type} `{Countable KeyType} {ValType : Type}.
Context {STK : SerialTraits KeyType} {STV : SerialTraits ValType}.
Context `{!Streamable W KeyType} `{!Streamable W ValType}.
Context `{!Constructible KeyType} `{!Constructible ValType}.
Variable less : KeyType -> KeyType -> bool.

Definition Key_parameter (Key : KeyType) : TSerialParameter KeyType :=
  SerialParameter "Key" Key local_Key_addr SH_IgnoreName ValType_zero.
Definition Value_parameter (Val : ValType) : TSerialParameter ValType :=
  SerialParameter "Value" Val local_Val_addr SH_IgnoreName ValType_zero.

(** The loop of a reader.  [ParamBegin("Item", SH_IgnoreName)] is called on
    the archive directly: no frame is pushed for the item. *)
Fixpoint map_read (turns : nat) (Map : gmap KeyType ValType) : M W (gmap KeyType ValType) :=
  match turns with
  | O => mret Map
  | S turns' =>
      entered ← callParamBegin "Item" SH_IgnoreName;
      Map' ← (if entered : bool then
                Key ← operator_shl (Key_parameter default_init);
                Val ← operator_shl (Value_parameter default_init);
                ASSERT (match Map !! rValue Key with None => true | Some _ => false end);;
                callParamEnd;;
                mret (<[rValue Key := rValue Val]> Map)
              else mret Map);
      map_read turns' Map'
  end.

(** The loop of any other archive, over copies of the pairs. *)
Fixpoint map_write (Iter : list (KeyType * ValType)) : M W unit :=
  match Iter with
  | [] => mret tt
  | (Key, Val) :: Iter' =>
      entered ← callParamBegin "Item" SH_IgnoreName;
      (if entered : bool then
         operator_shl (Key_parameter Key);;
         operator_shl (Value_parameter Val);;
         callParamEnd
       else mret tt);;
      map_write Iter'
  end.

(** [SerializeMap_Internal], for [std::map]. *)
Definition SerializeMap_Internal (Map : gmap KeyType ValType) : M W (gmap KeyType ValType) :=
  Size ← SerializeArraySize (Z.of_nat (size Map) mod 2^32);
  arc ← get;
  if IsReader arc then map_read (Z.to_nat Size) Map
  else
    map_write (merge_sort (fun x y => not_greater less x.1 y.1) (map_to_list Map));;
    mret Map.

End Map_.

End SetAndMap.

End Containers.

(** * Part IV: [CStringLoader.cpp] *)

Module StringLoader.
Local Open Scope Z_scope.

(** The conversion to [uint32]. *)
Definition uint32 (z : Z) : Z := z mod 2^32.

(** [SEEK_SET] and [SEEK_CUR] *)
Inductive SeekOrigin := SEEK_SET | SEEK_CUR.

(** The abstract class [IInputStream] (FileIO is not among the sources), on
    the state [St] of a stream.  A read returns the value and the stream
    after it; [ReadFourCC] is the constructor [CFourCC(IInputStream&)]. *)
Class IInputStream (St : Type) := {
  IsValid : St -> bool;
  ReadLong : St -> Z * St;
  ReadShort : St -> Z * St;
  ReadString : St -> string * St;
  ReadFourCC : St -> string * St;
  Seek : Z -> SeekOrigin -> St -> St;
  Tell : St -> Z;
  EoF : St -> bool;
  Size : St -> Z;
}.

(** The enumerators of [EGame] that the loader names ([Common/EGame.h] is not
    among the sources). *)
Class Games := {
  Invalid : Z;
  PrimeDemo : Z;
  Prime : Z;
  Echoes : Z;
  Corruption : Z;
}.

(** [CStringTable::SLangTable] and the members of [CStringTable] that the
    loader writes. *)
Record SLangTable := mkLangTable {
  Language : string;
  Strings : list string;
}.

Record CStringTable := mkStringTable {
  mNumStrings : Z;
  mLangTables : list SLangTable;
  mStringNames : list string;
}.

(** [new CStringTable(pEntry)]: the table a loader starts from
    ([CStringTable.h] is not among the sources). *)
Class Tables := {
  new_CStringTable : CStringTable;
}.

(** [class CStringLoader] at work: its two members, the stream it reads and
    what was passed to [errorf]. *)
Record CStringLoader (St : Type) := mkLoader {
  mpStringTable : CStringTable;
  mVersion : Z;
  rSTRG : St;
  errors : list string;
}.
Arguments mkLoader {St}.
Arguments mpStringTable {St}.
Arguments mVersion {St}.
Arguments rSTRG {St}.
Arguments errors {St}.

(** [struct SNameDef] of [LoadNameTable] *)
Record SNameDef := mkNameDef {
  NameOffset : Z;
  StringIndex : Z;
}.

(** [std::vector::resize] with the value new elements start from. *)
Definition resize {A} (zero : A) (n : nat) (v : list A) : list A :=
  take n v ++ replicate (n - length v) zero.

(** [v[i] = x] on a vector: an index past the end has no meaning. *)
Definition assign_at {A St'} (i : Z) (x : A) (v : list A) : StateErr St' (list A) :=
  if (0 <=? i) && (i <? Z.of_nat (length v))
  then mret (<[Z.to_nat i := x]> v)
  else undefined.

(** What a call of the loader comes to: an outcome of [result], or the
    exception [std::bad_alloc], which [std::vector::resize] and the
    constructor of a vector throw when the machine has no memory for the
    elements asked for.  Nothing in [CStringLoader.cpp] catches it, so it
    leaves the loader, and [LoadSTRG] with it. *)
Inductive outcome (A : Type) : Type :=
  | Returned (r : result A)
  | bad_alloc.
Arguments Returned {A} r.
Arguments bad_alloc {A}.

(** The memory of the machine ([operator new] is not the loader's): whether
    it has room for a vector of [n] elements while the string table is
    [t]. *)
Class Memory := {
  allocates : CStringTable -> Z -> bool;
}.

(** The state-and-error monad with the exception. *)
Definition Throwing (St' A : Type) : Type := St' -> outcome (A * St').

#[global] Instance Throwing_ret {St'} : MRet (Throwing St') :=
  fun A a s => Returned (Ok (a, s)).
#[global] Instance Throwing_bind {St'} : MBind (Throwing St') :=
  fun A B k m s =>
    match m s with
    | Returned (Ok (a, s')) => k a s'
    | Returned AssertFail => Returned AssertFail
    | Returned Undefined => Returned Undefined
    | bad_alloc => bad_alloc
    end.

(** A call that throws nothing. *)
Definition nothrow {St' A} (m : StateErr St' A) : Throwing St' A :=
  fun s => Returned (m s).

Section Loader.
Context {St : Type} `{!IInputStream St} `{!Games} `{!Tables} `{!Memory}.

Abbreviation L := (StateErr (CStringLoader St)).
Abbreviation LX := (Throwing (CStringLoader St)).

(** [v.resize(n)]: a vector that has [n] elements already asks for no
    memory. *)
Definition resize_vector {A} (zero : A) (n : Z) (v : list A) : LX (list A) :=
  fun l =>
    if (n <=? Z.of_nat (length v)) || allocates (mpStringTable l) n
    then Returned (Ok (resize zero (Z.to_nat n) v, l))
    else bad_alloc.

(** [std::vector<T> v(n)]: no element, no memory. *)
Definition new_vector {A} (zero : A) (n : Z) : LX (list A) :=
  fun l =>
    if (n =? 0) || allocates (mpStringTable l) n
    then Returned (Ok (replicate (Z.to_nat n) zero, l))
    else bad_alloc.

Definition set_rSTRG (l : CStringLoader St) (s : St) : CStringLoader St :=
  mkLoader (mpStringTable l) (mVersion l) s (errors l).
Definition set_table (l : CStringLoader St) (t : CStringTable) : CStringLoader St :=
  mkLoader t (mVersion l) (rSTRG l) (errors l).

Definition set_mNumStrings (t : CStringTable) (n : Z) : CStringTable :=
  mkStringTable n (mLangTables t) (mStringNames t).
Definition set_mLangTables (t : CStringTable) (x : list SLangTable) : CStringTable :=
  mkStringTable (mNumStrings t) x (mStringNames t).
Definition set_mStringNames (t : CStringTable) (x : list string) : CStringTable :=
  mkStringTable (mNumStrings t) (mLangTables t) x.

(** The calls on the stream, lifted to the monad. *)
Definition callReadLong : L Z :=
  fun l => let '(x, s) := ReadLong (rSTRG l) in Ok (x, set_rSTRG l s).
Definition callReadString : L string :=
  fun l => let '(x, s) := ReadString (rSTRG l) in Ok (x, set_rSTRG l s).
Definition callReadFourCC : L string :=
  fun l => let '(x, s) := ReadFourCC (rSTRG l) in Ok (x, set_rSTRG l s).
Definition callSeek (Offset : Z) (Origin : SeekOrigin) : L unit :=
  modify (fun l => set_rSTRG l (Seek Offset Origin (rSTRG l))).
Definition callTell : L Z :=
  l ← get; mret (Tell (rSTRG l)).

(** The loop [for (i = 0; i < n; i++) Offsets[i] = rSTRG.ReadLong()] on a
    vector of [uint32], with [turns] for [n - i]. *)
Fixpoint read_offsets (turns : nat) (i : Z) (Offsets : list Z) : L (list Z) :=
  match turns with
  | O => mret Offsets
  | S turns' =>
      x ← callReadLong;
      Offsets' ← assign_at i (uint32 x) Offsets;
      read_offsets turns' (i + 1) Offsets'
  end.

(** The loop over the strings of one language in [LoadPrimeDemoSTRG] and
    [LoadPrimeSTRG]: the stream is put at the offset of each string and the
    string is read into its place. *)
Fixpoint read_strings (Start : Z) (Offsets : list Z) (turns : nat) (iStr : Z)
    (Strings_ : list string) : L (list string) :=
  match turns with
  | O => mret Strings_
  | S turns' =>
      match Offsets !! Z.to_nat iStr with
      | Some off =>
          callSeek (uint32 (Start + off)) SEEK_SET;;
          x ← callReadString;
          Strings' ← assign_at iStr x Strings_;
          read_strings Start Offsets turns' (iStr + 1) Strings'
      | None => undefined
      end
  end.

(** The first loop of [LoadNameTable]: the name definitions. *)
Fixpoint read_NameDefs (NameTableStart : Z) (turns : nat) (iName : Z)
    (NameDefs : list SNameDef) : L (list SNameDef) :=
  match turns with
  | O => mret NameDefs
  | S turns' =>
      off ← callReadLong;
      idx ← callReadLong;
      NameDefs' ← assign_at iName (mkNameDef (uint32 (off + NameTableStart)) idx) NameDefs;
      read_NameDefs NameTableStart turns' (iName + 1) NameDefs'
  end.

(** The first half of [LoadNameTable]: the header and the name definitions.
    It returns [NameCount], [NameTableEnd] and the definitions. *)
Definition LoadNameTable_defs : L (Z * Z * list SNameDef) :=
  NameCount ← callReadLong;
  NameTableSize ← callReadLong;
  NameTableStart ← callTell;
  let NameTableEnd := uint32 (NameTableStart + NameTableSize) in
  NameDefs ← read_NameDefs NameTableStart (Z.to_nat NameCount) 0
                (replicate (Z.to_nat NameCount) (mkNameDef 0 0));
  mret (NameCount, NameTableEnd, NameDefs).

(** The second half: the name strings, each stored at the string index of
    its definition. *)
Fixpoint read_Names (NameDefs : list SNameDef) (turns : nat) (iName : Z) : L unit :=
  match turns with
  | O => mret tt
  | S turns' =>
      match NameDefs !! Z.to_nat iName with
      | Some pDef =>
          callSeek (NameOffset pDef) SEEK_SET;;
          x ← callReadString;
          l ← get;
          names ← assign_at (StringIndex pDef) x (mStringNames (mpStringTable l));
          modify (fun l => set_table l (set_mStringNames (mpStringTable l) names));;
          read_Names NameDefs turns' (iName + 1)
      | None => undefined
      end
  end.

(** [LoadNameTable], once its two vectors are made. *)
Definition LoadNameTable : L unit :=
  '(NameCount, NameTableEnd, NameDefs) ← LoadNameTable_defs;
  modify (fun l => set_table l
            (set_mStringNames (mpStringTable l)
               (resize "" (Z.to_nat (mNumStrings (mpStringTable l)))
                  (mStringNames (mpStringTable l)))));;
  read_Names NameDefs (Z.to_nat NameCount) 0;;
  callSeek NameTableEnd SEEK_SET.

(** [LoadNameTable] as [LoadPrimeSTRG] and [LoadCorruptionSTRG] call it.  Its
    two vectors, of [NameCount] definitions and of [mNumStrings] names, ask
    the machine like the others.  Both are made before the first step that
    can be undefined and the table is not touched between them, so when the
    machine refuses one the exception is the outcome of the call. *)
Definition callLoadNameTable : LX unit :=
  fun l =>
    let NameCount := (ReadLong (rSTRG l)).1 in
    let t := mpStringTable l in
    if ((NameCount =? 0) || allocates t NameCount) &&
       ((mNumStrings t <=? Z.of_nat (length (mStringNames t))) || allocates t (mNumStrings t))
    then nothrow LoadNameTable l
    else bad_alloc.

(** [LoadPrimeDemoSTRG]: [mLangTables.resize(1)], and then the element at
    index 1. *)
Definition LoadPrimeDemoSTRG : L unit :=
  modify (fun l => set_table l
            (set_mLangTables (mpStringTable l)
               (resize (mkLangTable "" []) 1 (mLangTables (mpStringTable l)))));;
  l ← get;
  match mLangTables (mpStringTable l) !! 1%nat with
  | Some Lang =>
      TableStart ← callTell;
      NumStrings ← callReadLong;
      modify (fun l => set_table l (set_mNumStrings (mpStringTable l) NumStrings));;
      StringOffsets ← read_offsets (Z.to_nat NumStrings) 0
                         (replicate (Z.to_nat NumStrings) 0);
      Strings' ← read_strings TableStart StringOffsets (Z.to_nat NumStrings) 0
                   (resize "" (Z.to_nat NumStrings) (Strings Lang));
      modify (fun l => set_table l
                (set_mLangTables (mpStringTable l)
                   (<[1%nat := mkLangTable "ENGL" Strings']> (mLangTables (mpStringTable l)))))
  | None => undefined
  end.

(** The first loop of [LoadPrimeSTRG]: the language definitions. *)
Fixpoint read_languages (turns : nat) (iLang : Z) (LangOffsets : list Z) : L (list Z) :=
  match turns with
  | O => mret LangOffsets
  | S turns' =>
      l ← get;
      match mLangTables (mpStringTable l) !! Z.to_nat iLang with
      | Some Lang =>
          id ← callReadFourCC;
          modify (fun l => set_table l
                    (set_mLangTables (mpStringTable l)
                       (<[Z.to_nat iLang := mkLangTable id (Strings Lang)]>
                          (mLangTables (mpStringTable l)))));;
          off ← callReadLong;
          LangOffsets' ← assign_at iLang (uint32 off) LangOffsets;
          l ← get;
          (if mVersion l =? Echoes then callSeek 4 SEEK_CUR else mret tt);;
          read_languages turns' (iLang + 1) LangOffsets'
      | None => undefined
      end
  end.

(** [pLang->Strings = x] on the language at [iLang]. *)
Definition set_Strings (iLang : Z) (pLang : SLangTable) (x : list string)
    (l : CStringLoader St) : CStringLoader St :=
  set_table l
    (set_mLangTables (mpStringTable l)
       (<[Z.to_nat iLang := mkLangTable (Language pLang) x]> (mLangTables (mpStringTable l)))).

(** The second loop of [LoadPrimeSTRG]: the strings of every language.  The
    strings of the language are resized, and the vector of the offsets is
    constructed, before anything is read. *)
Fixpoint read_tables (StringsStart NumStrings : Z) (LangOffsets : list Z)
    (turns : nat) (iLang : Z) : LX unit :=
  match turns with
  | O => mret tt
  | S turns' =>
      match LangOffsets !! Z.to_nat iLang with
      | Some off =>
          nothrow (callSeek (uint32 (StringsStart + off)) SEEK_SET);;
          l ← nothrow get;
          nothrow (if mVersion l =? Prime then callSeek 4 SEEK_CUR else mret tt);;
          LangStart ← nothrow callTell;
          let LangStart := uint32 LangStart in
          l ← nothrow get;
          match mLangTables (mpStringTable l) !! Z.to_nat iLang with
          | Some pLang =>
              Strings_ ← resize_vector "" NumStrings (Strings pLang);
              nothrow (modify (set_Strings iLang pLang Strings_));;
              StringOffsets ← new_vector 0 NumStrings;
              StringOffsets ← nothrow (read_offsets (Z.to_nat NumStrings) 0 StringOffsets);
              Strings' ← nothrow (read_strings LangStart StringOffsets (Z.to_nat NumStrings) 0
                                    Strings_);
              nothrow (modify (set_Strings iLang pLang Strings'));;
              read_tables StringsStart NumStrings LangOffsets turns' (iLang + 1)
          | None => nothrow undefined
          end
      | None => nothrow undefined
      end
  end.

(** [LoadPrimeSTRG].  The two numbers of the header are [uint32]. *)
Definition LoadPrimeSTRG : LX unit :=
  NumLanguages ← nothrow callReadLong;
  let NumLanguages := uint32 NumLanguages in
  NumStrings ← nothrow callReadLong;
  let NumStrings := uint32 NumStrings in
  nothrow (modify (fun l => set_table l (set_mNumStrings (mpStringTable l) NumStrings)));;
  l ← nothrow get;
  Tables_ ← resize_vector (mkLangTable "" []) NumLanguages (mLangTables (mpStringTable l));
  nothrow (modify (fun l => set_table l (set_mLangTables (mpStringTable l) Tables_)));;
  LangOffsets ← new_vector 0 NumLanguages;
  LangOffsets ← nothrow (read_languages (Z.to_nat NumLanguages) 0 LangOffsets);
  l ← nothrow get;
  (if mVersion l =? Echoes then callLoadNameTable else mret tt);;
  StringsStart ← nothrow callTell;
  let StringsStart := uint32 StringsStart in
  read_tables StringsStart NumStrings LangOffsets (Z.to_nat NumLanguages) 0.

(** The three loops of [LoadCorruptionSTRG]: the language ids, the offsets
    of the strings of every language, and the strings. *)
Fixpoint read_language_ids (turns : nat) (iLang : Z) : L unit :=
  match turns with
  | O => mret tt
  | S turns' =>
      l ← get;
      match mLangTables (mpStringTable l) !! Z.to_nat iLang with
      | Some Lang =>
          id ← callReadFourCC;
          modify (fun l => set_table l
                    (set_mLangTables (mpStringTable l)
                       (<[Z.to_nat iLang := mkLangTable id (Strings Lang)]>
                          (mLangTables (mpStringTable l)))));;
          read_language_ids turns' (iLang + 1)
      | None => undefined
      end
  end.

Fixpoint read_language_offsets (NumStrings : Z) (turns : nat) (iLang : Z)
    (LangOffsets : list (list Z)) : LX (list (list Z)) :=
  match turns with
  | O => mret LangOffsets
  | S turns' =>
      match LangOffsets !! Z.to_nat iLang with
      | Some row =>
          row' ← resize_vector 0 NumStrings row;
          nothrow (callSeek 4 SEEK_CUR);;
          row'' ← nothrow (read_offsets (Z.to_nat NumStrings) 0 row');
          read_language_offsets NumStrings turns' (iLang + 1)
            (<[Z.to_nat iLang := row'']> LangOffsets)
      | None => nothrow undefined
      end
  end.

Fixpoint read_strings_Corruption (Start : Z) (Offsets : list Z) (turns : nat) (iStr : Z)
    (Strings_ : list string) : L (list string) :=
  match turns with
  | O => mret Strings_
  | S turns' =>
      match Offsets !! Z.to_nat iStr with
      | Some off =>
          callSeek (uint32 (Start + off)) SEEK_SET;;
          callSeek 4 SEEK_CUR;;
          x ← callReadString;
          Strings' ← assign_at iStr x Strings_;
          read_strings_Corruption Start Offsets turns' (iStr + 1) Strings'
      | None => undefined
      end
  end.

Fixpoint read_tables_Corruption (StringsStart NumStrings : Z) (LangOffsets : list (list Z))
    (turns : nat) (iLang : Z) : LX unit :=
  match turns with
  | O => mret tt
  | S turns' =>
      l ← nothrow get;
      match mLangTables (mpStringTable l) !! Z.to_nat iLang, LangOffsets !! Z.to_nat iLang with
      | Some pLang, Some row =>
          Strings_ ← resize_vector "" NumStrings (Strings pLang);
          nothrow (modify (set_Strings iLang pLang Strings_));;
          Strings' ← nothrow (read_strings_Corruption StringsStart row (Z.to_nat NumStrings) 0
                                Strings_);
          nothrow (modify (set_Strings iLang pLang Strings'));;
          read_tables_Corruption StringsStart NumStrings LangOffsets turns' (iLang + 1)
      | _, _ => nothrow undefined
      end
  end.

(** [LoadCorruptionSTRG].  The two numbers of the header are [uint32]. *)
Definition LoadCorruptionSTRG : LX unit :=
  NumLanguages ← nothrow callReadLong;
  let NumLanguages := uint32 NumLanguages in
  NumStrings ← nothrow callReadLong;
  let NumStrings := uint32 NumStrings in
  nothrow (modify (fun l => set_table l (set_mNumStrings (mpStringTable l) NumStrings)));;
  callLoadNameTable;;
  l ← nothrow get;
  Tables_ ← resize_vector (mkLangTable "" []) NumLanguages (mLangTables (mpStringTable l));
  nothrow (modify (fun l => set_table l (set_mLangTables (mpStringTable l) Tables_)));;
  LangOffsets ← new_vector [] NumLanguages;
  nothrow (read_language_ids (Z.to_nat NumLanguages) 0);;
  LangOffsets ← read_language_offsets NumStrings (Z.to_nat NumLanguages) 0 LangOffsets;
  StringsStart ← nothrow callTell;
  let StringsStart := uint32 StringsStart in
  read_tables_Corruption StringsStart NumStrings LangOffsets (Z.to_nat NumLanguages) 0.

(** [GetFormatVersion] *)
Definition GetFormatVersion (Version : Z) : Z :=
  if Version =? 0 then Prime
  else if Version =? 1 then Echoes
  else if Version =? 3 then Corruption
  else Invalid.

(** The end of [LoadSTRG]: the loader is created on a new table and the
    function for the version reads the rest of the file. *)
Definition run_loader (Version : Z) (s : St)
    : outcome (option CStringTable * St * list string) :=
  match (if Version =? PrimeDemo then nothrow LoadPrimeDemoSTRG
         else if Version <? Corruption then LoadPrimeSTRG
         else LoadCorruptionSTRG) (mkLoader new_CStringTable Version s []) with
  | Returned (Ok (_, l)) => Returned (Ok (Some (mpStringTable l), rSTRG l, errors l))
  | Returned AssertFail => Returned AssertFail
  | Returned Undefined => Returned Undefined
  | bad_alloc => bad_alloc
  end.

(** [LoadSTRG]: the table or [nullptr], the stream as it is left and what
    was passed to [errorf] (of each message, the text before the first
    argument). *)
Definition LoadSTRG (rSTRG : St) : outcome (option CStringTable * St * list string) :=
  if negb (IsValid rSTRG) then Returned (Ok (None, rSTRG, []))
  else
    let '(Magic, s1) := ReadLong rSTRG in
    if negb (Magic =? 0x87654321) then
      let '(Version, s2) :=
        if Magic <=? uint32 (Size s1) then
          let s2 := Seek Magic SEEK_SET s1 in
          if EoF s2 then (PrimeDemo, s2)
          else
            let '(x, s3) := ReadShort s2 in
            (if x =? 0xFFFF then PrimeDemo else Invalid, s3)
        else (Invalid, s1) in
      if negb (Version =? PrimeDemo) then Returned (Ok (None, s2, [": Invalid STRG magic: "]))
      else run_loader Version s2
    else
      let '(FileVersion, s2) := ReadLong s1 in
      let Version := GetFormatVersion FileVersion in
      if Version =? Invalid then Returned (Ok (None, s2, [": Unsupported STRG version: "]))
      else run_loader Version s2.

(** A step that only moves the stream. *)
Definition stream_only (l l' : CStringLoader St) : Prop :=
  mpStringTable l' = mpStringTable l /\ mVersion l' = mVersion l /\ errors l' = errors l.


(** The table of a language holds [n] strings. *)
Definition holds (n : nat) (Lang : SLangTable) : Prop := length (Strings Lang) = n.

End Loader.

End StringLoader.

(** * Part III, continued: [SEnumValue::Serialize] *)

Module EnumPropertyArchive.
Import Archive EnumProperty.
Local Open Scope Z_scope.

(** What the compiler fixes for [SEnumValue]: the [typeid] hash and the size
    of [TString], which is also the offset of the member [ID] after [Name]. *)
Class TStringTraits := {
  TString_hash : Z;
  TString_size : Z;
}.

Definition TString_SerialTraits `{TStringTraits} : SerialTraits string := {|
  type_hash := TString_hash;
  type_size := TString_size;
  SUPPORTS_DEFAULT_VALUES := true;
  equal_to := String.eqb;
  is_polymorphic_v := false;
|}.

Section Serialize.
Context {W : Type} `{!Backend W} `{!Platform} `{!TStringTraits}.
Context {TString_Primitive : Primitive W string} {u32_Primitive : Primitive W Z}.

Definition Name_parameter (this : addr) (v : SEnumValue) : TSerialParameter string :=
  SerialParameter (ST := TString_SerialTraits) "Name" (Name v) this SH_Attribute "".
Definition ID_parameter (this : addr) (v : SEnumValue) : TSerialParameter Z :=
  SerialParameter (ST := u32_SerialTraits)
    "ID" (ID v) (this + TString_size) (Z.lor SH_Attribute SH_HexDisplay) 0.

(** [SEnumValue::Serialize], on the value at the address [this]. *)
Definition SEnumValue_Serialize (this : addr) (v : SEnumValue) : M W SEnumValue :=
  prmName ← @operator_shl_Primitive W _ _ string TString_SerialTraits TString_Primitive
              (Name_parameter this v);
  prmID ← @operator_shl_Primitive W _ _ Z u32_SerialTraits u32_Primitive
            (ID_parameter this v);
  mret (mkEnumValue (rValue prmName) (rValue prmID)).

End Serialize.

End EnumPropertyArchive.

(** * Part V: [IPropertyTemplate.h] *)

Module PropertyTemplate.
Local Open Scope Z_scope.

(** The conversion to [u32]. *)
Definition u32 (z : Z) : Z := z mod 2^32.

(** [enum ECookPreference] *)
Inductive ECookPreference := eNoCookPreference | eAlwaysCook | eNeverCook.

#[global] Instance ECookPreference_eq_dec : EqDecision ECookPreference.
Proof. solve_decision. Defined.

(** [class IPropertyTemplate], with the members [Copy] and [Matches] read;
    [Type_] is what the virtual [Type()] of the object returns. *)
Record IPropertyTemplate := mkTemplate {
  mName : string;
  mDescription : string;
  mID : Z;
  mCookPreference : ECookPreference;
  mAllowedVersions : list Z;
  Type_ : Z;
}.

(** [IPropertyTemplate::Copy]: a call through [nullptr] has no meaning. *)
Definition Copy (this : IPropertyTemplate) (pkTemp : option IPropertyTemplate)
    : result IPropertyTemplate :=
  match pkTemp with
  | Some other =>
      Ok (mkTemplate (mName other) (mDescription other) (mID other) (mCookPreference other)
            (mAllowedVersions other) (Type_ this))
  | None => Undefined
  end.

(** [IPropertyTemplate::Matches] *)
Definition Matches (this : IPropertyTemplate) (pkTemp : option IPropertyTemplate) : bool :=
  match pkTemp with
  | Some other =>
      String.eqb (mName this) (mName other)
      && String.eqb (mDescription this) (mDescription other)
      && (mID this =? mID other)
      && bool_decide (mCookPreference this = mCookPreference other)
      && bool_decide (mAllowedVersions this = mAllowedVersions other)
      && (Type_ this =? Type_ other)
  | None => false
  end.

(** [CEnumTemplate::SEnumerator] *)
Record SEnumerator := mkEnumerator {
  Name : string;
  ID : Z;
}.

(** The [for] loop of [CEnumTemplate::EnumeratorIndex], at most [turns]
    times over, from the index [iEnum] on; the index is a [u32] and wraps
    around at 2^32. *)
Fixpoint EnumeratorIndex_loop (turns : nat) (mEnumerators : list SEnumerator)
    (enumID : Z) (iEnum : Z) : option Z :=
  match turns with
  | O => None
  | S turns' =>
      if iEnum <? Z.of_nat (length mEnumerators) then
        match mEnumerators !! Z.to_nat iEnum with
        | Some e =>
            if ID e =? enumID then Some iEnum
            else EnumeratorIndex_loop turns' mEnumerators enumID (u32 (iEnum + 1))
        | None => None
        end
      else Some (u32 (-1))
  end.

(** [EnumeratorIndex].  A loop that has not returned after one turn more
    than the vector has elements has wrapped around and never returns:
    [None]. *)
Definition EnumeratorIndex (mEnumerators : list SEnumerator) (enumID : Z) : option Z :=
  EnumeratorIndex_loop (S (length mEnumerators)) mEnumerators enumID 0.

(** [EnumeratorID] and [EnumeratorName] *)
Definition EnumeratorID (mEnumerators : list SEnumerator) (enumIndex : Z) : Z :=
  if enumIndex <? Z.of_nat (length mEnumerators) then
    match mEnumerators !! Z.to_nat enumIndex with
    | Some e => ID e
    | None => u32 (-1)
    end
  else u32 (-1).

Definition EnumeratorName (mEnumerators : list SEnumerator) (enumIndex : Z) : string :=
  if enumIndex <? Z.of_nat (length mEnumerators) then
    match mEnumerators !! Z.to_nat enumIndex with
    | Some e => Name e
    | None => "INVALID ENUM INDEX"
    end
  else "INVALID ENUM INDEX".

End PropertyTemplate.

(** * Fixtures for the parts added: a document to read, a stream, enum values *)

Module MoreFixture.
Import Archive Game Containers Fixture.
Local Open Scope Z_scope.

#[export] Instance layout : Layout := {|
  local_Size_addr := 2000;
  local_Val_addr := 2008;
  local_Key_addr := 2016;
  mArchiveVersion_addr := 8;
  mFileVersion_addr := 10;
  mGame_addr := 12;
  u16_hash := 16;
  EGame_hash := 48;
|}.

#[export] Instance game_constants : GameConstants := {|
  eUnknownGame := -1;
|}.

#[export] Instance u32_zero : Constructible Z := {|
  ValType_zero := 0;
  default_init := 0;
|}.

(** Values without a default, serialized by a [Serialize] that leaves the
    archive alone. *)
#[export] Instance unit_traits : SerialTraits unit := {|
  type_hash := 1;
  type_size := 1;
  SUPPORTS_DEFAULT_VALUES := false;
  equal_to := fun _ _ => true;
  is_polymorphic_v := false;
|}.

(** A factory that knows no type. *)
Definition null_factory : Factory World Z := {|
  Constructor := Basic (fun _ w => (None, w));
|}.

(** On the world of [Fixture]: the version fields and the elements of a
    container of [u32]. *)
#[export] Instance version_backend : VersionBackend World := {|
  u16_Primitive := u32_primitive;
  EGame_Serializable := {| Serialize := fun v => ret v; Serialize_at := fun _ => ret tt |};
|}.

#[export] Instance u32_stream : Streamable World Z := {|
  operator_shl := operator_shl_Primitive;
|}.

(** A writer on a document of file version 0 for an unknown game. *)
Definition blank_writer : IArchive World :=
  mkArchive skCurrentArchiveVersion 0 (-1) AF_Writer [] (true, []).

(** A document to read: the names of the entries begun so far, the [u32]
    values still to be read, and what the pointer hook answers.  The
    attributes "FileVer" and "Game" are absent from it. *)
Record Document := mkDocument {
  begun : list string;
  values : list Z;
  accepts : bool;
}.

Definition absent (name : string) : bool :=
  String.eqb name "FileVer" || String.eqb name "Game".

#[export] Instance reader_backend : Backend Document := {|
  ParamBegin := fun name _ w =>
    if absent name then (false, w)
    else (true, mkDocument (begun w ++ [name]) (values w) (accepts w));
  ParamEnd := fun w => w;
  PreSerializePointer := fun p _ w => (accepts w, p, w);
|}.

#[export] Instance reader_u32 : Primitive Document Z := {|
  SerializePrimitive := fun v _ w =>
    match values w with
    | x :: rest => (x, mkDocument (begun w) rest (accepts w))
    | [] => (v, w)
    end;
  load := fun _ _ => 0;
  store := fun _ _ w => w;
|}.

#[export] Instance reader_pointer : PointerTraits Document := {|
  ptr_type_hash := 64;
  ptr_type_size := 8;
  pointee_is_polymorphic := true;
  new_ValType := fun w => (4096, w);
|}.

#[export] Instance reader_object : Serializable Document unit := {|
  Serialize := fun v => ret v;
  Serialize_at := fun _ => ret tt;
|}.

#[export] Instance reader_versions : VersionBackend Document := {|
  u16_Primitive := reader_u32;
  EGame_Serializable := {| Serialize := fun v => ret v; Serialize_at := fun _ => ret tt |};
|}.

#[export] Instance reader_stream : Streamable Document Z := {|
  operator_shl := operator_shl_Primitive;
|}.

#[export] Instance reader_sizes : ArraySize Document := default_ArraySize.

(** A Reader of the current archive version on the values [vs]. *)
Definition reading (vs : list Z) (hook : bool) : IArchive Document :=
  mkArchive skCurrentArchiveVersion 7 3 AF_Reader [] (mkDocument [] vs hook).

End MoreFixture.

Module MoreStoreFixture.
Import Store StoreMore StoreFixture.
Local Open Scope Z_scope.

(** The collaborators of [StoreFixture], with the directory 0 empty. *)
Definition sweeping : Collaborators unit Env File := {|
  IsValid := IsValid;
  RandomID := RandomID;
  ToString := ToString;
  eInvalidResType := eInvalidResType;
  TypeForCookedExtension := TypeForCookedExtension;
  IsValidDirectoryPath := IsValidDirectoryPath;
  IsEmpty := fun d _ => d =? 0;
  RemoveChildResource := RemoveChildResource;
  delete_directory := delete_directory;
  FindChildResource := FindChildResource;
  IsValidName := IsValidName;
  Contains := Contains;
  IsAbsolute := IsAbsolute;
  MakeAbsolute := MakeAbsolute;
  GetFileDirectory := GetFileDirectory;
  GetFileName := GetFileName;
  GetFileExtension := GetFileExtension;
  ToUpper := ToUpper;
  IsHexString := IsHexString;
  ToInt64 := ToInt64;
  Hash64 := Hash64;
  CaseInsensitiveCompare := CaseInsensitiveCompare;
  CookedExtension := CookedExtension;
  RawExtension := RawExtension;
  link_directory := link_directory;
  AddToProject := AddToProject;
  LoadCooked := LoadCooked;
  Entry_Load := Entry_Load;
  FileIsValid := FileIsValid;
  OpenCacheFileIn := OpenCacheFileIn;
  ReadFourCC := ReadFourCC;
  ReadSerialVersion := ReadSerialVersion;
  ReadLong := ReadLong;
  ReadAssetID := ReadAssetID;
  ReaderParamBegin := ReaderParamBegin;
  SerializeCacheData := SerializeCacheData;
  SaveXML := SaveXML;
  CacheFileOutIsValid := CacheFileOutIsValid;
  CachePayload := CachePayload;
  WriteCacheFile := WriteCacheFile;
|}.

(** A store with nothing loaded and the transient roots given. *)
Definition rooted (roots : list Z) : CResourceStore unit Env :=
  mkStore 1 None roots ∅ ∅ "raw" "cooked" "/tmp/" false false tt (100, cache_file) [].

(** The store [chain] with one transient root, the directory 0. *)
Definition chain_under_root : CResourceStore unit Env := set_mTransientRoots chain [0].

(** The project with a transient entry 3 beside the entry 7. *)
Definition mixed : CResourceStore unit Env :=
  store (<[3 := mkEntry None 3 1 None "temp" eREF_Transient]> (<[7 := hero]> ∅)) ∅.

(** Three records of a resource database: two for the id 8, and one for the
    id 7 that the project holds. *)
Definition records : list SDatabaseResource_read :=
  [mkDatabaseResource_read 8 (Some 1) "chars" "first";
   mkDatabaseResource_read 7 (Some 1) "chars" "again";
   mkDatabaseResource_read 8 (Some 2) "chars" "second"].

End MoreStoreFixture.

Module LoaderFixture.
Import StringLoader.
Local Open Scope Z_scope.

(** A stream of words: the words and the position.  Every string read is
    "text" and every language id "ENGL". *)
Definition Stream : Type := list Z * Z.

#[export] Instance stream : IInputStream Stream := {|
  IsValid := fun _ => true;
  ReadLong := fun s => (nth (Z.to_nat s.2) s.1 0, (s.1, s.2 + 1));
  ReadShort := fun s => (nth (Z.to_nat s.2) s.1 0, (s.1, s.2 + 1));
  ReadString := fun s => ("text", (s.1, s.2 + 1));
  ReadFourCC := fun s => ("ENGL", (s.1, s.2 + 1));
  Seek := fun off origin s =>
    match origin with
    | SEEK_SET => (s.1, off)
    | SEEK_CUR => (s.1, s.2 + off)
    end;
  Tell := fun s => s.2;
  EoF := fun s => Z.of_nat (length s.1) <=? s.2;
  Size := fun s => Z.of_nat (length s.1);
|}.

#[export] Instance games : Games := {|
  Invalid := -1;
  PrimeDemo := 0;
  Prime := 1;
  Echoes := 3;
  Corruption := 5;
|}.

#[export] Instance tables : Tables := {|
  new_CStringTable := mkStringTable 0 [] [];
|}.

(** A machine that has room for a thousand elements in a vector. *)
#[export] Instance memory : Memory := {|
  allocates := fun _ n => n <=? 1000;
|}.


(** A loader for Prime on a header that announces two languages of three
    strings. *)
Definition prime_loader : CStringLoader Stream :=
  mkLoader new_CStringTable Prime ([2; 3], 0) [].

(** A loader for Prime on a header that announces 2^32 - 1 languages of
    2^32 - 1 strings. *)
Definition greedy_loader : CStringLoader Stream :=
  mkLoader new_CStringTable Prime ([0xFFFFFFFF; 0xFFFFFFFF], 0) [].

End LoaderFixture.

Module EnumFixture.
Import Archive EnumPropertyArchive.
Local Open Scope Z_scope.

(** An empty document: [ParamBegin] declines every name. *)
#[export] Instance empty_backend : Backend unit := {|
  ParamBegin := fun _ _ w => (false, w);
  ParamEnd := fun w => w;
  PreSerializePointer := fun p _ w => (true, p, w);
|}.

#[export] Instance empty_TString : Primitive unit string := {|
  SerializePrimitive := fun v _ w => (v, w);
  load := fun _ _ => EmptyString;
  store := fun _ _ w => w;
|}.

#[export] Instance empty_u32 : Primitive unit Z := {|
  SerializePrimitive := fun v _ w => (v, w);
  load := fun _ _ => 0;
  store := fun _ _ w => w;
|}.

#[export] Instance TString_traits : TStringTraits := {|
  TString_hash := 96;
  TString_size := 24;
|}.

Definition empty_reader : IArchive unit :=
  mkArchive skCurrentArchiveVersion 0 0 AF_Reader [] tt.

(** Three values, two of them under the ID 1. *)
Definition colours : list EnumProperty.SEnumValue :=
  [EnumProperty.mkEnumValue "red" 1; EnumProperty.mkEnumValue "green" 0xFFFFFFFF;
   EnumProperty.mkEnumValue "crimson" 1].

Definition enumerators : list PropertyTemplate.SEnumerator :=
  [PropertyTemplate.mkEnumerator "red" 1; PropertyTemplate.mkEnumerator "green" 5;
   PropertyTemplate.mkEnumerator "crimson" 1].

End EnumFixture.

(** * Part I, proved: the archive engine *)

Section ArchiveEngine.
Import Archive.
Local Open Scope Z_scope.
Context {W : Type} `{!Backend W} `{!Platform}.

Lemma PushParameter_run {V} {ST : SerialTraits V} (p : TSerialParameter V) (arc : IArchive W) :
  PushParameter p arc =
    if attribute_parent arc then AssertFail
    else Ok (tt, set_stack arc (mParmStack arc ++ [Entry p])).
Proof.
  unfold PushParameter, attribute_parent. run.
  destruct DEBUG; simpl; [|done].
  destruct (last (mParmStack arc)) as [back|]; simpl; [|done].
  by destruct (Z.land _ _ =? 0).
Qed.

Lemma PopParameter_run {V} {ST : SerialTraits V} (p q : TSerialParameter V) (arc : IArchive W) s :
  mParmStack arc = s ++ [Entry p] ->
  rValueAddr q = rValueAddr p ->
  PopParameter q arc = Ok (tt, set_stack arc s).
Proof.
  intros Hs Ha.
  unfold PopParameter. run.
  rewrite Hs, last_snoc, length_app. simpl.
  rewrite Ha, !Z.eqb_refl.
  replace (0 <? Z.of_nat (length s + 1)) with true by (symmetry; apply Z.ltb_lt; lia).
  assert (Hne : exists e l, s ++ [Entry p] = e :: l)
    by (destruct s; simpl; eauto).
  destruct Hne as (e & l & Hne).
  destruct DEBUG; simpl; rewrite Hne; simpl; rewrite Hs, removelast_last; done.
Qed.

Lemma set_stack_id (arc : IArchive W) : set_stack arc (mParmStack arc) = arc.
Proof. by destruct arc. Qed.

Lemma set_stack_twice (arc : IArchive W) s t : set_stack (set_stack arc s) t = set_stack arc t.
Proof. done. Qed.

Lemma NoSkipping_serializes {V} {ST : SerialTraits V} (q : TSerialParameter V) (arc : IArchive W) :
  flag_set (mArchiveFlags arc) AF_NoSkipping = true ->
  ShouldSerializeParameter q arc = true.
Proof. intros Hn. unfold ShouldSerializeParameter. by rewrite Hn. Qed.

(** C1. A field hinted Optional and not AlwaysSave, with a default [d]
    supplied.  When its live value equals [d], a writer without NoSkipping
    does not serialize it: [ShouldSerializeParameter] is false and the
    operator returns with the archive as it was, no call made on the backend,
    so no entry is emitted.  A reader that does not enter the scope of the
    field (the field is skipped, or [ParamBegin] declines because the entry
    is absent) leaves the field holding [d], whatever it held before.  Under
    NoSkipping [ShouldSerializeParameter] is true for every field of every
    type. *)
Theorem C1_default_omission {V} {ST : SerialTraits V} `{!Primitive W V}
    (rParam : TSerialParameter V) (d : V) :
  flag_set (HintFlags rParam) SH_Optional = true ->
  flag_set (HintFlags rParam) SH_AlwaysSave = false ->
  SUPPORTS_DEFAULT_VALUES V = true ->
  pDefaultValue rParam = Some d ->
  (forall arc : IArchive W,
     equal_to (rValue rParam) d = true ->
     IsWriter arc = true ->
     flag_set (mArchiveFlags arc) AF_NoSkipping = false ->
       ShouldSerializeParameter rParam arc = false /\
       operator_shl_Primitive rParam arc =
         if attribute_parent arc then AssertFail
         else Ok (if IsReader arc then set_rValue rParam d else rParam, arc)) /\
  (forall (held : V) (arc : IArchive W),
     IsReader arc = true ->
     ShouldSerializeParameter (set_rValue rParam held) arc
       && fst (ParamBegin (pkName rParam) (HintFlags rParam) (world arc)) = false ->
     attribute_parent arc = false ->
       exists arc', operator_shl_Primitive (set_rValue rParam held) arc
                      = Ok (set_rValue rParam d, arc') /\
                    rValue (set_rValue rParam d) = d) /\
  (forall V' (ST' : SerialTraits V') (q : TSerialParameter V') (arc : IArchive W),
     flag_set (mArchiveFlags arc) AF_NoSkipping = true ->
     ShouldSerializeParameter q arc = true).
Proof.
  intros Hopt Halways Hsup Hdef.
  assert (Hinit : forall held,
            InitParameterToDefault (set_rValue rParam held) = (true, set_rValue rParam d)).
  { intros held. unfold InitParameterToDefault. simpl. by rewrite Hsup, Hdef. }
  assert (Hal : (Z.land (HintFlags rParam) SH_AlwaysSave =? 0) = true).
  { unfold flag_set in Halways. by destruct (Z.land _ _ =? 0). }
  split; [|split].
  - intros arc Heq Hw Hns.
    assert (Hmatch : ParameterMatchesDefault rParam = true).
    { unfold ParameterMatchesDefault. by rewrite Hsup, Hdef. }
    assert (Hinit' : InitParameterToDefault rParam = (true, set_rValue rParam d)).
    { unfold InitParameterToDefault. by rewrite Hsup, Hdef. }
    assert (Hshould : ShouldSerializeParameter rParam arc = false).
    { unfold ShouldSerializeParameter.
      rewrite Hns, Hw, Hopt, Hal, Hmatch.
      by destruct (flag_set (HintFlags rParam) SH_NeverSave). }
    split; [done|].
    unfold operator_shl_Primitive. run.
    rewrite PushParameter_run.
    destruct (attribute_parent arc); [done|].
    replace (ShouldSerializeParameter rParam (set_stack arc (mParmStack arc ++ [Entry rParam])))
      with (ShouldSerializeParameter rParam arc) by done.
    rewrite Hshould.
    replace (IsReader (set_stack arc (mParmStack arc ++ [Entry rParam])))
      with (IsReader arc) by done.
    rewrite Hinit'.
    destruct (IsReader arc); simpl;
      erewrite PopParameter_run by (simpl; reflexivity);
      by rewrite set_stack_twice, set_stack_id.
  - intros held arc Hr Hskip Hattr.
    unfold operator_shl_Primitive. run.
    rewrite PushParameter_run, Hattr.
    replace (ShouldSerializeParameter (set_rValue rParam held) (set_stack arc _))
      with (ShouldSerializeParameter (set_rValue rParam held) arc) by done.
    destruct (ShouldSerializeParameter (set_rValue rParam held) arc); simpl in *.
    + unfold callParamBegin. simpl.
      destruct (ParamBegin (pkName rParam) (HintFlags rParam) (world arc)) as [b w] eqn:E.
      simpl in Hskip. subst b. simpl.
      replace (IsReader _) with (IsReader arc) by done.
      rewrite Hr, Hinit. simpl.
      erewrite PopParameter_run by (simpl; reflexivity).
      eauto.
    + replace (IsReader _) with (IsReader arc) by done.
      rewrite Hr, Hinit. simpl.
      erewrite PopParameter_run by (simpl; reflexivity).
      eauto.
  - intros V' ST' q arc. apply NoSkipping_serializes.
Qed.

(** *** The parameter stack query *)

Lemma FindParentObject_start (stack : list SParmStackEntry.t) :
  Z.of_nat (length stack) <= 2^31 + 1 ->
  Z.to_nat (to_int (to_size_t (Z.of_nat (length stack) - 2)) + 1) = pred (length stack).
Proof.
  intros Hlen. unfold to_int, to_size_t.
  destruct (length stack) as [|[|n]] eqn:E.
  - reflexivity.
  - reflexivity.
  - replace (Z.of_nat (S (S n)) - 2) with (Z.of_nat n) by lia.
    rewrite (Z.mod_small (Z.of_nat n) (2^64)) by lia.
    rewrite (Z.mod_small (Z.of_nat n) (2^32)) by lia.
    destruct (Z.ltb_spec (Z.of_nat n) (2^31)); simpl; lia.
Qed.

Lemma FindParentObject_loop_Some T (stack : list SParmStackEntry.t) (n : nat) (p : addr) :
  (n <= length stack)%nat ->
  FindParentObject_loop T stack n = Some p <->
  exists (i : nat) e,
    (i < n)%nat /\ stack !! i = Some e /\
    SParmStackEntry.TypeID e = T /\ SParmStackEntry.pDataPointer e = p /\
    forall (j : nat) e', (i < j < n)%nat -> stack !! j = Some e' -> SParmStackEntry.TypeID e' <> T.
Proof.
  induction n as [|n IH]; intros Hn; simpl.
  - split; [done|]. intros (i & e & Hi & _). lia.
  - destruct (stack !! n) as [kEntry|] eqn:E.
    2: { apply lookup_ge_None in E. lia. }
    destruct (Z.eqb_spec (SParmStackEntry.TypeID kEntry) T) as [Hm|Hm].
    + split.
      * intros [= <-]. exists n, kEntry. repeat split; auto. intros j e' Hj. lia.
      * intros (i & e & Hi & He & Ht & Hp & Hnear).
        destruct (decide (i = n)) as [->|Hne]; [congruence|].
        exfalso. apply (Hnear n kEntry); [lia|done|done].
    + rewrite IH by lia. split.
      * intros (i & e & Hi & He & Ht & Hp & Hnear).
        exists i, e. repeat split; auto.
        intros j e' Hj Hj'. destruct (decide (j = n)) as [->|Hne]; [congruence|].
        apply (Hnear j e'); [lia|done].
      * intros (i & e & Hi & He & Ht & Hp & Hnear).
        destruct (decide (i = n)) as [->|Hne]; [congruence|].
        exists i, e. repeat split; auto; [lia|].
        intros j e' Hj. apply Hnear. lia.
Qed.

Lemma FindParentObject_loop_None T (stack : list SParmStackEntry.t) (n : nat) :
  (n <= length stack)%nat ->
  FindParentObject_loop T stack n = None <->
  forall (i : nat) e, (i < n)%nat -> stack !! i = Some e -> SParmStackEntry.TypeID e <> T.
Proof.
  induction n as [|n IH]; intros Hn; simpl.
  - split; [|done]. intros _ i e Hi. lia.
  - destruct (stack !! n) as [kEntry|] eqn:E.
    2: { apply lookup_ge_None in E. lia. }
    destruct (Z.eqb_spec (SParmStackEntry.TypeID kEntry) T) as [Hm|Hm].
    + split; [done|]. intros Hall. exfalso. apply (Hall n kEntry); [lia|done|done].
    + rewrite IH by lia. split.
      * intros Hall i e Hi He. destruct (decide (i = n)) as [->|Hne]; [congruence|].
        apply (Hall i e); [lia|done].
      * intros Hall i e Hi. apply Hall. lia.
Qed.

Lemma FindParentObject_loop_app T (below above : list SParmStackEntry.t) (n : nat) :
  (n <= length below)%nat ->
  FindParentObject_loop T (below ++ above) n = FindParentObject_loop T below n.
Proof.
  induction n as [|n IH]; intros Hn; simpl; [done|].
  rewrite lookup_app_l by lia.
  destruct (below !! n); [|done].
  destruct (_ =? _); [done|]. apply IH. lia.
Qed.

(** C5. [FindParentObject<T>] scans from the frame under the top one down to
    the bottom: it returns the data pointer of the frame nearest to the top,
    the top excluded, whose type identity is that of [T], and [nullptr]
    exactly when no frame under the top has it; replacing the top frame (the
    field being serialized) by any other never changes the answer.  The
    stack is at most 2^31 + 1 frames deep, as the index is an [int]. *)
Theorem C5_FindParentObject {V} {ST : SerialTraits V} (arc : IArchive W) :
  Z.of_nat (length (mParmStack arc)) <= 2^31 + 1 ->
  (forall p : addr,
     FindParentObject (V := V) arc = Some p <->
     exists (i : nat) e,
       (i + 1 < length (mParmStack arc))%nat /\ mParmStack arc !! i = Some e /\
       SParmStackEntry.TypeID e = type_hash V /\ SParmStackEntry.pDataPointer e = p /\
       forall (j : nat) e', (i < j)%nat -> (j + 1 < length (mParmStack arc))%nat ->
         mParmStack arc !! j = Some e' -> SParmStackEntry.TypeID e' <> type_hash V) /\
  (FindParentObject (V := V) arc = None <->
     forall (i : nat) e, (i + 1 < length (mParmStack arc))%nat ->
       mParmStack arc !! i = Some e -> SParmStackEntry.TypeID e <> type_hash V) /\
  (forall below top top',
     mParmStack arc = below ++ [top] ->
     FindParentObject (V := V) (set_stack arc (below ++ [top'])) = FindParentObject (V := V) arc /\
     FindParentObject (V := V) arc = FindParentObject_loop (type_hash V) below (length below)).
Proof.
  intros Hlen. unfold FindParentObject, FindParentObject_stack.
  rewrite FindParentObject_start by done.
  split; [|split].
  - intros p. rewrite FindParentObject_loop_Some by lia. split.
    + intros (i & e & Hi & He & Ht & Hp & Hnear). exists i, e.
      repeat split; auto; [lia|]. intros j e' Hj Hj'. apply Hnear. lia.
    + intros (i & e & Hi & He & Ht & Hp & Hnear). exists i, e.
      repeat split; auto; [lia|]. intros j e' Hj. apply Hnear; lia.
  - rewrite FindParentObject_loop_None by lia. split.
    + intros Hall i e Hi. apply Hall. lia.
    + intros Hall i e Hi. apply Hall. lia.
  - intros below top top' Hs. simpl.
    assert (Hlen' : Z.of_nat (length (below ++ [top'])) <= 2^31 + 1).
    { rewrite Hs in Hlen. rewrite length_app in *. simpl in *. lia. }
    rewrite FindParentObject_start by done.
    rewrite Hs, !length_app. simpl.
    replace (pred (length below + 1)) with (length below) by lia.
    rewrite !FindParentObject_loop_app by lia. done.
Qed.

(** *** Pointer fields *)

Section LegacyTypeTag.
Context `{!PointerTraits W} `{!Primitive W Z}.
Variables (rParam : TSerialParameter ptr) (arc : IArchive W) (w1 : W).
Hypothesis no_attribute_parent : attribute_parent arc = false.
Hypothesis not_skipped :
  ShouldSerializeParameter (ST := ptr_SerialTraits) rParam arc = true.
Hypothesis enters :
  ParamBegin (pkName rParam) (HintFlags rParam) (world arc) = (true, w1).

Lemma legacy_Type_tag_reader :
  ArchiveVersion arc < eArVer_Refactor -> IsReader arc = true ->
  pointee_is_polymorphic = true ->
  legacy_Type_tag (entered_scope rParam w1 arc) =
    (operator_shl_Primitive (ST := u32_SerialTraits) legacy_Type_parameter;; mret tt)
      (entered_scope rParam w1 arc).
Proof.
  intros Hv Hr Hp. unfold legacy_Type_tag at 1. run.
  unfold entered_scope at 1 2 3. unfold ArchiveVersion in *. simpl.
  apply Z.ltb_lt in Hv. unfold IsReader in *. simpl. by rewrite Hv, Hr, Hp.
Qed.

Lemma legacy_Type_tag_not_reader :
  IsReader arc = false ->
  legacy_Type_tag (entered_scope rParam w1 arc) = Ok (tt, entered_scope rParam w1 arc).
Proof.
  intros Hr. unfold legacy_Type_tag. run.
  unfold entered_scope at 2. unfold IsReader in *. simpl. rewrite Hr.
  by rewrite andb_false_r.
Qed.

Lemma MemberPtr_enter {V} `{!Serializable W V} :
  operator_shl_MemberPtr (V := V) rParam arc =
    (legacy_Type_tag;; pointee_scope (Serialize_at (V := V)) rParam)
      (entered_scope rParam w1 arc).
Proof.
  unfold operator_shl_MemberPtr. run.
  rewrite PushParameter_run, no_attribute_parent.
  replace (ShouldSerializeParameter rParam (set_stack arc _))
    with (ShouldSerializeParameter (ST := ptr_SerialTraits) rParam arc) by done.
  rewrite not_skipped. unfold callParamBegin. simpl. rewrite enters. done.
Qed.

Lemma GlobalPtr_enter {V} `{!Serializable W V} :
  negb (IsWriter arc) || negb (is_nullptr (rValue rParam)) = true ->
  operator_shl_GlobalPtr (V := V) rParam arc =
    (legacy_Type_tag;; pointee_scope (Serialize_at (V := V)) rParam)
      (entered_scope rParam w1 arc).
Proof.
  intros Hassert. unfold operator_shl_GlobalPtr. run. rewrite Hassert.
  rewrite PushParameter_run, no_attribute_parent.
  replace (ShouldSerializeParameter rParam (set_stack arc _))
    with (ShouldSerializeParameter (ST := ptr_SerialTraits) rParam arc) by done.
  rewrite not_skipped. unfold callParamBegin. simpl. rewrite enters. done.
Qed.

Lemma PrimitivePtr_enter {V} `{!Primitive W V} :
  negb (IsWriter arc) || negb (is_nullptr (rValue rParam)) = true ->
  operator_shl_PrimitivePtr (V := V) rParam arc =
    (legacy_Type_tag;;
     pointee_scope (fun a => callSerializePrimitive_at (V := V) a (HintFlags rParam)) rParam)
      (entered_scope rParam w1 arc).
Proof.
  intros Hassert. unfold operator_shl_PrimitivePtr. run.
  unfold IsWriter in Hassert. rewrite Hassert.
  rewrite PushParameter_run, no_attribute_parent.
  replace (ShouldSerializeParameter rParam (set_stack arc _))
    with (ShouldSerializeParameter (ST := ptr_SerialTraits) rParam arc) by done.
  rewrite not_skipped. unfold callParamBegin. simpl. rewrite enters. done.
Qed.
(** C6, as amended.  Under an archive version older than Refactor, a
    Reader that enters the scope of a pointer field whose pointee is
    polymorphic and not abstract first serializes a [u32] parameter named
    "Type" of its own and discards what it read, then goes on to the
    pointer hook and the pointee; an archive that is not a Reader goes
    straight to the pointer hook and the pointee and serializes no such
    parameter, whatever its version.  This holds for the Primitive, the
    Global and the Member pointer operators (the first two once their
    null-pointer assertion has passed). *)
Theorem C6_legacy_Type_tag_reader_only {V} `{!Serializable W V} {P} `{!Primitive W P} :
  negb (IsWriter arc) || negb (is_nullptr (rValue rParam)) = true ->
  (ArchiveVersion arc < eArVer_Refactor -> IsReader arc = true ->
   pointee_is_polymorphic = true ->
     let Type_ := operator_shl_Primitive (ST := u32_SerialTraits) legacy_Type_parameter in
     operator_shl_PrimitivePtr (V := P) rParam arc =
       (Type_;; pointee_scope
                  (fun a => callSerializePrimitive_at (V := P) a (HintFlags rParam)) rParam)
         (entered_scope rParam w1 arc) /\
     operator_shl_GlobalPtr (V := V) rParam arc =
       (Type_;; pointee_scope (Serialize_at (V := V)) rParam) (entered_scope rParam w1 arc) /\
     operator_shl_MemberPtr (V := V) rParam arc =
       (Type_;; pointee_scope (Serialize_at (V := V)) rParam) (entered_scope rParam w1 arc)) /\
  (IsReader arc = false ->
     operator_shl_PrimitivePtr (V := P) rParam arc =
       pointee_scope (fun a => callSerializePrimitive_at (V := P) a (HintFlags rParam)) rParam
         (entered_scope rParam w1 arc) /\
     operator_shl_GlobalPtr (V := V) rParam arc =
       pointee_scope (Serialize_at (V := V)) rParam (entered_scope rParam w1 arc) /\
     operator_shl_MemberPtr (V := V) rParam arc =
       pointee_scope (Serialize_at (V := V)) rParam (entered_scope rParam w1 arc)).
Proof.
  intros Hassert. split.
  - intros Hv Hr Hp Type_.
    pose proof (legacy_Type_tag_reader Hv Hr Hp) as Htag.
    rewrite (PrimitivePtr_enter (V := P)), (GlobalPtr_enter (V := V)),
      (MemberPtr_enter (V := V)) by done.
    subst Type_.
    repeat split; unfold mbind, StateErr_bind, bind at 1; rewrite Htag; run;
      by destruct (operator_shl_Primitive _ _) as [[? ?]| |].
  - intros Hr.
    pose proof (legacy_Type_tag_not_reader Hr) as Htag.
    rewrite (PrimitivePtr_enter (V := P)), (GlobalPtr_enter (V := V)),
      (MemberPtr_enter (V := V)) by done.
    repeat split; unfold mbind, StateErr_bind, bind; by rewrite Htag.
Qed.
End LegacyTypeTag.

(** The Primitive and the Global pointer operators stop a Writer at a null
    pointer before anything else happens. *)
Lemma PrimitivePtr_null_writer `{!PointerTraits W} `{!Primitive W Z} {V} `{!Primitive W V}
    (rParam : TSerialParameter ptr) (arc : IArchive W) :
  IsWriter arc = true -> rValue rParam = None ->
  operator_shl_PrimitivePtr (V := V) rParam arc = AssertFail.
Proof.
  intros Hw Hn. unfold operator_shl_PrimitivePtr. run.
  unfold IsWriter in Hw. by rewrite Hw, Hn.
Qed.

Lemma GlobalPtr_null_writer `{!PointerTraits W} `{!Primitive W Z} {V} `{!Serializable W V}
    (rParam : TSerialParameter ptr) (arc : IArchive W) :
  IsWriter arc = true -> rValue rParam = None ->
  operator_shl_GlobalPtr (V := V) rParam arc = AssertFail.
Proof.
  intros Hw Hn. unfold operator_shl_GlobalPtr. run. by rewrite Hw, Hn.
Qed.

Lemma PopParameter_flags {V} {ST : SerialTraits V} (p : TSerialParameter V)
    (arc : IArchive W) r :
  PopParameter p arc = Ok r -> mArchiveFlags (snd r) = mArchiveFlags arc.
Proof.
  unfold PopParameter. run.
  destruct DEBUG; simpl.
  - destruct (0 <? _); [|done].
    destruct (last (mParmStack arc)) as [e|]; simpl.
    + destruct (_ =? _); [|done]. destruct (_ =? _); [|done].
      destruct (mParmStack arc); [done|]. by intros [= <-].
    + destruct (mParmStack arc); [done|]. by intros [= <-].
  - destruct (mParmStack arc); [done|]. by intros [= <-].
Qed.

Lemma operator_shl_Primitive_flags {V} {ST : SerialTraits V} `{!Primitive W V}
    (p : TSerialParameter V) (arc : IArchive W) r :
  operator_shl_Primitive p arc = Ok r -> mArchiveFlags (snd r) = mArchiveFlags arc.
Proof.
  unfold operator_shl_Primitive. run.
  rewrite PushParameter_run. destruct (attribute_parent arc); [done|].
  destruct (ShouldSerializeParameter _ _).
  - unfold callParamBegin. simpl.
    destruct (ParamBegin _ _ _) as [[|] w]; simpl.
    + unfold callSerializePrimitive, callParamEnd. simpl.
      destruct (SerializePrimitive _ _ _) as [v w']. simpl.
      destruct (PopParameter _ _) as [[[] arc']| |] eqn:E; [|done..].
      intros [= <-]. by apply PopParameter_flags in E.
    + destruct (IsReader _);
        (destruct (PopParameter _ _) as [[[] arc']| |] eqn:E; [|done..]);
        intros [= <-]; by apply PopParameter_flags in E.
  - destruct (IsReader _);
      (destruct (PopParameter _ _) as [[[] arc']| |] eqn:E; [|done..]);
      intros [= <-]; by apply PopParameter_flags in E.
Qed.

(** C10. Reading a pointer to an abstract class (the archive is not a
    Writer), with the scope of the field entered and the pointer hook
    accepting with the pointer at an existing object [a]: the operator
    serializes the "Type" parameter starting from [a]'s own [Type()], fails
    its assertion unless the value then held equals [a]'s [Type()], and
    otherwise calls [Serialize] on [a] itself and leaves the field pointing
    at [a]; the outcome is the same whatever the factory is, so the factory
    is not used.  With the pointer null after the hook, a Reader does call
    [InstantiateAbstractObject] on the type it read. *)
Theorem C10_existing_object_reused
    `{!PointerTraits W} {T} {ST : SerialTraits T} `{!Primitive W T} `{!Abstract W T}
    {V} `{!Serializable W V}
    (F : Factory W T) (rParam : TSerialParameter ptr) (arc : IArchive W)
    (w1 w2 : W) (p : ptr) :
  attribute_parent arc = false ->
  ShouldSerializeParameter (ST := ptr_SerialTraits) rParam arc = true ->
  ParamBegin (pkName rParam) (HintFlags rParam) (world arc) = (true, w1) ->
  PreSerializePointer (rValue rParam) (HintFlags rParam) w1 = (true, p, w2) ->
  IsWriter arc = false ->
  let arc2 := set_world (entered_scope rParam w1 arc) w2 in
  (forall a, p = Some a ->
     let TypeCopy := ObjType a w2 in
     let leave := set_rValue rParam (Some a) in
     operator_shl_AbstractPtr (V := V) (F := F) rParam arc =
       match operator_shl_Primitive
               (SerialParameter "Type" TypeCopy local_Type_addr SH_Attribute ObjectType_zero)
               arc2 with
       | Ok (prm, arc3) =>
           if equal_to (rValue prm) TypeCopy
           then (Serialize_at (V := V) a;; callParamEnd;;
                 PopParameter (ST := ptr_SerialTraits) leave;; mret leave) arc3
           else AssertFail
       | AssertFail => AssertFail
       | Undefined => Undefined
       end /\
     forall F' : Factory W T,
       operator_shl_AbstractPtr (V := V) (F := F') rParam arc =
       operator_shl_AbstractPtr (V := V) (F := F) rParam arc) /\
  (p = None -> IsReader arc = true ->
     operator_shl_AbstractPtr (V := V) (F := F) rParam arc =
       (prm ← operator_shl_Primitive
                (SerialParameter "Type" ObjectType_zero local_Type_addr SH_Attribute
                   ObjectType_zero);
        p1 ← InstantiateAbstractObject (rValue prm);
        match p1 with Some a => Serialize_at (V := V) a | None => mret tt end;;
        callParamEnd;;
        PopParameter (ST := ptr_SerialTraits) (set_rValue rParam p1);;
        mret (set_rValue rParam p1)) arc2).
Proof.
  intros Hattr Hshould Hbegin Hhook Hw arc2.
  assert (Hrun : forall F0 : Factory W T,
    operator_shl_AbstractPtr (V := V) (F := F0) rParam arc =
      (p1 ← (let TypeCopy := match p with
                             | Some a => ObjType a w2
                             | None => ObjectType_zero
                             end in
             prm ← operator_shl_Primitive
                     (SerialParameter "Type" TypeCopy local_Type_addr SH_Attribute
                        ObjectType_zero);
             arc ← get;
             if IsReader arc && is_nullptr p
             then InstantiateAbstractObject (rValue prm)
             else if negb (is_nullptr p)
                  then ASSERT (equal_to (rValue prm) TypeCopy);; mret p
                  else mret p);
       match p1 with Some a => Serialize_at (V := V) a | None => mret tt end;;
       callParamEnd;;
       PopParameter (ST := ptr_SerialTraits) (set_rValue rParam p1);;
       mret (set_rValue rParam p1)) arc2).
  { intros F0. unfold operator_shl_AbstractPtr. run.
    rewrite PushParameter_run, Hattr.
    replace (ShouldSerializeParameter rParam (set_stack arc _))
      with (ShouldSerializeParameter (ST := ptr_SerialTraits) rParam arc) by done.
    rewrite Hshould. unfold callParamBegin, callPreSerializePointer. simpl.
    rewrite Hbegin. simpl. rewrite Hhook. simpl.
    replace (IsWriter (set_world _ w2)) with (IsWriter arc) by done.
    rewrite Hw. subst arc2. unfold entered_scope.
    destruct (operator_shl_Primitive _ _) as [[prm arc3]| |]; [|done..].
    destruct (IsReader arc3 && is_nullptr p).
    - destruct (InstantiateAbstractObject _ _) as [[p1 arc4]| |]; [|done..].
      destruct p1 as [a1|]; [destruct (Serialize_at a1 arc4) as [[[] arc5]| |]|]; try done;
        unfold callParamEnd; simpl;
        by destruct (PopParameter _ _) as [[[] ?]| |].
    - destruct (negb (is_nullptr p)).
      + destruct (equal_to _ _); [|done].
        destruct p as [a1|]; [destruct (Serialize_at a1 arc3) as [[[] arc5]| |]|]; try done;
          unfold callParamEnd; simpl;
          by destruct (PopParameter _ _) as [[[] ?]| |].
      + destruct p as [a1|]; [destruct (Serialize_at a1 arc3) as [[[] arc5]| |]|]; try done;
          unfold callParamEnd; simpl;
          by destruct (PopParameter _ _) as [[[] ?]| |]. }
  split.
  - intros a -> TypeCopy leave.
    assert (Hsome : forall F0 : Factory W T,
      operator_shl_AbstractPtr (V := V) (F := F0) rParam arc =
        match operator_shl_Primitive
                (SerialParameter "Type" TypeCopy local_Type_addr SH_Attribute ObjectType_zero)
                arc2 with
        | Ok (prm, arc3) =>
            if equal_to (rValue prm) TypeCopy
            then (Serialize_at (V := V) a;; callParamEnd;;
                  PopParameter (ST := ptr_SerialTraits) leave;; mret leave) arc3
            else AssertFail
        | AssertFail => AssertFail
        | Undefined => Undefined
        end).
    { intros F0. rewrite Hrun. run. fold TypeCopy.
      destruct (operator_shl_Primitive _ arc2) as [[prm arc3]| |]; [|done..].
      rewrite andb_false_r. simpl.
      by destruct (equal_to _ _). }
    split; [apply Hsome|]. intros F'. by rewrite !Hsome.
  - intros -> Hr. rewrite Hrun. run.
    destruct (operator_shl_Primitive _ arc2) as [[prm arc3]| |] eqn:E; [|done..].
    apply operator_shl_Primitive_flags in E. simpl in E.
    unfold IsReader in *. rewrite E. subst arc2. simpl. rewrite Hr. simpl.
    done.
Qed.

End ArchiveEngine.

(** *** The statements, run on the fixture *)

Section ArchiveOnFixture.
Import Archive Fixture.
Local Open Scope Z_scope.

Lemma C1_default_omission_witness :
  (ShouldSerializeParameter FileVer (archive AF_Writer 2 true) = false /\
   operator_shl_Primitive FileVer (archive AF_Writer 2 true)
     = Ok (FileVer, archive AF_Writer 2 true)) /\
  (exists arc', operator_shl_Primitive (set_rValue FileVer 9) (archive AF_Reader 2 false)
                  = Ok (set_rValue FileVer 0, arc') /\
                rValue (set_rValue FileVer 0) = 0).
Proof.
  destruct (C1_default_omission (W := World) FileVer 0) as (Hw & Hr & _);
    [reflexivity..|].
  split.
  - apply Hw; reflexivity.
  - apply Hr; reflexivity.
Defined.

Lemma C5_FindParentObject_witness :
  FindParentObject (V := Z) three_frames = Some 200.
Proof.
  destruct (C5_FindParentObject (V := Z) three_frames) as (Hsome & _ & _).
  - vm_compute. discriminate.
  - apply Hsome. exists 0%nat, (SParmStackEntry.mk 32 4 200 0).
    repeat split; [simpl; lia|].
    intros [|[|j]] e' Hj Hlen; simpl in *; try lia.
    intros [= <-]. simpl. discriminate.
Defined.

Lemma C6_legacy_Type_tag_reader_only_witness :
  operator_shl_MemberPtr (V := unit) (Obj (Some 7)) (archive AF_Reader eArVer_Initial true) =
    (operator_shl_Primitive (ST := u32_SerialTraits) legacy_Type_parameter;;
     pointee_scope (Serialize_at (V := unit)) (Obj (Some 7)))
      (entered_scope (Obj (Some 7)) (true, ["Obj"]) (archive AF_Reader eArVer_Initial true)).
Proof.
  pose proof (fun H1 H2 H3 =>
                C6_legacy_Type_tag_reader_only (W := World) (Obj (Some 7))
                  (archive AF_Reader eArVer_Initial true) (true, ["Obj"])
                  H1 H2 H3 (V := unit) (P := Z)) as Hthm.
  destruct Hthm as (Hreader & _); [reflexivity..|].
  apply Hreader; reflexivity.
Defined.

(** C6, refuted as stated.  A Writer under the oldest archive version
    serializes a non-null pointer to a polymorphic class: the entries it
    begins are ["Obj"] alone, so no "Type" tag is written, by any of the
    three operators. *)
Lemma C6_counterexample_writer :
  let arc := archive AF_Writer eArVer_Initial true in
  ArchiveVersion arc < eArVer_Refactor /\ pointee_is_polymorphic = true /\
  (forall r, r = operator_shl_PrimitivePtr (V := Z) (Obj (Some 7)) arc \/
             r = operator_shl_GlobalPtr (V := unit) (Obj (Some 7)) arc \/
             r = operator_shl_MemberPtr (V := unit) (Obj (Some 7)) arc ->
     r = Ok (Obj (Some 7), set_world arc (true, ["Obj"]))) /\
  ~ In "Type" (snd (world (set_world arc (true, ["Obj"])))).
Proof.
  repeat split.
  - intros r [-> | [-> | ->]]; reflexivity.
  - simpl. intros [H | []]. discriminate.
Qed.

(** C7, at the failing input.  A Writer is handed a null pointer.  The
    Primitive and the Global pointer operators fail their assertion.  The
    Member pointer operator has no such assertion: it begins and ends the
    entry "Obj" with nothing in it and returns.  The operator for abstract
    classes has none either and calls [Type()] through the null pointer. *)
Theorem C7_null_pointer_in_writer :
  let arc := archive AF_Writer skCurrentArchiveVersion true in
  operator_shl_PrimitivePtr (V := Z) (Obj None) arc = AssertFail /\
  operator_shl_GlobalPtr (V := unit) (Obj None) arc = AssertFail /\
  operator_shl_MemberPtr (V := unit) (Obj None) arc
    = Ok (Obj None, set_world arc (true, ["Obj"])) /\
  operator_shl_AbstractPtr (V := unit) (T := Z) (Obj None) arc = Undefined.
Proof. repeat split. Qed.

Lemma C10_existing_object_reused_witness :
  let arc := archive AF_Reader skCurrentArchiveVersion true in
  operator_shl_AbstractPtr (V := unit) (T := Z) (Obj (Some 7)) arc
    = Ok (Obj (Some 7), set_world arc (true, ["Obj"; "Type"])) /\
  forall F' : Factory World Z,
    operator_shl_AbstractPtr (V := unit) (T := Z) (F := F') (Obj (Some 7)) arc
    = operator_shl_AbstractPtr (V := unit) (T := Z) (Obj (Some 7)) arc.
Proof.
  intros arc.
  destruct (C10_existing_object_reused (W := World) (T := Z) (V := unit)
              factory (Obj (Some 7)) arc (true, ["Obj"]) (true, ["Obj"]) (Some 7))
    as (Hsome & _); [reflexivity..|].
  destruct (Hsome 7 eq_refl) as (Hrun & Hfactory).
  split; [rewrite Hrun; reflexivity | exact Hfactory].
Defined.

End ArchiveOnFixture.

(** * Part II, proved: the resource store *)

Section ResourceStoreProofs.
Import Store.
Local Open Scope Z_scope.
Context {D E F : Type} `{!Collaborators D E F}.
Implicit Type s : CResourceStore D E.

(** *** Dirty flags *)


(** *** Registration *)

Lemma FindEntry_Some rkID s pEntry :
  FindEntry rkID s = Some pEntry ->
  pEntry = rkID /\ IsValid rkID = true /\ is_Some (mResourceEntries s !! rkID).
Proof.
  unfold FindEntry. destruct (IsValid rkID); simpl; [|done].
  destruct (mResourceEntries s !! rkID) eqn:He; [|done].
  intros [= <-]. eauto.
Qed.



(** *** Loading through a transient entry *)

(** Deleting an entry that is not loaded takes it out of its directory and
    out of the entries. *)
Lemma DeleteResourceEntry_unloaded pEntry e s :
  mResourceEntries s !! pEntry = Some e -> mpResource e = None -> mID e = pEntry ->
  DeleteResourceEntry pEntry s =
    Ok (true,
        set_mResourceEntries
          (match mpDirectory e with
           | Some d => set_dirs s (RemoveChildResource d pEntry (dirs s))
           | None => s
           end)
          (delete pEntry (mResourceEntries s))).
Proof.
  intros He Hr Hid. unfold DeleteResourceEntry, deref, IsLoaded, Directory, ID. run.
  rewrite He. simpl. rewrite Hr, Hid.
  destruct (mpDirectory e); simpl; rewrite ?He; simpl;
    rewrite ?bool_decide_eq_true_2 by eauto; done.
Qed.

(** C8, as amended.  [LoadResource] by id and type hint, on a valid id that
    is neither loaded nor registered, with a known type: the transient entry
    is synthesized under the random id drawn.  [LoadResource] by an absolute
    path, with a known extension and a file that opens, when [FindEntry] does
    not find the id derived from the path: the transient entry is synthesized
    under that id.  In both, when the cooked load fails the call returns
    none, the synthesized entry is deleted, and the loaded-map and the
    transient load directory are what they were before the call.  The
    entries are those of before without the id of the synthesized entry:
    they are what they were before the call when that id was no key of
    theirs. *)
Theorem C8_failed_load_rolls_back s :
  (forall rkID rkType,
     let Type_ := TypeForCookedExtension (mGame s) rkType in
     let id := (RandomID (env s)).1 in
     let Name_ := ToString rkID in
     let linked := link_directory (mTransientLoadDir s) true id (mTransientRoots s, dirs s) in
     let Path := mTransientLoadDir s +:+ Name_ +:+ "." +:+ rkType in
     IsValid rkID = true ->
     mLoadedResources s !! rkID = None ->
     FindEntry rkID s = None ->
     Type_ <> eInvalidResType ->
     LoadCooked (mkEntry None id Type_ linked.1 Name_ eREF_Transient) Path
       (RandomID (env s)).2 = None ->
     exists s', LoadResource rkID rkType s = Ok (None, s') /\
       mResourceEntries s' = delete id (mResourceEntries s) /\
       (mResourceEntries s !! id = None -> mResourceEntries s' = mResourceEntries s) /\
       mLoadedResources s' = mLoadedResources s /\
       mTransientLoadDir s' = mTransientLoadDir s) /\
  (forall rkPath,
     let Dir := MakeAbsolute (GetFileDirectory rkPath) in
     let Name_ := GetFileName rkPath false in
     let ID_ := if IsHexString Name_ then ToInt64 Name_ else Hash64 rkPath in
     let Type_ := TypeForCookedExtension (mGame s) (ToUpper (GetFileExtension rkPath)) in
     let linked := link_directory Dir true ID_ (mTransientRoots s, dirs s) in
     IsAbsolute rkPath = true ->
     mLoadedResources s !! ID_ = None ->
     Type_ <> eInvalidResType ->
     FileIsValid rkPath (env s) = true ->
     FindEntry ID_ s = None ->
     LoadCooked (mkEntry None ID_ Type_ linked.1 Name_ eREF_Transient) rkPath (env s) = None ->
     exists s', LoadResource_path rkPath s = Ok (None, s') /\
       mResourceEntries s' = delete ID_ (mResourceEntries s) /\
       (mResourceEntries s !! ID_ = None -> mResourceEntries s' = mResourceEntries s) /\
       mLoadedResources s' = mLoadedResources s /\
       mTransientLoadDir s' = mTransientLoadDir s).
Proof.
  split.
  - intros rkID rkType Type_ id Name_ linked Path Hvalid Hloaded Hfind Htype Hfail.
    unfold LoadResource. rewrite Hvalid. simpl. run. rewrite Hloaded, Hfind.
    fold Type_. destruct (Z.eqb_spec Type_ eInvalidResType) as [|_]; [done|]. simpl.
    unfold RegisterTransientResource, new_CResourceEntry, assign. run.
    subst id linked. destruct (RandomID (env s)) as [id en]. simpl in *.
    destruct (link_directory _ _ _ _) as [pDir [roots d]] eqn:Hlink. simpl in *.
    unfold Entry_LoadCooked, deref, ID. run. simpl.
    rewrite lookup_insert_eq. fold Name_ Path.
    cbn [env set_mResourceEntries set_dirs set_mTransientRoots set_env]. rewrite Hfail.
    erewrite DeleteResourceEntry_unloaded;
      [|simpl; apply lookup_insert_eq|done|done].
    eexists. split; [reflexivity|]. simpl.
    rewrite delete_insert_eq.
    destruct pDir; simpl; (split; [done|]); (split; [|done]);
      intros Hfresh; by rewrite delete_id.
  - intros rkPath Dir Name_ ID_ Type_ linked Habs Hloaded Htype Hfile Hfind Hfail.
    unfold LoadResource_path. rewrite Habs. simpl. run.
    fold Dir Name_ ID_. rewrite Hloaded. fold Type_.
    destruct (Z.eqb_spec Type_ eInvalidResType) as [|_]; [done|].
    rewrite Hfile. simpl.
    unfold RegisterTransientResource_ID. run.
    replace (FindEntry ID_ (set_mTransientLoadDir s Dir)) with (FindEntry ID_ s) by done.
    rewrite Hfind.
    unfold new_CResourceEntry, assign. run. simpl.
    subst linked. destruct (link_directory _ _ _ _) as [pDir [roots d]] eqn:Hlink.
    simpl in *.
    unfold Entry_LoadCooked, deref. run. simpl.
    rewrite lookup_insert_eq.
    cbn [env set_mResourceEntries set_dirs set_mTransientRoots set_mTransientLoadDir].
    rewrite Hfail.
    erewrite DeleteResourceEntry_unloaded;
      [|simpl; apply lookup_insert_eq|done|done].
    eexists. split; [reflexivity|]. simpl.
    rewrite delete_insert_eq.
    destruct pDir; simpl; (split; [done|]); (split; [|done]);
      intros Hfresh; by rewrite delete_id.
Qed.

(** *** The cache file *)

Lemma LoadEntryCache_Ok CacheFile Version ID_ pos s :
  exists s', LoadEntryCache CacheFile Version ID_ pos s = Ok (tt, s').
Proof.
  unfold LoadEntryCache, deref, assign. run.
  destruct (FindEntry ID_ s) as [pEntry|] eqn:Hfind; [|eauto].
  apply FindEntry_Some in Hfind as (-> & _ & [e He]). rewrite He.
  destruct (negb (IsTransient e)); [|eauto].
  destruct (ReaderParamBegin _ _ _) as [[|] pos']; eauto.
Qed.

Lemma LoadEntryCache_skip CacheFile Version ID_ pos s :
  FindEntry ID_ s = None \/
  (exists e, mResourceEntries s !! ID_ = Some e /\ IsTransient e = true) ->
  LoadEntryCache CacheFile Version ID_ pos s = Ok (tt, s).
Proof.
  unfold LoadEntryCache, deref. run. intros [Hfind | (e & He & Ht)].
  - by rewrite Hfind.
  - destruct (FindEntry ID_ s) as [pEntry|] eqn:Hfind; [|done].
    apply FindEntry_Some in Hfind as (-> & _ & _). by rewrite He, Ht.
Qed.

Lemma LoadCacheFile_loop_records CacheFile Version n : forall pos s,
  Forall (fun r => 0 <= r.1.2 + r.2 < 2^32)
    (cache_records CacheFile (sv_Game Version) n pos) ->
  exists pos' s',
    LoadCacheFile_loop CacheFile Version n pos s = Ok (pos', s') /\
    for_each (fun r => LoadEntryCache CacheFile Version r.1.1 r.1.2)
      (cache_records CacheFile (sv_Game Version) n pos) s = Ok (tt, s').
Proof.
  induction n as [|n IH]; intros pos s Hrange; simpl.
  - by eexists _, _.
  - simpl in Hrange. unfold LoadCacheFile_record.
    destruct (ReadAssetID _ _ _) as [id p1].
    destruct (ReadLong _ _) as [len p2].
    apply Forall_cons in Hrange as [Hend Hrange]. simpl in Hend.
    destruct (LoadEntryCache_Ok CacheFile Version id p2 s) as [s1 Hs1].
    run. simpl. rewrite Hs1.
    rewrite Z.mod_small by lia.
    destruct (IH (p2 + len) s1 Hrange) as (pos' & s' & Hloop & Heach).
    exists pos', s'. split; [done|]. run. by rewrite Hs1.
Qed.

(** C2. A cache file that opens and carries the magic "CACH", every record
    of which ends below 2^32, the range of the [u32] the end offset is kept
    in.  [LoadCacheFile] returns true, and it has loaded every record of the
    layout [count × [id][u32 length][payload]] from its own payload offset,
    in order: the offsets depend on the declared lengths alone, not on the
    store nor on how much of a payload was read.  A record whose id
    [FindEntry] does not find, or whose entry is transient, changes nothing
    and the records after it are loaded all the same. *)
Theorem C2_cache_skip_tolerance s CacheFile :
  let header := ReadFourCC CacheFile 0 in
  let version := ReadSerialVersion CacheFile header.2 in
  let count := ReadLong CacheFile version.2 in
  let records :=
    cache_records CacheFile (sv_Game version.1) (Z.to_nat count.1) count.2 in
  OpenCacheFileIn (env s) = Some CacheFile ->
  header.1 = "CACH" ->
  Forall (fun r => 0 <= r.1.2 + r.2 < 2^32) records ->
  (exists s',
     LoadCacheFile s = Ok (true, s') /\
     for_each (fun r => LoadEntryCache CacheFile version.1 r.1.1 r.1.2) records s
       = Ok (tt, s')) /\
  (forall ID_ pos s0,
     FindEntry ID_ s0 = None \/
     (exists e, mResourceEntries s0 !! ID_ = Some e /\ IsTransient e = true) ->
     LoadEntryCache CacheFile version.1 ID_ pos s0 = Ok (tt, s0)).
Proof.
  intros header version count records Hopen Hmagic Hrange.
  split; [|intros; by apply LoadEntryCache_skip].
  unfold LoadCacheFile. run. rewrite Hopen.
  subst header version count records.
  destruct (ReadFourCC CacheFile 0) as [Magic p0]. simpl in *. subst Magic. simpl.
  destruct (ReadSerialVersion CacheFile p0) as [Version p1]. simpl in *.
  destruct (ReadLong CacheFile p1) as [NumResources p2]. simpl in *.
  destruct (LoadCacheFile_loop_records CacheFile Version (Z.to_nat NumResources) p2 s Hrange)
    as (pos' & s' & Hloop & Heach).
  rewrite Hloop. eauto.
Qed.

(** *** Garbage collection *)

Lemma drop_references_0 e : drop_references 0 e = e.
Proof.
  unfold drop_references. destruct e as [[[c refs]|] ? ? ? ? ?]; simpl; [|done].
  by rewrite Z.sub_0_r.
Qed.

Lemma drop_references_add n m e :
  drop_references n (drop_references m e) = drop_references (n + m) e.
Proof.
  unfold drop_references. destruct e as [[[c refs]|] ? ? ? ? ?]; simpl; [|done].
  unfold set_mpResource. simpl. do 3 f_equal. lia.
Qed.

Lemma drop_references_unloaded n e : mpResource e = None -> drop_references n e = e.
Proof. unfold drop_references. by intros ->. Qed.

Lemma drop_references_loaded n e r :
  mpResource e = Some r ->
  mpResource (drop_references n e) = Some (mkResource (mRefCount r - n) (mReferences r)).
Proof. unfold drop_references. by intros ->. Qed.

Lemma drop_references_mID n e : mID (drop_references n e) = mID e.
Proof. unfold drop_references. by destruct (mpResource e). Qed.

Lemma drop_references_mFlags n e : mFlags (drop_references n e) = mFlags e.
Proof. unfold drop_references. by destruct (mpResource e). Qed.

Lemma held_nonneg j l : 0 <= held j l.
Proof. induction l as [|x l IH]; simpl; [done|]. destruct (decide (x = j)); lia. Qed.

Lemma held_elem j l : j ∈ l -> 1 <= held j l.
Proof.
  induction l as [|x l IH]; simpl; [by intros ?%elem_of_nil|].
  pose proof (held_nonneg j l).
  intros [->|Hin]%elem_of_cons.
  - rewrite decide_True by done. lia.
  - specialize (IH Hin). destruct (decide (x = j)); lia.
Qed.

Lemma foldr_Release_lookup (m : gmap Z CResourceEntry) l j :
  foldr Release m l !! j = drop_references (held j l) <$> m !! j.
Proof.
  induction l as [|x l IH]; simpl.
  - destruct (m !! j); simpl; [|done]. by rewrite drop_references_0.
  - unfold Release at 1. rewrite lookup_alter.
    destruct (decide (x = j)) as [->|Hne].
    + rewrite IH. destruct (m !! j); simpl; [|done].
      by rewrite drop_references_add.
    + rewrite IH. by rewrite Z.add_0_l.
Qed.

Lemma Unload_unreferenced k e r s :
  mResourceEntries s !! k = Some e -> mpResource e = Some r -> IsReferenced r = false ->
  Unload k s =
    Ok (true, set_mResourceEntries s
                (foldr Release (<[k := set_mpResource e None]> (mResourceEntries s))
                   (mReferences r))).
Proof.
  intros He Hr Href. unfold Unload, deref. run. by rewrite He, Hr, Href.
Qed.

Lemma visit_referenced k e r It n s :
  mResourceEntries s !! k = Some e -> mpResource e = Some r -> IsReferenced r = true ->
  scan_loaded ((k, k) :: It) n s = scan_loaded It n s.
Proof.
  intros He Hr Href. simpl. unfold deref, Resource. run. by rewrite He, Hr, Href.
Qed.

Lemma visit_unreferenced k e r s :
  mResourceEntries s !! k = Some e -> mpResource e = Some r -> mID e = k ->
  IsReferenced r = false ->
  exists s',
    (forall It n, scan_loaded ((k, k) :: It) n s = scan_loaded It ((n + 1) mod 2^32) s') /\
    mLoadedResources s' = delete k (mLoadedResources s) /\
    (forall j, j <> k ->
       mResourceEntries s' !! j
         = drop_references (held j (mReferences r)) <$> mResourceEntries s !! j) /\
    mResourceEntries s' !! k = (if IsTransient e then None else Some (set_mpResource e None)).
Proof.
  intros He Hr Hid Href.
  set (entries2 := foldr Release (<[k := set_mpResource e None]> (mResourceEntries s))
                     (mReferences r)).
  set (s2 := set_mLoadedResources (set_mResourceEntries s entries2)
               (delete k (mLoadedResources s))).
  assert (Hk2 : entries2 !! k = Some (set_mpResource e None)).
  { unfold entries2. rewrite foldr_Release_lookup, lookup_insert_eq. simpl.
    by rewrite drop_references_unloaded. }
  assert (Hj2 : forall j, j <> k ->
            entries2 !! j = drop_references (held j (mReferences r)) <$> mResourceEntries s !! j).
  { intros j Hj. unfold entries2. by rewrite foldr_Release_lookup, lookup_insert_ne. }
  destruct (IsTransient e) eqn:Ht.
  - pose proof (DeleteResourceEntry_unloaded k (set_mpResource e None) s2 Hk2 eq_refl Hid)
      as Hdel.
    eexists. split; [|split; [|split]].
    + intros It n. simpl. unfold deref, Resource. run. rewrite He, Hr, Href. simpl.
      rewrite (Unload_unreferenced k e r s He Hr Href). simpl.
      rewrite Ht. fold entries2. fold s2. rewrite Hdel. reflexivity.
    + simpl. by destruct (mpDirectory e).
    + intros j Hj. simpl. rewrite lookup_delete_ne by done. by apply Hj2.
    + simpl. by rewrite lookup_delete_eq.
  - exists s2. split; [|split; [|split]].
    + intros It n. simpl. unfold deref, Resource. run. rewrite He, Hr, Href. simpl.
      rewrite (Unload_unreferenced k e r s He Hr Href). simpl.
      by rewrite Ht.
    + done.
    + intros j Hj. by apply Hj2.
    + done.
Qed.

Lemma evolves_refl s : store_wf s -> evolves s s.
Proof.
  intros Hwf. split; [done|]. split; [done|]. split; [|split].
  - intros k p e Hl He.
    destruct Hwf as [Hw1 _]. destruct (Hw1 k p Hl) as (_ & e' & r & He' & Hr).
    assert (e' = e) as -> by congruence.
    exists e, r, r. repeat split; done.
  - intros k p e0 Hl _ Hn. congruence.
  - intros k p e0 r0 j q e r Hl Hn. congruence.
Qed.

(** Unloading one unreferenced payload keeps the store within [evolves]. *)
Lemma evolves_step s0 s s' k e r :
  evolves s0 s ->
  mLoadedResources s !! k = Some k ->
  mResourceEntries s !! k = Some e -> mpResource e = Some r ->
  mLoadedResources s' = delete k (mLoadedResources s) ->
  (forall j, j <> k ->
     mResourceEntries s' !! j
       = drop_references (held j (mReferences r)) <$> mResourceEntries s !! j) ->
  mResourceEntries s' !! k = (if IsTransient e then None else Some (set_mpResource e None)) ->
  evolves s0 s'.
Proof.
  intros ([Hw1 Hw2] & Hsub & Hkeep & Hgone & Hdrop) Hlk He Hr Hl' Hj' Hk'.
  assert (Hloaded' : forall j p, mLoadedResources s' !! j = Some p ->
            j <> k /\ mLoadedResources s !! j = Some p).
  { intros j p. rewrite Hl'. by intros [? ?]%lookup_delete_Some. }
  split; [split|split; [|split; [|split]]].
  - intros j p [Hne Hl]%Hloaded'.
    destruct (Hw1 j p Hl) as (-> & ej & rj & Hej & Hrj). split; [done|].
    exists (drop_references (held j (mReferences r)) ej). eexists.
    rewrite Hj', Hej by done. split; [done|]. by apply drop_references_loaded.
  - intros j ej. destruct (decide (j = k)) as [->|Hne].
    + rewrite Hk'. destruct (IsTransient e); [done|]. intros [= <-]. simpl. by apply Hw2.
    + rewrite Hj' by done. destruct (mResourceEntries s !! j) as [ej0|] eqn:Hej; [|done].
      simpl. intros [= <-]. rewrite drop_references_mID. by apply Hw2.
  - intros j p [_ Hl]%Hloaded'. by apply Hsub.
  - intros j p ej [Hne Hl]%Hloaded'. rewrite Hj' by done.
    destruct (mResourceEntries s !! j) as [ej0|] eqn:Hej; [|done]. simpl. intros [= <-].
    destruct (Hkeep j p ej0 Hl Hej) as (e0 & r0 & rj & He0 & Hr0 & Hrj & Hfl & Hrefs & Hcnt).
    exists e0, r0. eexists. split; [done|]. split; [done|].
    split; [by apply drop_references_loaded|]. simpl.
    rewrite drop_references_mFlags. repeat split; try done.
    pose proof (held_nonneg j (mReferences r)). lia.
  - intros j p e0 Hl0 He0 Hn'. destruct (decide (j = k)) as [->|Hne].
    + rewrite Hk'. destruct (IsTransient e) eqn:Ht; [done|]. split; [done|].
      destruct (Hkeep k k e Hlk He) as (e0' & r0 & rk & He0' & _ & _ & Hfl & _).
      assert (e0' = e0) as -> by congruence.
      unfold IsTransient in *. by rewrite <- Hfl.
    + assert (Hn : mLoadedResources s !! j = None).
      { rewrite Hl', lookup_delete_ne in Hn' by done. done. }
      specialize (Hgone j p e0 Hl0 He0 Hn). rewrite Hj' by done.
      destruct (mResourceEntries s !! j) as [ej0|]; [|done]. simpl.
      destruct Hgone as [Hnone Ht]. by rewrite drop_references_unloaded.
  - intros i p e0 r0 j q ej rj Hl0 Hn' He0 Hr0 Hin Hji [Hjk Hlj]%Hloaded'.
    rewrite Hj' by done.
    destruct (mResourceEntries s !! j) as [ej0|] eqn:Hej; [|done]. simpl. intros [= <-].
    destruct (Hkeep j q ej0 Hlj Hej)
      as (e0j & r0j & rj0 & He0j & Hr0j & Hrj0 & _ & _ & Hcnt).
    rewrite (drop_references_loaded _ _ _ Hrj0). intros [= <-]. simpl.
    pose proof (held_nonneg j (mReferences r)) as Hnn.
    destruct (decide (i = k)) as [->|Hik].
    + destruct (Hkeep k k e Hlk He) as (e0' & r0' & rk & He0' & Hr0' & Hrk & _ & Hrefs & _).
      assert (e0' = e0) as -> by congruence.
      assert (r0' = r0) as -> by congruence.
      assert (rk = r) as -> by congruence.
      rewrite <- Hrefs in Hin. apply held_elem in Hin.
      exists e0j, r0j. repeat split; try done. lia.
    + assert (Hn : mLoadedResources s !! i = None).
      { rewrite Hl', lookup_delete_ne in Hn' by done. done. }
      destruct (Hdrop i p e0 r0 j q ej0 rj0 Hl0 Hn He0 Hr0 Hin Hji Hlj Hej Hrj0)
        as (e0' & r0' & He0' & Hr0' & Hle).
      exists e0', r0'. repeat split; try done. lia.
Qed.

Lemma scan_loaded_spec s0 It : forall n s,
  evolves s0 s ->
  NoDup It.*1 ->
  (forall k p, (k, p) ∈ It -> mLoadedResources s !! k = Some p) ->
  0 <= n < 2^32 ->
  exists s' (removed : nat),
    scan_loaded It n s = Ok ((n + Z.of_nat removed) mod 2^32, s') /\
    evolves s0 s' /\
    (size (mLoadedResources s') + removed = size (mLoadedResources s))%nat /\
    (removed = 0%nat -> s' = s /\
       forall k p e r, (k, p) ∈ It -> mResourceEntries s !! k = Some e ->
         mpResource e = Some r -> IsReferenced r = true).
Proof.
  induction It as [|[k p] It IH]; intros n s Hev Hnd Hin Hn.
  - exists s, 0%nat. simpl. rewrite Z.add_0_r, Z.mod_small by done.
    split; [done|]. split; [done|]. split; [lia|]. intros _. split; [done|].
    intros k' p' e r ?%elem_of_nil. done.
  - pose proof Hev as ([Hw1 Hw2] & _).
    assert (Hlk : mLoadedResources s !! k = Some p) by (apply Hin; left).
    destruct (Hw1 k p Hlk) as (-> & e & r & He & Hr).
    apply NoDup_cons in Hnd as [Hnotin Hnd]. simpl in Hnotin.
    destruct (IsReferenced r) eqn:Href.
    + rewrite (visit_referenced k e r It n s He Hr Href).
      destruct (IH n s Hev Hnd) as (s' & removed & Hrun & Hev' & Hsize & Hzero);
        [intros; apply Hin; by right|done|].
      exists s', removed. split; [done|]. split; [done|]. split; [done|].
      intros Hrem. destruct (Hzero Hrem) as [-> Hall]. split; [done|].
      intros k' p' e' r' [[= -> ->]|Hin']%elem_of_cons He' Hr'.
      * congruence.
      * by eapply Hall.
    + destruct (visit_unreferenced k e r s He Hr (Hw2 k e He) Href)
        as (s1 & Hvisit & Hl1 & Hj1 & Hk1).
      rewrite Hvisit.
      assert (Hev1 : evolves s0 s1) by (eapply evolves_step; eauto).
      destruct (IH ((n + 1) mod 2^32) s1 Hev1 Hnd) as (s' & removed & Hrun & Hev' & Hsize & _).
      { intros k' p' Hin'. rewrite Hl1, lookup_delete_ne.
        - apply Hin. by right.
        - intros <-. apply Hnotin. apply list_elem_of_fmap. by exists (k, p'). }
      { apply Z.mod_pos_bound. lia. }
      exists s', (Datatypes.S removed). split; [|split; [done|split; [|done]]].
      * rewrite Hrun. do 2 f_equal. rewrite Zplus_mod_idemp_l. f_equal. lia.
      * rewrite Hl1, map_size_delete_Some in Hsize by eauto.
        assert (size (mLoadedResources s) <> 0%nat)
          by (eapply map_size_ne_0_lookup_2; eauto).
        lia.
Qed.

Lemma in_order_elem {A} (m : gmap Z A) k x : (k, x) ∈ in_order m <-> m !! k = Some x.
Proof. unfold in_order. rewrite merge_sort_Permutation. apply elem_of_map_to_list. Qed.

Lemma in_order_NoDup {A} (m : gmap Z A) : NoDup (in_order m).*1.
Proof. unfold in_order. rewrite merge_sort_Permutation. apply NoDup_fst_map_to_list. Qed.

Lemma scan_pass_spec s0 s :
  evolves s0 s ->
  Z.of_nat (size (mLoadedResources s)) < 2^32 ->
  exists s' (removed : nat),
    scan_pass s = Ok (Z.of_nat removed, s') /\
    evolves s0 s' /\
    (size (mLoadedResources s') + removed = size (mLoadedResources s))%nat /\
    (removed = 0%nat -> s' = s /\ all_referenced s).
Proof.
  intros Hev Hsize.
  destruct (scan_loaded_spec s0 (in_order (mLoadedResources s)) 0 s Hev)
    as (s' & removed & Hrun & Hev' & Hsz & Hzero).
  { apply in_order_NoDup. }
  { intros k p. apply in_order_elem. }
  { lia. }
  exists s', removed. split; [|split; [done|split; [done|]]].
  - unfold scan_pass. run. rewrite Hrun. rewrite Z.add_0_l, Z.mod_small by lia. done.
  - intros Hr. destruct (Hzero Hr) as [-> Hall]. split; [done|].
    intros k p e r Hl. apply (Hall k p). by apply in_order_elem.
Qed.

Lemma unload_unreferenced_spec s0 : forall turns s,
  evolves s0 s ->
  (size (mLoadedResources s) < turns)%nat ->
  Z.of_nat (size (mLoadedResources s)) < 2^32 ->
  exists s1,
    unload_unreferenced turns s = Ok (true, s1) /\
    evolves s0 s1 /\ all_referenced s1 /\ scan_pass s1 = Ok (0, s1).
Proof.
  induction turns as [|turns IH]; intros s Hev Hturns Hsize; [lia|].
  destruct (scan_pass_spec s0 s Hev Hsize) as (s' & removed & Hrun & Hev' & Hsz & Hzero).
  simpl. run. rewrite Hrun.
  destruct removed as [|removed].
  - destruct (Hzero eq_refl) as [-> Hall]. simpl.
    exists s. split; [done|]. split; [done|]. split; [done|]. exact Hrun.
  - replace (0 <? Z.of_nat (Datatypes.S removed)) with true by (symmetry; apply Z.ltb_lt; lia).
    apply IH; [done|lia|lia].
Qed.

Lemma destroy_empty_roots_maps (bound : nat) : forall DirIt s r s',
  (length DirIt <= bound)%nat ->
  destroy_empty_roots DirIt s = Ok (r, s') ->
  mResourceEntries s' = mResourceEntries s /\ mLoadedResources s' = mLoadedResources s.
Proof.
  induction bound as [|bound IH]; intros [|pRoot rest] s r s' Hlen; simpl in *;
    try lia; run; try (by intros [= <- <-]).
  destruct (IsEmpty pRoot (dirs s)).
  - destruct rest as [|next rest']; [done|].
    destruct (destroy_empty_roots rest' _) as [[kept s2]| |] eqn:Hrec; [|done..].
    intros [= <- <-]. apply IH in Hrec; [done|simpl in *; lia].
  - destruct (destroy_empty_roots rest s) as [[kept s2]| |] eqn:Hrec; [|done..].
    intros [= <- <-]. apply IH in Hrec; [done|lia].
Qed.

(** The sweep of the transient roots when none of them is empty. *)
Lemma destroy_empty_roots_none DirIt : forall s,
  Forall (fun pRoot => IsEmpty pRoot (dirs s) = false) DirIt ->
  destroy_empty_roots DirIt s = Ok (DirIt, s).
Proof.
  induction DirIt as [|pRoot rest IH]; intros s Hall; simpl; [done|].
  apply Forall_cons in Hall as [Hroot Hrest].
  run. rewrite Hroot. by rewrite IH.
Qed.

(** The sweep of the transient roots when the last of them is the first that
    is empty: the iterator that [erase] returns is [end()], and the loop
    increments it. *)
Lemma destroy_empty_roots_last kept : forall a s,
  Forall (fun pRoot => IsEmpty pRoot (dirs s) = false) kept ->
  IsEmpty a (dirs s) = true ->
  destroy_empty_roots (kept ++ [a]) s = Undefined.
Proof.
  induction kept as [|x kept IH]; intros a s Hall Ha; simpl.
  - run. by rewrite Ha.
  - apply Forall_cons in Hall as [Hx Hall]. run. rewrite Hx.
    by rewrite IH.
Qed.

(** C3.  On a store that satisfies its invariant (with fewer than 2^32
    payloads loaded, the range of the [u32] counter), the [do ... while] of
    [DestroyUnreferencedResources] comes to an end by its own condition, in
    a store [s1] on which a further full scan removes nothing and in which
    every payload still loaded is referenced.  For entries [A] and [B] both
    loaded, [B]'s payload with no reference on it and holding the one
    reference there is on [A]'s payload, neither is in the loaded-map of
    [s1] and neither has a payload left.  Every transient entry that was
    loaded and no longer is has been deleted from the entries.  The call
    then sweeps the transient roots of [s1], and what the call comes to is
    decided there.  When it returns, the two maps are those of [s1]; it
    returns [s1] itself when no transient root is empty; and when the last
    transient root is the first one that is empty, the loop erases it and
    increments the iterator that [erase] handed back, which is [end()]: the
    call has no defined outcome. *)
Theorem C3_GC_fixed_point s :
  store_wf s ->
  Z.of_nat (size (mLoadedResources s)) < 2^32 ->
  exists s1,
    unload_unreferenced (Datatypes.S (size (mLoadedResources s))) s = Ok (true, s1) /\
    scan_pass s1 = Ok (0, s1) /\
    all_referenced s1 /\
    (forall A B eA rA eB rB,
       A <> B ->
       mLoadedResources s !! A = Some A -> mLoadedResources s !! B = Some B ->
       mResourceEntries s !! A = Some eA -> mpResource eA = Some rA ->
       mResourceEntries s !! B = Some eB -> mpResource eB = Some rB ->
       mRefCount rB = 0 -> mRefCount rA = 1 -> A ∈ mReferences rB ->
         mLoadedResources s1 !! A = None /\ mLoadedResources s1 !! B = None /\
         (forall e, mResourceEntries s1 !! A = Some e -> mpResource e = None) /\
         (forall e, mResourceEntries s1 !! B = Some e -> mpResource e = None)) /\
    (forall k p e,
       mLoadedResources s !! k = Some p -> mResourceEntries s !! k = Some e ->
       IsTransient e = true -> mLoadedResources s1 !! k = None ->
         mResourceEntries s1 !! k = None) /\
    (forall finished s',
       DestroyUnreferencedResources s = Ok (finished, s') ->
         finished = true /\
         mResourceEntries s' = mResourceEntries s1 /\
         mLoadedResources s' = mLoadedResources s1) /\
    (Forall (fun pRoot => IsEmpty pRoot (dirs s1) = false) (mTransientRoots s1) ->
       DestroyUnreferencedResources s = Ok (true, s1)) /\
    (forall kept a,
       mTransientRoots s1 = kept ++ [a] ->
       Forall (fun pRoot => IsEmpty pRoot (dirs s1) = false) kept ->
       IsEmpty a (dirs s1) = true ->
       DestroyUnreferencedResources s = Undefined).
Proof.
  intros Hwf Hsize.
  destruct (unload_unreferenced_spec s (Datatypes.S (size (mLoadedResources s))) s)
    as (s1 & Hrun & Hev & Hall & Hfix); [by apply evolves_refl|lia|done|].
  exists s1. split; [done|]. split; [done|]. split; [done|].
  destruct Hev as ([Hw1 Hw2] & Hsub & Hkeep & Hgone & Hdrop).
  assert (Hunloaded : forall k p e0,
            mLoadedResources s !! k = Some p -> mResourceEntries s !! k = Some e0 ->
            mLoadedResources s1 !! k = None ->
            forall e, mResourceEntries s1 !! k = Some e -> mpResource e = None).
  { intros k p e0 Hl He0 Hn e He. specialize (Hgone k p e0 Hl He0 Hn).
    rewrite He in Hgone. tauto. }
  split; [|split; [|split; [|split]]].
  - intros A B eA rA eB rB Hne HlA HlB HeA HrA HeB HrB HcB HcA Hin.
    assert (HnB : mLoadedResources s1 !! B = None).
    { destruct (mLoadedResources s1 !! B) as [p|] eqn:Hl; [|done]. exfalso.
      destruct (Hw1 B p Hl) as (-> & e & r & He & Hr).
      destruct (Hkeep B B e Hl He) as (e0 & r0 & r' & He0 & Hr0 & Hr' & _ & _ & Hcnt).
      assert (e0 = eB) as -> by congruence.
      assert (r0 = rB) as -> by congruence.
      assert (r' = r) as -> by congruence.
      specialize (Hall B B e r Hl He Hr). unfold IsReferenced in Hall.
      apply Z.ltb_lt in Hall. lia. }
    assert (HnA : mLoadedResources s1 !! A = None).
    { destruct (mLoadedResources s1 !! A) as [p|] eqn:Hl; [|done]. exfalso.
      destruct (Hw1 A p Hl) as (-> & e & r & He & Hr).
      destruct (Hdrop B B eB rB A A e r HlB HnB HeB HrB Hin Hne Hl He Hr)
        as (e0 & r0 & He0 & Hr0 & Hcnt).
      assert (e0 = eA) as -> by congruence.
      assert (r0 = rA) as -> by congruence.
      specialize (Hall A A e r Hl He Hr). unfold IsReferenced in Hall.
      apply Z.ltb_lt in Hall. lia. }
    split; [done|]. split; [done|]. split.
    + by eapply Hunloaded.
    + by eapply Hunloaded.
  - intros k p e Hl He Ht Hn. specialize (Hgone k p e Hl He Hn).
    destruct (mResourceEntries s1 !! k); [|done].
    destruct Hgone as [_ Hnt]. congruence.
  - intros finished s'. unfold DestroyUnreferencedResources. run. rewrite Hrun.
    destruct (destroy_empty_roots (mTransientRoots s1) s1) as [[roots s2]| |] eqn:Hsweep;
      [|done..].
    intros [= <- <-]. split; [done|]. simpl.
    by eapply destroy_empty_roots_maps.
  - intros Hnone. unfold DestroyUnreferencedResources. run. rewrite Hrun.
    rewrite destroy_empty_roots_none by done. by destruct s1.
  - intros kept a Hroots Hnone Ha. unfold DestroyUnreferencedResources. run.
    rewrite Hrun, Hroots. by rewrite destroy_empty_roots_last.
Qed.

End ResourceStoreProofs.

(** *** The statements, run on the fixture *)

Section StoreOnFixture.
Import Store StoreFixture.
Local Open Scope Z_scope.

Lemma C2_cache_skip_tolerance_witness :
  exists s',
    LoadCacheFile project = Ok (true, s') /\
    mResourceEntries s' !! 7 = Some (mkEntry None 7 1 None "hero" eREF_HasThumbnail) /\
    mResourceEntries s' !! 9 = None.
Proof.
  destruct (C2_cache_skip_tolerance project cache_file) as [(s' & Hload & Heach) _].
  - reflexivity.
  - reflexivity.
  - replace (cache_records _ _ _ _) with [(9, 24, 2); (7, 34, 1)]
      by (vm_compute; reflexivity).
    repeat (constructor; [simpl; lia|]). constructor.
  - exists s'. split; [exact Hload|].
    vm_compute in Heach. injection Heach as <-. split; reflexivity.
Defined.

Lemma chain_wf : store_wf chain.
Proof.
  split.
  - intros k p Hl. unfold chain, store in Hl. simpl in Hl.
    apply lookup_insert_Some in Hl as [[<- <-]|[_ Hl]].
    { split; [done|]. by eexists _, _. }
    apply lookup_insert_Some in Hl as [[<- <-]|[_ Hl]].
    { split; [done|]. by eexists _, _. }
    by rewrite lookup_empty in Hl.
  - intros k e He. unfold chain, store in He. simpl in He.
    apply lookup_insert_Some in He as [[<- <-]|[_ He]]; [done|].
    apply lookup_insert_Some in He as [[<- <-]|[_ He]]; [done|].
    by rewrite lookup_empty in He.
Defined.

(** C3, at the failing input.  On the store [chain] one call unloads both
    entries and deletes the transient one.  On the same store with one
    transient root that is empty, the [do ... while] does the same, and the
    loop over the roots then erases the only root and increments the
    iterator past the end: the call has no defined outcome. *)
Lemma C3_GC_fixed_point_witness :
  (exists s',
     DestroyUnreferencedResources chain = Ok (true, s') /\
     mLoadedResources s' !! 1 = None /\ mLoadedResources s' !! 2 = None /\
     mResourceEntries s' !! 2 = None) /\
  (exists s1,
     unload_unreferenced (Collaborators0 := MoreStoreFixture.sweeping) 3
       MoreStoreFixture.chain_under_root = Ok (true, s1) /\
     mLoadedResources s1 !! 1 = None /\ mLoadedResources s1 !! 2 = None) /\
  DestroyUnreferencedResources (Collaborators0 := MoreStoreFixture.sweeping)
    MoreStoreFixture.chain_under_root = Undefined.
Proof.
  split; [|split].
  - destruct (C3_GC_fixed_point chain chain_wf)
      as (s1 & Hrun & _ & _ & HAB & Htransient & _ & Hreturns & _).
    { vm_compute. reflexivity. }
    exists s1.
    destruct (HAB 1 2 A_entry (mkResource 1 []) B_entry (mkResource 0 [1]))
      as (HA & HB & _); try reflexivity; [discriminate|apply list_elem_of_here|].
    split; [|split; [exact HA|split; [exact HB|]]].
    + apply Hreturns. vm_compute in Hrun. injection Hrun as <-. apply Forall_nil_2.
    + apply (Htransient 2 2 B_entry); [reflexivity..|exact HB].
  - destruct (@C3_GC_fixed_point unit Env File MoreStoreFixture.sweeping
                MoreStoreFixture.chain_under_root chain_wf)
      as (s1 & Hrun & _ & _ & HAB & _).
    { vm_compute. reflexivity. }
    exists s1. split; [exact Hrun|].
    destruct (HAB 1 2 A_entry (mkResource 1 []) B_entry (mkResource 0 [1]))
      as (HA & HB & _); try reflexivity; [discriminate|apply list_elem_of_here|].
    by split.
  - destruct (@C3_GC_fixed_point unit Env File MoreStoreFixture.sweeping
                MoreStoreFixture.chain_under_root chain_wf)
      as (s1 & Hrun & _ & _ & _ & _ & _ & _ & Hpast).
    { vm_compute. reflexivity. }
    vm_compute in Hrun. injection Hrun as <-.
    apply (Hpast [] 0); [reflexivity|apply Forall_nil_2|reflexivity].
Defined.



Lemma C8_failed_load_rolls_back_witness :
  (exists s', LoadResource 5 "TXTR" project = Ok (None, s') /\
     mResourceEntries s' = mResourceEntries project /\
     mLoadedResources s' = mLoadedResources project) /\
  (exists s', LoadResource_path "/x.TXTR" project = Ok (None, s') /\
     mResourceEntries s' = mResourceEntries project /\
     mLoadedResources s' = mLoadedResources project).
Proof.
  destruct (C8_failed_load_rolls_back project) as [Hid Hpath].
  split.
  - destruct (Hid 5 "TXTR") as (s' & Hrun & _ & He & Hl & _);
      [reflexivity|reflexivity|reflexivity|discriminate|reflexivity|].
    exists s'. split; [exact Hrun|]. split; [|exact Hl]. apply He. reflexivity.
  - destruct (Hpath "/x.TXTR") as (s' & Hrun & _ & He & Hl & _);
      [reflexivity|reflexivity|discriminate|reflexivity|reflexivity|reflexivity|].
    exists s'. split; [exact Hrun|]. split; [|exact Hl]. apply He. reflexivity.
Defined.

(** C8 as it was stated fails when the id drawn is in use.  The store holds
    an entry under the id 100, which is the id the random source hands out
    next.  The load by id of the resource 5 synthesizes its transient entry
    under 100, over the entry that was there; the cooked load fails, the
    synthesized entry is deleted, and the store is left without the entry it
    held under 100 before the call. *)
Lemma C8_counterexample_id_in_use :
  mResourceEntries crowded !! 100 = Some held_entry /\
  (RandomID (env crowded)).1 = 100 /\
  exists s',
    LoadResource 5 "TXTR" crowded = Ok (None, s') /\
    mResourceEntries s' !! 100 = None /\
    mResourceEntries s' <> mResourceEntries crowded.
Proof.
  split; [reflexivity|]. split; [reflexivity|].
  eexists. split; [vm_compute; reflexivity|]. split; [reflexivity|].
  intros Heq. apply (f_equal (fun m => m !! 100)) in Heq. discriminate Heq.
Qed.

End StoreOnFixture.

(** * Part I, continued: the parameter stack and the pointer hook *)

Section ArchiveStack.
Import Archive.
Local Open Scope Z_scope.
Context {W : Type} `{!Backend W} `{!Platform}.

(** What a run of the Primitive operator comes to, call by call. *)
Lemma operator_shl_Primitive_run {V} {ST : SerialTraits V} `{!Primitive W V}
    (rParam : TSerialParameter V) (arc : IArchive W) :
  operator_shl_Primitive rParam arc =
    if attribute_parent arc then AssertFail
    else
      let begun := ParamBegin (pkName rParam) (HintFlags rParam) (world arc) in
      if ShouldSerializeParameter rParam arc then
        if begun.1 then
          let r := SerializePrimitive (rValue rParam) (HintFlags rParam) begun.2 in
          Ok (set_rValue rParam r.1, set_world arc (ParamEnd r.2))
        else
          Ok (if IsReader arc then (InitParameterToDefault rParam).2 else rParam,
              set_world arc begun.2)
      else
        Ok (if IsReader arc then (InitParameterToDefault rParam).2 else rParam, arc).
Proof.
  unfold operator_shl_Primitive. run.
  rewrite PushParameter_run.
  destruct (attribute_parent arc); [done|].
  replace (ShouldSerializeParameter rParam (set_stack arc _))
    with (ShouldSerializeParameter rParam arc) by done.
  assert (Hinit : rValueAddr (InitParameterToDefault rParam).2 = rValueAddr rParam).
  { unfold InitParameterToDefault. destruct (SUPPORTS_DEFAULT_VALUES V); [|done].
    by destruct (pDefaultValue rParam). }
  destruct (ShouldSerializeParameter rParam arc); simpl.
  - unfold callParamBegin. simpl.
    destruct (ParamBegin _ _ _) as [[|] w]; simpl.
    + unfold callSerializePrimitive, callParamEnd. simpl.
      destruct (SerializePrimitive _ _ _) as [v w']. simpl.
      erewrite PopParameter_run by (simpl; reflexivity).
      by destruct arc.
    + replace (IsReader _) with (IsReader arc) by done.
      destruct (IsReader arc); simpl;
        erewrite PopParameter_run by (simpl; done); by destruct arc.
  - replace (IsReader _) with (IsReader arc) by done.
    destruct (IsReader arc); simpl;
      erewrite PopParameter_run by (simpl; done); by destruct arc.
Qed.

(** A run of the Primitive operator that passes the debug check returns,
    with the backend alone changed; a Reader whose [ParamBegin] declines the
    parameter is left with the default. *)
Lemma operator_shl_Primitive_Ok {V} {ST : SerialTraits V} `{!Primitive W V}
    (rParam : TSerialParameter V) (arc : IArchive W) :
  attribute_parent arc = false ->
  exists v w,
    operator_shl_Primitive rParam arc = Ok (set_rValue rParam v, set_world arc w) /\
    (IsReader arc = true ->
     (ParamBegin (pkName rParam) (HintFlags rParam) (world arc)).1 = false ->
     set_rValue rParam v = (InitParameterToDefault rParam).2).
Proof.
  intros Hattr. rewrite operator_shl_Primitive_run, Hattr. cbv zeta.
  assert (Hself : rParam = set_rValue rParam (rValue rParam)) by (by destruct rParam).
  assert (Hinit : (InitParameterToDefault rParam).2
                  = set_rValue rParam (rValue (InitParameterToDefault rParam).2)).
  { unfold InitParameterToDefault. destruct (SUPPORTS_DEFAULT_VALUES V); [|done].
    by destruct (pDefaultValue rParam). }
  assert (Harc : arc = set_world arc (world arc)) by (by destruct arc).
  destruct (ShouldSerializeParameter rParam arc).
  - destruct (ParamBegin _ _ _) as [[|] w1]; simpl.
    + eexists _, _. split; [reflexivity|]. by intros _ ?.
    + destruct (IsReader arc).
      * exists (rValue (InitParameterToDefault rParam).2), w1.
        rewrite <- Hinit. by split.
      * exists (rValue rParam), w1. rewrite <- Hself. by split.
  - destruct (IsReader arc).
    + exists (rValue (InitParameterToDefault rParam).2), (world arc).
      rewrite <- Hinit, <- Harc. by split.
    + exists (rValue rParam), (world arc). rewrite <- Hself, <- Harc. by split.
Qed.

(** X1. The Primitive operator keeps the parameter stack balanced.  It fails
    its assertion exactly when the frame on top of the stack is an attribute
    in a debug build, and never moves past the end of the stack; when it
    returns, the parameter stack is what it was, and of the parameter only
    the value may have changed.  (The value is what the operator writes
    through the reference the parameter holds; where that is a field of the
    archive itself, as in [SerializeVersion], the field changes with it.) *)
Theorem Primitive_operator_stack_discipline {V} {ST : SerialTraits V} `{!Primitive W V}
    (rParam : TSerialParameter V) (arc : IArchive W) :
  (operator_shl_Primitive rParam arc = AssertFail <-> attribute_parent arc = true) /\
  operator_shl_Primitive rParam arc <> Undefined /\
  (forall rParam' arc',
     operator_shl_Primitive rParam arc = Ok (rParam', arc') ->
     mParmStack arc' = mParmStack arc /\
     exists v, rParam' = set_rValue rParam v).
Proof.
  rewrite operator_shl_Primitive_run.
  assert (Hinit : exists v, (InitParameterToDefault rParam).2 = set_rValue rParam v).
  { unfold InitParameterToDefault. destruct (SUPPORTS_DEFAULT_VALUES V).
    - destruct (pDefaultValue rParam) as [d|]; simpl; [by exists d|].
      exists (rValue rParam). by destruct rParam.
    - exists (rValue rParam). by destruct rParam. }
  assert (Hself : exists v, rParam = set_rValue rParam v).
  { exists (rValue rParam). by destruct rParam. }
  destruct (attribute_parent arc).
  - split; [done|]. split; [done|]. intros ? ? [=].
  - cbv zeta.
    destruct (ShouldSerializeParameter rParam arc);
      [destruct (ParamBegin _ _ _) as [[|] w]; simpl|];
      (split; [split; discriminate|]); (split; [discriminate|]);
      intros rParam' arc' [= <- <-]; repeat (split; [done|]);
      try (destruct (IsReader arc); done).
    by eexists.
Qed.

(** X2. The stack discipline composes.  If the [Serialize] function of a
    value type leaves the parameter stack as it found it whenever it returns,
    then so do the Member and the Global operator applied to a field of that
    type. *)
Theorem Member_operator_balanced {V} {ST : SerialTraits V} `{!Serializable W V}
    (rParam : TSerialParameter V) (arc : IArchive W) :
  (forall v a r, Serialize v a = Ok r -> mParmStack r.2 = mParmStack a) ->
  (forall r, operator_shl_Member rParam arc = Ok r -> mParmStack r.2 = mParmStack arc) /\
  (forall r, operator_shl_Global rParam arc = Ok r -> mParmStack r.2 = mParmStack arc).
Proof.
  intros Hbal.
  assert (Hinit : rValueAddr (InitParameterToDefault rParam).2 = rValueAddr rParam).
  { unfold InitParameterToDefault. destruct (SUPPORTS_DEFAULT_VALUES V); [|done].
    by destruct (pDefaultValue rParam). }
  assert (Hboth : forall r, operator_shl_Member rParam arc = Ok r ->
                            mParmStack r.2 = mParmStack arc).
  { intros r. unfold operator_shl_Member. run.
    rewrite PushParameter_run.
    destruct (attribute_parent arc); [done|].
    replace (ShouldSerializeParameter rParam (set_stack arc _))
      with (ShouldSerializeParameter rParam arc) by done.
    destruct (ShouldSerializeParameter rParam arc); simpl.
    - unfold callParamBegin. simpl.
      destruct (ParamBegin _ _ _) as [[|] w]; simpl.
      + destruct (Serialize _ _) as [[v arc1]| |] eqn:E; [|done..].
        apply Hbal in E. simpl in E.
        unfold callParamEnd. simpl.
        erewrite PopParameter_run by (simpl; done).
        by intros [= <-].
      + replace (IsReader _) with (IsReader arc) by done.
        destruct (IsReader arc); simpl;
          erewrite PopParameter_run by (simpl; done); by intros [= <-].
    - replace (IsReader _) with (IsReader arc) by done.
      destruct (IsReader arc); simpl;
        erewrite PopParameter_run by (simpl; done); by intros [= <-]. }
  split; [exact Hboth|]. exact Hboth.
Qed.

(** The block for old archives does nothing when its condition is false. *)
Lemma legacy_Type_tag_off `{!PointerTraits W} `{!Primitive W Z} (arc : IArchive W) :
  (ArchiveVersion arc <? eArVer_Refactor) && IsReader arc && pointee_is_polymorphic = false ->
  legacy_Type_tag arc = Ok (tt, arc).
Proof. intros Hoff. unfold legacy_Type_tag. run. by rewrite Hoff. Qed.

(** X3. A pointer field whose pointer hook refuses.  With the scope of the
    field entered and no tag for old archives to read, [PreSerializePointer]
    returning false makes each of the three non-abstract pointer operators
    end the scope at once: no object is allocated and none is serialized, the
    stack is as it was, and a Reader leaves [nullptr] in the field, whatever
    the field pointed to before, while any other archive leaves the pointer
    the hook handed back. *)
Theorem refused_pointer_field `{!PointerTraits W} `{!Primitive W Z}
    {V} `{!Serializable W V} {P} `{!Primitive W P}
    (rParam : TSerialParameter ptr) (arc : IArchive W) (w1 w2 : W) (p : ptr) :
  attribute_parent arc = false ->
  ShouldSerializeParameter (ST := ptr_SerialTraits) rParam arc = true ->
  ParamBegin (pkName rParam) (HintFlags rParam) (world arc) = (true, w1) ->
  (ArchiveVersion arc <? eArVer_Refactor) && IsReader arc && pointee_is_polymorphic = false ->
  PreSerializePointer (rValue rParam) (HintFlags rParam) w1 = (false, p, w2) ->
  let left := Ok (set_rValue rParam (if IsReader arc then None else p),
                  set_world arc (ParamEnd w2)) in
  operator_shl_MemberPtr (V := V) rParam arc = left /\
  (negb (IsWriter arc) || negb (is_nullptr (rValue rParam)) = true ->
     operator_shl_GlobalPtr (V := V) rParam arc = left /\
     operator_shl_PrimitivePtr (V := P) rParam arc = left).
Proof.
  intros Hattr Hshould Hbegin Hoff Hhook left.
  assert (Hscope : forall f,
    (legacy_Type_tag;; pointee_scope f rParam) (entered_scope rParam w1 arc) = left).
  { intros f. unfold mbind, StateErr_bind, bind at 1.
    rewrite legacy_Type_tag_off by done.
    unfold pointee_scope. run.
    unfold callPreSerializePointer, callParamEnd. simpl. rewrite Hhook. simpl.
    replace (IsReader (set_world _ w2)) with (IsReader arc) by done.
    destruct (IsReader arc); simpl;
      erewrite PopParameter_run by (simpl; done); by destruct arc. }
  split.
  - rewrite (MemberPtr_enter rParam arc w1) by done. apply Hscope.
  - intros Hassert. split.
    + rewrite (GlobalPtr_enter rParam arc w1) by done. apply Hscope.
    + rewrite (PrimitivePtr_enter rParam arc w1) by done. apply Hscope.
Qed.

End ArchiveStack.
(** * Part I, continued: a type the factory does not know *)

Section AbstractPointer.
Import Archive.
Local Open Scope Z_scope.
Context {W : Type} `{!Backend W} `{!Platform}.

(** X29. Reading a pointer to an abstract class when the factory does not
    know the type.  In a Reader that is not a Writer, with the scope of the
    field entered and the pointer null after the hook, the operator reads the
    "Type" attribute and hands it to the [ArchiveConstructor]; when that
    returns [nullptr] the operator serializes no object, fails no assertion
    and returns with the field null and the parameter stack as it was. *)
Theorem unknown_type_leaves_null
    `{!PointerTraits W} {T} {ST : SerialTraits T} `{!Primitive W T} `{!Abstract W T}
    {V} `{!Serializable W V}
    (F : Factory W T) (rParam : TSerialParameter ptr) (arc : IArchive W) (w1 w2 : W) :
  attribute_parent arc = false ->
  DEBUG && flag_set (HintFlags rParam) SH_Attribute = false ->
  ShouldSerializeParameter (ST := ptr_SerialTraits) rParam arc = true ->
  ParamBegin (pkName rParam) (HintFlags rParam) (world arc) = (true, w1) ->
  PreSerializePointer (rValue rParam) (HintFlags rParam) w1 = (true, None, w2) ->
  IsWriter arc = false -> IsReader arc = true ->
  let arc2 := set_world (entered_scope rParam w1 arc) w2 in
  let Type_parameter :=
    SerialParameter "Type" ObjectType_zero local_Type_addr SH_Attribute ObjectType_zero in
  exists Type_ w3,
    operator_shl_Primitive Type_parameter arc2
      = Ok (set_rValue Type_parameter Type_, set_world arc2 w3) /\
    forall w4,
      match Constructor with
      | Basic ArchiveConstructor => ArchiveConstructor Type_ w3
      | Advanced ArchiveConstructor => ArchiveConstructor Type_ (set_world arc2 w3)
      end = (None, w4) ->
      operator_shl_AbstractPtr (V := V) (F := F) rParam arc
        = Ok (set_rValue rParam None, set_world arc (ParamEnd w4)).
Proof.
  intros Hattr Hhint Hshould Hbegin Hhook Hw Hr arc2 Type_parameter.
  assert (Hattr2 : attribute_parent arc2 = false).
  { subst arc2. unfold attribute_parent, entered_scope. simpl.
    rewrite last_snoc. simpl. unfold flag_set in Hhint. exact Hhint. }
  destruct (operator_shl_Primitive_Ok Type_parameter arc2 Hattr2) as (Type_ & w3 & HType & _).
  exists Type_, w3. split; [exact HType|].
  intros w4 Hfactory.
  unfold operator_shl_AbstractPtr. run.
  rewrite PushParameter_run, Hattr.
  replace (ShouldSerializeParameter rParam (set_stack arc _))
    with (ShouldSerializeParameter (ST := ptr_SerialTraits) rParam arc) by done.
  rewrite Hshould. unfold callParamBegin, callPreSerializePointer. simpl.
  rewrite Hbegin. simpl. rewrite Hhook. simpl.
  replace (IsWriter (set_world _ w2)) with (IsWriter arc) by done.
  rewrite Hw.
  change (set_world (set_stack arc (mParmStack arc ++ [Entry (ST := ptr_SerialTraits) rParam])) w2)
    with (set_world (set_world (set_stack arc
            (mParmStack arc ++ [Entry (ST := ptr_SerialTraits) rParam])) w1) w2).
  change (set_world (set_world (set_stack arc
            (mParmStack arc ++ [Entry (ST := ptr_SerialTraits) rParam])) w1) w2) with arc2.
  fold Type_parameter. rewrite HType.
  replace (IsReader (set_world arc2 w3)) with (IsReader arc) by done.
  rewrite Hr. simpl.
  unfold InstantiateAbstractObject, callArchiveConstructor. run.
  replace (IsReader (set_world arc2 w3)) with (IsReader arc) by done.
  rewrite Hr. simpl.
  change (world (set_world arc2 w3)) with w3.
  destruct Constructor as [ArchiveConstructor|ArchiveConstructor];
    rewrite Hfactory; simpl; unfold callParamEnd; simpl;
    erewrite PopParameter_run by (simpl; done); by destruct arc.
Qed.

End AbstractPointer.
(** * Part II, continued: registration, deletion, the cache file, the sweep *)

Section ResourceStoreMore.
Import Store StoreMore.
Local Open Scope Z_scope.
Context {D E F : Type} `{!Collaborators D E F}.
Implicit Type s : CResourceStore D E.

(** X4. Registering and finding.  [RegisterResource] on a valid id that
    [FindEntry] does not find, with a path that [IsValidResourcePath]
    accepts, returns an entry that [FindEntry] finds from then on, and a
    second registration of the id only logs the error for a tracked resource
    and leaves the entries alone. *)
Theorem RegisterResource_then_found rkID Type_ rkDir rkName s :
  IsValid rkID = true ->
  FindEntry rkID s = None ->
  IsValidResourcePath rkDir rkName = true ->
  exists s',
    RegisterResource rkID Type_ rkDir rkName s = Ok (Some rkID, s') /\
    FindEntry rkID s' = Some rkID /\
    IsResourceRegistered rkID s' = true /\
    errors s' = errors s /\
    forall Type2 rkDir2 rkName2, exists s'',
      RegisterResource rkID Type2 rkDir2 rkName2 s' = Ok (Some rkID, s'') /\
      mResourceEntries s'' = mResourceEntries s' /\
      errors s'' = errors s ++
        ["Attempted to register resource that's already tracked in the database: "].
Proof.
  intros Hvalid Hfind Hpath.
  unfold RegisterResource at 1. unfold new_CResourceEntry, assign. run.
  rewrite Hfind, Hpath.
  destruct (link_directory _ _ _ _) as [pDir [roots d]] eqn:Hlink. simpl.
  eexists. split; [reflexivity|].
  assert (Hfound : FindEntry rkID
            (set_mResourceEntries (set_dirs (set_mTransientRoots s roots) d)
               (<[rkID := mkEntry None rkID Type_ pDir rkName 0]> (mResourceEntries s)))
          = Some rkID).
  { unfold FindEntry. rewrite Hvalid. simpl. by rewrite lookup_insert_eq. }
  split; [done|]. split; [unfold IsResourceRegistered; by rewrite Hfound|].
  split; [done|].
  intros Type2 rkDir2 rkName2.
  unfold RegisterResource, deref. run. rewrite Hfound. simpl.
  rewrite lookup_insert_eq. simpl.
  eexists. split; [reflexivity|]. done.
Qed.

(** X5. [RegisterResource] does not look at the validity of the id.  On an
    id that is not valid, [FindEntry] finds nothing, so every call with an
    acceptable path creates an entry and stores it under the id, over
    whatever entry was stored there, without logging anything; and the entry
    it has just stored is still not found by [FindEntry] nor reported by
    [IsResourceRegistered]. *)
Theorem RegisterResource_invalid_id rkID Type_ rkDir rkName s :
  IsValid rkID = false ->
  IsValidResourcePath rkDir rkName = true ->
  exists pDir s',
    RegisterResource rkID Type_ rkDir rkName s = Ok (Some rkID, s') /\
    mResourceEntries s' = <[rkID := mkEntry None rkID Type_ pDir rkName 0]> (mResourceEntries s) /\
    errors s' = errors s /\
    FindEntry rkID s' = None /\
    IsResourceRegistered rkID s' = false.
Proof.
  intros Hvalid Hpath.
  assert (Hfind : forall s0, FindEntry rkID s0 = None).
  { intros s0. unfold FindEntry. by rewrite Hvalid. }
  unfold RegisterResource, new_CResourceEntry, assign. run.
  rewrite Hfind, Hpath.
  destruct (link_directory _ _ _ _) as [pDir [roots d]] eqn:Hlink. simpl.
  eexists pDir, _. split; [reflexivity|].
  split; [done|]. split; [done|].
  unfold IsResourceRegistered. by rewrite Hfind.
Qed.

(** X6. [RegisterTransientResource] with an id is idempotent.  On a valid
    id it returns the entry stored under the id: the one already there, left
    as it is whatever its type and whether or not it is transient, or else a
    new unloaded transient entry; a second call, with any type, directory and
    name, returns the same entry and changes nothing. *)
Theorem RegisterTransientResource_ID_idempotent Type_ rkID rkDir rkFileName s :
  IsValid rkID = true ->
  exists s',
    RegisterTransientResource_ID Type_ rkID rkDir rkFileName s = Ok (rkID, s') /\
    (is_Some (mResourceEntries s !! rkID) -> s' = s) /\
    (mResourceEntries s !! rkID = None ->
       exists pDir,
         mResourceEntries s' =
           <[rkID := mkEntry None rkID Type_ pDir rkFileName eREF_Transient]>
             (mResourceEntries s) /\
         IsTransient (mkEntry None rkID Type_ pDir rkFileName eREF_Transient) = true) /\
    forall Type2 rkDir2 rkFileName2,
      RegisterTransientResource_ID Type2 rkID rkDir2 rkFileName2 s' = Ok (rkID, s').
Proof.
  intros Hvalid.
  unfold RegisterTransientResource_ID, FindEntry, new_CResourceEntry, assign. run.
  rewrite Hvalid. simpl.
  destruct (mResourceEntries s !! rkID) as [e|] eqn:He.
  - exists s. split; [done|]. split; [done|]. split; [done|].
    intros. by rewrite He.
  - destruct (link_directory _ _ _ _) as [pDir [roots d]] eqn:Hlink. simpl.
    eexists. split; [reflexivity|]. split; [by intros [? ?]|].
    split; [intros _; by exists pDir|].
    intros. simpl. by rewrite lookup_insert_eq.
Qed.

(** X7. [DeleteResourceEntry] on a loaded entry.  While the payload is
    referenced the call returns false and the store is untouched.  When the
    payload is unreferenced and the entry is in the loaded-map, the call
    returns true, the entry is gone from both maps, and the payloads the
    deleted payload referred to have one reference fewer for each reference
    it held.  When the payload is unreferenced and the entry is loaded but not
    in the loaded-map, the assertion on the loaded-map fails. *)
Theorem DeleteResourceEntry_loaded k e r s :
  mResourceEntries s !! k = Some e -> mID e = k -> mpResource e = Some r ->
  (IsReferenced r = true -> DeleteResourceEntry k s = Ok (false, s)) /\
  (IsReferenced r = false -> mLoadedResources s !! k = None ->
     DeleteResourceEntry k s = AssertFail) /\
  (IsReferenced r = false -> is_Some (mLoadedResources s !! k) ->
     exists s',
       DeleteResourceEntry k s = Ok (true, s') /\
       mLoadedResources s' = delete k (mLoadedResources s) /\
       mResourceEntries s' !! k = None /\
       forall j, j <> k ->
         mResourceEntries s' !! j
           = drop_references (held j (mReferences r)) <$> mResourceEntries s !! j).
Proof.
  intros He Hid Hr.
  split; [|split].
  - intros Href. unfold DeleteResourceEntry, Unload, deref, IsLoaded, ID. run.
    rewrite He. simpl. rewrite Hr. simpl. rewrite He. simpl. by rewrite Hr, Href.
  - intros Href Hnone. unfold DeleteResourceEntry, deref, IsLoaded, ID. run.
    rewrite He. simpl. rewrite Hr, Hid.
    erewrite Unload_unreferenced by done. simpl.
    rewrite Hnone. by rewrite bool_decide_eq_false_2 by (by intros [? ?]).
  - intros Href Hsome. unfold DeleteResourceEntry, deref, IsLoaded, ID, Directory. run.
    rewrite He. simpl. rewrite Hr, Hid.
    erewrite Unload_unreferenced by done. simpl.
    rewrite bool_decide_eq_true_2 by done.
    assert (Hk : is_Some (foldr Release (<[k := set_mpResource e None]> (mResourceEntries s))
                            (mReferences r) !! k)).
    { rewrite foldr_Release_lookup, lookup_insert_eq. by eexists. }
    destruct (mpDirectory e); simpl;
      rewrite bool_decide_eq_true_2 by done;
      (eexists; split; [reflexivity|]); simpl;
      (split; [done|]); (split; [apply lookup_delete_eq|]);
      intros j Hj; rewrite lookup_delete_ne by done;
      by rewrite foldr_Release_lookup, lookup_insert_ne.
Qed.

Lemma cache_frame_refl s : cache_frame s s.
Proof. by repeat split. Qed.

Lemma cache_frame_trans s1 s2 s3 : cache_frame s1 s2 -> cache_frame s2 s3 -> cache_frame s1 s3.
Proof.
  intros (Hl1 & He1 & Hd1 & Ht1 & Hv1) (Hl2 & He2 & Hd2 & Ht2 & Hv2).
  split; [congruence|]. split; [congruence|]. split; [|split].
  - intros k. by rewrite Hd2, Hd1.
  - intros k e Hk Ht. apply Ht2; [|done]. by apply Ht1.
  - intros k Hk. by rewrite Hv2, Hv1.
Qed.

Lemma LoadEntryCache_frame CacheFile Version ID_ pos s :
  exists s', LoadEntryCache CacheFile Version ID_ pos s = Ok (tt, s') /\ cache_frame s s'.
Proof.
  unfold LoadEntryCache, deref, assign. run.
  destruct (FindEntry ID_ s) as [pEntry|] eqn:Hfind;
    [|eexists; split; [done|apply cache_frame_refl]].
  apply FindEntry_Some in Hfind as (-> & Hvalid & [e He]). rewrite He.
  destruct (IsTransient e) eqn:Ht; simpl;
    [eexists; split; [done|apply cache_frame_refl]|].
  destruct (ReaderParamBegin _ _ _) as [[|] pos'];
    [|eexists; split; [done|apply cache_frame_refl]].
  eexists. split; [reflexivity|].
  split; [done|]. split; [done|]. simpl. split; [|split].
  - intros k. destruct (decide (k = ID_)) as [->|Hne].
    + rewrite lookup_insert_eq, He. split; intros _; by eexists.
    + by rewrite lookup_insert_ne.
  - intros k e' Hk Ht'. destruct (decide (k = ID_)) as [->|Hne]; [congruence|].
    by rewrite lookup_insert_ne.
  - intros k Hk. destruct (decide (k = ID_)) as [->|Hne]; [congruence|].
    by rewrite lookup_insert_ne.
Qed.

Lemma LoadCacheFile_loop_frame CacheFile Version n : forall pos s,
  exists pos' s',
    LoadCacheFile_loop CacheFile Version n pos s = Ok (pos', s') /\ cache_frame s s'.
Proof.
  induction n as [|n IH]; intros pos s; simpl.
  - eexists _, _. split; [done|apply cache_frame_refl].
  - unfold LoadCacheFile_record.
    destruct (ReadAssetID _ _ _) as [id p1].
    destruct (ReadLong _ _) as [len p2].
    destruct (LoadEntryCache_frame CacheFile Version id p2 s) as (s1 & Hs1 & Hf1).
    run. simpl. rewrite Hs1.
    destruct (IH ((p2 + len) mod 2^32) s1) as (pos' & s' & Hloop & Hf).
    exists pos', s'. split; [done|]. by eapply cache_frame_trans.
Qed.

(** X8. What [LoadCacheFile] never does, whatever the cache file holds.  It
    always returns; it returns true exactly when the file opens and starts
    with the magic "CACH".  It neither creates nor deletes an entry, it leaves
    the loaded-map alone, it does not touch a transient entry nor an entry
    stored under an id that is not valid; and when it returns false it has
    logged one error and changed no entry at all. *)
Theorem LoadCacheFile_frame s :
  exists b s',
    LoadCacheFile s = Ok (b, s') /\
    (b = true <->
       exists CacheFile, OpenCacheFileIn (env s) = Some CacheFile /\
                         (ReadFourCC CacheFile 0).1 = "CACH") /\
    mLoadedResources s' = mLoadedResources s /\
    (forall k, is_Some (mResourceEntries s' !! k) <-> is_Some (mResourceEntries s !! k)) /\
    (forall k e, mResourceEntries s !! k = Some e -> IsTransient e = true ->
       mResourceEntries s' !! k = Some e) /\
    (forall k, IsValid k = false -> mResourceEntries s' !! k = mResourceEntries s !! k) /\
    (b = false ->
       mResourceEntries s' = mResourceEntries s /\
       exists msg, errors s' = errors s ++ [msg]).
Proof.
  unfold LoadCacheFile. run.
  destruct (OpenCacheFileIn (env s)) as [CacheFile|] eqn:Hopen.
  - destruct (ReadFourCC CacheFile 0) as [Magic p0] eqn:Hmagic.
    destruct (String.eqb_spec Magic "CACH") as [->|Hne]; simpl.
    + destruct (ReadSerialVersion CacheFile p0) as [Version p1].
      destruct (ReadLong CacheFile p1) as [NumResources p2].
      destruct (LoadCacheFile_loop_frame CacheFile Version (Z.to_nat NumResources) p2 s)
        as (pos' & s' & Hloop & Hl & He & Hd & Ht & Hv).
      rewrite Hloop. exists true, s'. split; [done|].
      split; [split; [intros _; exists CacheFile; by rewrite Hmagic|done]|].
      repeat (split; [done|]). done.
    + eexists false, _. split; [reflexivity|].
      split.
      { split; [done|]. intros (f & Hf & Hm).
        assert (f = CacheFile) as -> by congruence. rewrite Hmagic in Hm. done. }
      simpl. repeat (split; [done|]). by eexists.
  - eexists false, _. split; [reflexivity|].
    split; [split; [done|by intros (f & Hf & _)]|].
    simpl. repeat (split; [done|]). by eexists.
Qed.

(** X9. A resource that is loaded is not loaded again.  In a store that
    satisfies its invariant, [LoadResource] on an id that is in the
    loaded-map returns the payload the entry holds and changes nothing; when
    the id is not valid it returns [nullptr] instead, though the id is in the
    loaded-map.  So does [LoadResource] on an absolute path whose derived id
    is in the loaded-map, without looking at the extension or at the file. *)
Theorem LoadResource_loaded rkID s :
  store_wf s ->
  is_Some (mLoadedResources s !! rkID) ->
  exists e r,
    mResourceEntries s !! rkID = Some e /\ mpResource e = Some r /\
    (forall rkType,
       LoadResource rkID rkType s = Ok (if IsValid rkID then Some r else None, s)) /\
    (forall rkPath,
       IsAbsolute rkPath = true ->
       (if IsHexString (GetFileName rkPath false)
        then ToInt64 (GetFileName rkPath false) else Hash64 rkPath) = rkID ->
       LoadResource_path rkPath s = Ok (Some r, s)).
Proof.
  intros [Hloaded _] [p Hp].
  destruct (Hloaded rkID p Hp) as (-> & e & r & He & Hr).
  exists e, r. split; [done|]. split; [done|]. split.
  - intros rkType. unfold LoadResource, deref, Resource. run.
    destruct (IsValid rkID); simpl; [|done].
    by rewrite Hp, He, Hr.
  - intros rkPath Habs Hid. unfold LoadResource_path, deref, Resource. run.
    rewrite Habs. simpl. rewrite Hid, Hp. by rewrite He, Hr.
Qed.

Lemma in_order_empty {A} : in_order (∅ : gmap Z A) = [].
Proof. unfold in_order. by rewrite map_to_list_empty. Qed.

(** X10. The sweep over the transient roots that closes
    [DestroyUnreferencedResources], with nothing loaded.  When no root is
    empty the call changes nothing.  A root that is empty is deleted and
    erased, and the root after it is stepped over without being looked at: it
    is kept even if it is empty too.  When the erased root is the last one,
    the iterator is moved past the end of the vector. *)
Theorem transient_roots_sweep s :
  mLoadedResources s = ∅ ->
  (Forall (fun pRoot => IsEmpty pRoot (dirs s) = false) (mTransientRoots s) ->
     DestroyUnreferencedResources s = Ok (true, s)) /\
  (forall a b,
     mTransientRoots s = [a; b] -> IsEmpty a (dirs s) = true ->
     DestroyUnreferencedResources s =
       Ok (true, set_mTransientRoots (set_dirs s (delete_directory a (dirs s))) [b])) /\
  (forall kept a,
     mTransientRoots s = kept ++ [a] ->
     Forall (fun pRoot => IsEmpty pRoot (dirs s) = false) kept ->
     IsEmpty a (dirs s) = true ->
     DestroyUnreferencedResources s = Undefined).
Proof.
  intros Hnone.
  assert (Hloop : unload_unreferenced (Datatypes.S (size (mLoadedResources s))) s
                  = Ok (true, s)).
  { rewrite Hnone, map_size_empty. simpl. unfold scan_pass. run.
    by rewrite Hnone, in_order_empty. }
  split; [|split].
  - intros Hall. unfold DestroyUnreferencedResources. run. rewrite Hloop.
    rewrite destroy_empty_roots_none by done. by destruct s.
  - intros a b Hroots Ha. unfold DestroyUnreferencedResources. run. rewrite Hloop.
    rewrite Hroots. simpl. run. by rewrite Ha.
  - intros kept a Hroots Hall Ha. unfold DestroyUnreferencedResources. run. rewrite Hloop.
    by rewrite Hroots, destroy_empty_roots_last.
Qed.

End ResourceStoreMore.
(** * Part II, continued: loading the database records, closing the project *)

Section ProjectProofs.
Import Store Game StoreMore.
Local Open Scope Z_scope.
Context {D E F : Type} `{!Collaborators D E F} `{!GameConstants}.
Implicit Type s : CResourceStore D E.

Lemma not_transient_0 pDir rkID Type_ rkName :
  IsTransient (mkEntry None rkID Type_ pDir rkName 0) = false.
Proof. done. Qed.

(** One call of [RegisterResource] in a store without transient entries. *)
Lemma RegisterResource_step rkID Type_ rkDir rkName s :
  no_transient s ->
  exists r s' pDir,
    RegisterResource rkID Type_ rkDir rkName s = Ok (r, s') /\
    no_transient s' /\
    mResourceEntries s' =
      match FindEntry rkID s with
      | Some _ => mResourceEntries s
      | None =>
          if IsValidResourcePath rkDir rkName
          then <[rkID := mkEntry None rkID Type_ pDir rkName 0]> (mResourceEntries s)
          else mResourceEntries s
      end.
Proof.
  intros Hnt. unfold RegisterResource, deref, new_CResourceEntry, assign. run.
  destruct (FindEntry rkID s) as [pEntry|] eqn:Hfind.
  - pose proof Hfind as Hfound.
    apply FindEntry_Some in Hfound as (-> & _ & [e He]). rewrite He.
    rewrite (Hnt _ _ He). simpl.
    eexists _, _, None. split; [reflexivity|]. split; [|done]. exact Hnt.
  - destruct (IsValidResourcePath rkDir rkName).
    + destruct (link_directory _ _ _ _) as [pDir [roots d]] eqn:Hlink. simpl.
      eexists _, _, pDir. split; [reflexivity|]. split; [|done].
      intros k e. simpl. destruct (decide (k = rkID)) as [->|Hne].
      * rewrite lookup_insert_eq. by intros [= <-].
      * rewrite lookup_insert_ne by done. apply Hnt.
    + eexists _, _, None. split; [reflexivity|]. split; [|done]. exact Hnt.
Qed.

(** X11. Loading the records of the resource database into a store without
    transient entries, every record carrying a type.  The loop returns; an
    entry that was stored under a valid id stays as it is, whatever the
    records say; and a valid id that was free ends up holding the entry built
    from the first record that names it with a path [IsValidResourcePath]
    accepts: the records after that one only log an error.  When no record
    names it with such a path the id stays free. *)
Theorem RegisterResources_first_wins (Resources : list SDatabaseResource_read) : forall s,
  no_transient s ->
  Forall (fun rRes => is_Some (rd_pType rRes)) Resources ->
  exists s',
    RegisterResources Resources s = Ok (tt, s') /\
    no_transient s' /\
    forall k, IsValid k = true ->
      match mResourceEntries s !! k with
      | Some e => mResourceEntries s' !! k = Some e
      | None =>
          match first_record k Resources with
          | Some rRes =>
              exists Type_ pDir,
                rd_pType rRes = Some Type_ /\
                mResourceEntries s' !! k
                  = Some (mkEntry None k Type_ pDir (rd_Name rRes) 0)
          | None => mResourceEntries s' !! k = None
          end
      end.
Proof.
  induction Resources as [|rRes Iter IH]; intros s Hnt Htypes.
  - exists s. split; [done|]. split; [done|].
    intros k _. simpl. by destruct (mResourceEntries s !! k).
  - apply Forall_cons in Htypes as [[Type_ HType] Htypes].
    simpl. rewrite HType.
    destruct (RegisterResource_step (rd_ID rRes) Type_ (rd_Directory rRes) (rd_Name rRes) s Hnt)
      as (r & s1 & pDir & Hrun & Hnt1 & Hentries).
    destruct (IH s1 Hnt1 Htypes) as (s' & Hloop & Hnt' & Hpost).
    exists s'. run. rewrite Hrun. split; [done|]. split; [done|].
    intros k Hvalid. specialize (Hpost k Hvalid).
    assert (Hfind : FindEntry k s = match mResourceEntries s !! k with
                                    | Some _ => Some k | None => None end).
    { unfold FindEntry. by rewrite Hvalid. }
    destruct (Z.eqb_spec (rd_ID rRes) k) as [Hid|Hid]; simpl.
    + rewrite Hid in *. rewrite Hfind in Hentries.
      destruct (mResourceEntries s !! k) as [e|] eqn:He.
      * by rewrite Hentries, He in Hpost.
      * destruct (IsValidResourcePath _ _).
        -- rewrite Hentries, lookup_insert_eq in Hpost. eauto.
        -- by rewrite Hentries, He in Hpost.
    + assert (Hsame : mResourceEntries s1 !! k = mResourceEntries s !! k).
      { rewrite Hentries. destruct (FindEntry (rd_ID rRes) s); [done|].
        destruct (IsValidResourcePath _ _); [|done]. by rewrite lookup_insert_ne. }
      by rewrite Hsame in Hpost.
Qed.

Lemma delete_project_entries_run It : forall s,
  delete_project_entries It s =
    Ok (tt, set_mResourceEntries s
              (foldl (fun m ke => if IsTransient ke.2 then m else delete ke.1 m)
                     (mResourceEntries s) It)).
Proof.
  induction It as [|[key pEntry] It IH]; intros s; simpl.
  - by destruct s.
  - run. destruct (IsTransient pEntry); simpl; rewrite IH; [|done].
    by destruct s.
Qed.

Lemma foldl_delete_lookup (It : list (CAssetID * CResourceEntry)) :
  forall (m : gmap CAssetID CResourceEntry) k e,
  foldl (fun m ke => if IsTransient ke.2 then m else delete ke.1 m) m It !! k = Some e <->
  m !! k = Some e /\ Forall (fun ke => ke.1 = k -> IsTransient ke.2 = true) It.
Proof.
  induction It as [|[key pEntry] It IH]; intros m k e; simpl.
  - split; [by intros ?|by intros [? _]].
  - rewrite IH, Forall_cons. simpl.
    destruct (IsTransient pEntry) eqn:Ht.
    + tauto.
    + destruct (decide (key = k)) as [->|Hne].
      * rewrite lookup_delete_eq. split; [by intros [? _]|].
        intros (_ & Hk & _). by specialize (Hk eq_refl).
      * rewrite lookup_delete_ne by done. tauto.
Qed.

(** X12. What holds when [CloseProject] returns.  The sweep of
    [DestroyUnreferencedResources] has run to its end, the loaded-map is
    empty (otherwise an error is logged and the assertion fails), the entries
    left are exactly the transient ones of the store as the sweep left it,
    the database root is null and the game is unknown. *)
Theorem CloseProject_returns s s' :
  CloseProject s = Ok (tt, s') ->
  exists finished s1,
    DestroyUnreferencedResources s = Ok (finished, s1) /\
    mLoadedResources s1 = ∅ /\
    mLoadedResources s' = ∅ /\
    (forall k e, mResourceEntries s' !! k = Some e <->
                 mResourceEntries s1 !! k = Some e /\ IsTransient e = true) /\
    mpDatabaseRoot s' = None /\
    mGame s' = eUnknownGame /\
    errors s' = errors s1.
Proof.
  unfold CloseProject. run.
  destruct (DestroyUnreferencedResources s) as [[finished s1]| |] eqn:Hgc; [|done..].
  destruct (Nat.eqb_spec (size (mLoadedResources s1)) 0) as [Hsize|Hsize]; simpl; [|done].
  apply map_size_empty_iff in Hsize.
  rewrite delete_project_entries_run. simpl.
  set (m' := foldl _ _ _).
  assert (Hm' : forall k e, m' !! k = Some e <->
                  mResourceEntries s1 !! k = Some e /\ IsTransient e = true).
  { intros k e. subst m'. rewrite foldl_delete_lookup. split.
    - intros [He Hall]. split; [done|].
      rewrite Forall_forall in Hall. apply (Hall (k, e)); [|done].
      by apply in_order_elem.
    - intros [He Ht]. split; [done|].
      apply Forall_forall. intros [k' e'] Hin Hk. simpl in *. subst k'.
      apply in_order_elem in Hin. congruence. }
  destruct (mpDatabaseRoot s1); simpl; intros [= <-];
    exists finished, s1; simpl; repeat (split; [done|]); done.
Qed.

End ProjectProofs.
(** * Part III, proved: the values of an enum property *)

Section EnumPropertyProofs.
Import EnumProperty.
Local Open Scope Z_scope.
Implicit Type mValues : list SEnumValue.

Lemma ValueIndex_loop_found mValues ID_ (k : nat) v :
  Z.of_nat (length mValues) < 2^32 ->
  mValues !! k = Some v -> ID v = ID_ ->
  (forall (j : nat) v', (j < k)%nat -> mValues !! j = Some v' -> ID v' <> ID_) ->
  forall turns (i : nat),
    (i <= k)%nat -> (k - i < turns)%nat ->
    ValueIndex_loop turns mValues ID_ (Z.of_nat i) = Some (Z.of_nat k).
Proof.
  intros Hlen Hk Hid Hfirst.
  pose proof (lookup_lt_Some _ _ _ Hk) as Hklen.
  induction turns as [|turns IH]; intros i Hi Hturns; [lia|].
  simpl. rewrite Nat2Z.id.
  replace (Z.of_nat i <? Z.of_nat (length mValues)) with true
    by (symmetry; apply Z.ltb_lt; lia).
  destruct (decide (i = k)) as [->|Hne].
  - rewrite Hk. by rewrite Hid, Z.eqb_refl.
  - destruct (mValues !! i) as [v'|] eqn:Hi'.
    2: { apply lookup_ge_None in Hi'. lia. }
    destruct (Z.eqb_spec (ID v') ID_) as [Heq|_].
    + exfalso. apply (Hfirst i v'); [lia|done|done].
    + unfold uint32. rewrite Z.mod_small by lia.
      replace (Z.of_nat i + 1) with (Z.of_nat (S i)) by lia.
      apply IH; lia.
Qed.

Lemma ValueIndex_loop_absent mValues ID_ :
  Z.of_nat (length mValues) < 2^32 ->
  (forall v, v ∈ mValues -> ID v <> ID_) ->
  forall turns (i : nat),
    (i <= length mValues)%nat -> (length mValues - i < turns)%nat ->
    ValueIndex_loop turns mValues ID_ (Z.of_nat i) = Some (2^32 - 1).
Proof.
  intros Hlen Habsent.
  induction turns as [|turns IH]; intros i Hi Hturns; [lia|].
  simpl. rewrite Nat2Z.id.
  destruct (Z.ltb_spec (Z.of_nat i) (Z.of_nat (length mValues))) as [Hlt|Hge]; [|done].
  destruct (mValues !! i) as [v'|] eqn:Hi'.
  2: { apply lookup_ge_None in Hi'. lia. }
  destruct (Z.eqb_spec (ID v') ID_) as [Heq|_].
  - exfalso. apply (Habsent v'); [by eapply list_elem_of_lookup_2|done].
  - unfold uint32. rewrite Z.mod_small by lia.
    replace (Z.of_nat i + 1) with (Z.of_nat (S i)) by lia.
    apply IH; lia.
Qed.

Lemma ValueIndex_found mValues ID_ (k : nat) v :
  Z.of_nat (length mValues) < 2^32 ->
  mValues !! k = Some v -> ID v = ID_ ->
  (forall (j : nat) v', (j < k)%nat -> mValues !! j = Some v' -> ID v' <> ID_) ->
  ValueIndex mValues ID_ = Some (Z.of_nat k).
Proof.
  intros Hlen Hk Hid Hfirst.
  pose proof (lookup_lt_Some _ _ _ Hk) as Hklen.
  apply (ValueIndex_loop_found mValues ID_ k v Hlen Hk Hid Hfirst _ 0%nat); lia.
Qed.

Lemma ValueIndex_absent mValues ID_ :
  Z.of_nat (length mValues) < 2^32 ->
  (forall v, v ∈ mValues -> ID v <> ID_) ->
  ValueIndex mValues ID_ = Some (2^32 - 1).
Proof.
  intros Hlen Habsent.
  apply (ValueIndex_loop_absent mValues ID_ Hlen Habsent _ 0%nat); lia.
Qed.

(** Every list has a first value with a given ID, or none. *)
Lemma first_or_absent mValues ID_ :
  (exists (k : nat) v, mValues !! k = Some v /\ ID v = ID_ /\
     forall (j : nat) v', (j < k)%nat -> mValues !! j = Some v' -> ID v' <> ID_) \/
  (forall v, v ∈ mValues -> ID v <> ID_).
Proof.
  destruct (list_find (fun v => ID v = ID_) mValues) as [[k v]|] eqn:Hfind.
  - apply list_find_Some in Hfind as (Hk & Hid & Hfirst).
    left. exists k, v. split; [done|]. split; [done|].
    intros j v' Hj Hj'. by apply (Hfirst j v').
  - apply list_find_None in Hfind. right.
    intros v Hv. by apply (proj1 (Forall_forall _ _) Hfind).
Qed.

(** X13. [ValueIndex] on a vector of fewer than 2^32 values returns the
    index of the first value that carries the ID, and [uint32(-1)], which is
    no index of the vector, exactly when no value carries it. *)
Theorem ValueIndex_first_match mValues ID_ :
  Z.of_nat (length mValues) < 2^32 ->
  exists Index,
    ValueIndex mValues ID_ = Some Index /\
    (forall (k : nat) v,
       mValues !! k = Some v -> ID v = ID_ ->
       (forall (j : nat) v', (j < k)%nat -> mValues !! j = Some v' -> ID v' <> ID_) ->
       Index = Z.of_nat k) /\
    ((forall v, v ∈ mValues -> ID v <> ID_) <-> Index = 2^32 - 1) /\
    (Index < Z.of_nat (length mValues) <-> exists v, v ∈ mValues /\ ID v = ID_).
Proof.
  intros Hlen.
  destruct (first_or_absent mValues ID_) as [(k & v & Hk & Hid & Hfirst)|Habsent].
  - pose proof (lookup_lt_Some _ _ _ Hk) as Hklen.
    exists (Z.of_nat k). split; [by eapply ValueIndex_found|].
    split; [|split].
    + intros k' v' Hk' Hid' Hfirst'.
      destruct (Nat.lt_trichotomy k k') as [Hlt|[->|Hgt]]; [|done|].
      * exfalso. by apply (Hfirst' k v).
      * exfalso. by apply (Hfirst k' v').
    + split; [|lia]. intros Habsent. exfalso.
      apply (Habsent v); [by eapply list_elem_of_lookup_2|done].
    + split; [|lia]. intros _. exists v. split; [by eapply list_elem_of_lookup_2|done].
  - exists (2^32 - 1). split; [by apply ValueIndex_absent|].
    split; [|split].
    + intros k v Hk Hid _. exfalso.
      apply (Habsent v); [by eapply list_elem_of_lookup_2|done].
    + done.
    + split; [lia|]. intros (v & Hv & Hid). exfalso. by apply (Habsent v).
Qed.

(** X14. [ValueIndex] and [ValueID].  On a vector of fewer than 2^32
    values, [ValueID] of the index that [ValueIndex] returns for an ID is
    that ID when a value carries it; when none does, the index returned is
    out of range and [ValueID] and [ValueName] fail their assertion on it. *)
Theorem ValueID_of_ValueIndex mValues ID_ :
  Z.of_nat (length mValues) < 2^32 ->
  exists Index,
    ValueIndex mValues ID_ = Some Index /\
    ((exists v, v ∈ mValues /\ ID v = ID_) -> ValueID mValues Index = Ok ID_) /\
    ((forall v, v ∈ mValues -> ID v <> ID_) ->
       ValueID mValues Index = AssertFail /\ ValueName mValues Index = AssertFail).
Proof.
  intros Hlen.
  destruct (first_or_absent mValues ID_) as [(k & v & Hk & Hid & Hfirst)|Habsent].
  - pose proof (lookup_lt_Some _ _ _ Hk) as Hklen.
    exists (Z.of_nat k). split; [by eapply ValueIndex_found|].
    split.
    + intros _. unfold ValueID. rewrite Nat2Z.id, Hk, Hid.
      replace (0 <=? Z.of_nat k) with true by (symmetry; apply Z.leb_le; lia).
      by replace (Z.of_nat k <? Z.of_nat (length mValues)) with true
        by (symmetry; apply Z.ltb_lt; lia).
    + intros Habsent. exfalso.
      apply (Habsent v); [by eapply list_elem_of_lookup_2|done].
  - exists (2^32 - 1). split; [by apply ValueIndex_absent|].
    split.
    + intros (v & Hv & Hid). exfalso. by apply (Habsent v).
    + intros _. unfold ValueID, ValueName.
      replace (2^32 - 1 <? Z.of_nat (length mValues)) with false
        by (symmetry; apply Z.ltb_ge; lia).
      by rewrite andb_false_r.
Qed.

(** X15. [HasValidValue] on a vector of fewer than 2^32 values: the value
    held is valid exactly when the vector is empty or one of its values
    carries, as its ID, the value converted to [uint32]; a negative value is
    valid when its two's complement is listed. *)
Theorem HasValidValue_spec mValues Value :
  Z.of_nat (length mValues) < 2^32 ->
  exists b,
    HasValidValue mValues Value = Some b /\
    (b = true <-> mValues = [] \/ exists v, v ∈ mValues /\ ID v = uint32 Value).
Proof.
  intros Hlen. unfold HasValidValue.
  destruct mValues as [|v0 rest] eqn:Hv; [exists true; split; [done|]; by split; auto|].
  rewrite <- Hv in *.
  destruct (first_or_absent mValues (uint32 Value)) as [(k & v & Hk & Hid & Hfirst)|Habsent].
  - pose proof (lookup_lt_Some _ _ _ Hk) as Hklen.
    rewrite (ValueIndex_found mValues _ k v Hlen Hk Hid Hfirst). cbv beta iota.
    eexists. split; [reflexivity|].
    rewrite andb_true_iff, Z.leb_le, Z.ltb_lt. split.
    + intros _. right. exists v. split; [by eapply list_elem_of_lookup_2|done].
    + intros _. lia.
  - rewrite (ValueIndex_absent mValues _ Hlen Habsent). cbv beta iota.
    eexists. split; [reflexivity|].
    rewrite andb_true_iff, Z.leb_le, Z.ltb_lt. split.
    + intros [_ Hlt]. lia.
    + intros [Hnil|(v & Hv' & Hid)]; [by rewrite Hv in Hnil|].
      exfalso. by apply (Habsent v).
Qed.

(** X16. [AddValue] does not look for the ID among the values the vector
    holds.  A value added under an ID that is already carried is never the
    one [ValueIndex] returns, which stays the index of the first; a value
    added under a new ID is found at the index that was the size. *)
Theorem AddValue_first_wins mValues ValueName_ ValueID_ :
  Z.of_nat (length mValues) + 1 < 2^32 ->
  ((exists v, v ∈ mValues /\ ID v = ValueID_) ->
     ValueIndex (AddValue mValues ValueName_ ValueID_) ValueID_ = ValueIndex mValues ValueID_) /\
  ((forall v, v ∈ mValues -> ID v <> ValueID_) ->
     ValueIndex (AddValue mValues ValueName_ ValueID_) ValueID_
       = Some (Z.of_nat (length mValues))).
Proof.
  intros Hlen.
  assert (Hlen' : Z.of_nat (length (AddValue mValues ValueName_ ValueID_)) < 2^32).
  { unfold AddValue. rewrite length_app. simpl. lia. }
  split.
  - intros (v & Hv & Hid).
    destruct (first_or_absent mValues ValueID_) as [(k & v1 & Hk & Hid1 & Hfirst)|Habsent].
    2: { exfalso. by apply (Habsent v). }
    pose proof (lookup_lt_Some _ _ _ Hk) as Hklen.
    rewrite (ValueIndex_found mValues ValueID_ k v1) by (done || lia).
    apply (ValueIndex_found _ ValueID_ k v1); try done.
    + unfold AddValue. by rewrite lookup_app_l.
    + intros j v' Hj. unfold AddValue. rewrite lookup_app_l by lia. by apply Hfirst.
  - intros Habsent.
    apply (ValueIndex_found _ ValueID_ (length mValues)
             (mkEnumValue ValueName_ ValueID_)); try done.
    + unfold AddValue. rewrite lookup_app_r by lia.
      by rewrite Nat.sub_diag.
    + intros j v' Hj. unfold AddValue. rewrite lookup_app_l by lia.
      intros Hj'. apply Habsent. by eapply list_elem_of_lookup_2.
Qed.

End EnumPropertyProofs.
(** * Part I, continued: the version header *)

Section VersionProofs.
Import Archive Game Containers.
Local Open Scope Z_scope.
Context {W : Type} `{!Backend W} `{!Platform} `{!Layout} `{!GameConstants}.

(** An archive that is not a Writer skips no parameter. *)
Lemma not_Writer_serializes {V} {ST : SerialTraits V} (p : TSerialParameter V)
    (arc : IArchive W) :
  IsWriter arc = false -> ShouldSerializeParameter p arc = true.
Proof.
  intros Hw. unfold ShouldSerializeParameter. rewrite Hw.
  by destruct (flag_set (mArchiveFlags arc) AF_NoSkipping).
Qed.

(** The Global operator on a parameter whose scope is not entered. *)
Lemma operator_shl_Global_declined {V} {ST : SerialTraits V} `{!Serializable W V}
    (rParam : TSerialParameter V) (arc : IArchive W) :
  attribute_parent arc = false ->
  ShouldSerializeParameter rParam arc = true ->
  (ParamBegin (pkName rParam) (HintFlags rParam) (world arc)).1 = false ->
  operator_shl_Global rParam arc =
    Ok (if IsReader arc then (InitParameterToDefault rParam).2 else rParam,
        set_world arc (ParamBegin (pkName rParam) (HintFlags rParam) (world arc)).2).
Proof.
  intros Hattr Hshould Hdecl. unfold operator_shl_Global. run.
  rewrite PushParameter_run, Hattr.
  replace (ShouldSerializeParameter rParam (set_stack arc _))
    with (ShouldSerializeParameter rParam arc) by done.
  rewrite Hshould. unfold callParamBegin. simpl.
  destruct (ParamBegin _ _ _) as [b w]. simpl in *. subst b. simpl.
  assert (Hinit : rValueAddr (InitParameterToDefault rParam).2 = rValueAddr rParam).
  { unfold InitParameterToDefault. destruct (SUPPORTS_DEFAULT_VALUES V); [|done].
    by destruct (pDefaultValue rParam). }
  replace (IsReader _) with (IsReader arc) by done.
  destruct (IsReader arc); simpl;
    erewrite PopParameter_run by (simpl; done); by destruct arc.
Qed.

(** The Global operator on a parameter that is skipped. *)
Lemma operator_shl_Global_skipped {V} {ST : SerialTraits V} `{!Serializable W V}
    (rParam : TSerialParameter V) (arc : IArchive W) :
  attribute_parent arc = false ->
  ShouldSerializeParameter rParam arc = false ->
  operator_shl_Global rParam arc =
    Ok (if IsReader arc then (InitParameterToDefault rParam).2 else rParam, arc).
Proof.
  intros Hattr Hshould. unfold operator_shl_Global. run.
  rewrite PushParameter_run, Hattr.
  replace (ShouldSerializeParameter rParam (set_stack arc _))
    with (ShouldSerializeParameter rParam arc) by done.
  rewrite Hshould.
  assert (Hinit : rValueAddr (InitParameterToDefault rParam).2 = rValueAddr rParam).
  { unfold InitParameterToDefault. destruct (SUPPORTS_DEFAULT_VALUES V); [|done].
    by destruct (pDefaultValue rParam). }
  replace (IsReader _) with (IsReader arc) by done.
  destruct (IsReader arc); simpl;
    erewrite PopParameter_run by (simpl; done); by destruct arc.
Qed.

(** X17. [SerializeVersion] on a document without "FileVer" and "Game".
    When a Reader that is not a Writer is told by [ParamBegin] that the two
    attributes are absent, the file version is left at 0 and the game at
    [eUnknownGame], whatever the fields held; the archive version is what was
    read under "ArchiveVer", and 0 when that attribute is absent too.  The
    parameter stack and the flags are as before. *)
Theorem SerializeVersion_absent_attributes `{!VersionBackend W} (arc : IArchive W) :
  attribute_parent arc = false ->
  IsReader arc = true -> IsWriter arc = false ->
  (forall flags w, (ParamBegin "FileVer" flags w).1 = false) ->
  (forall flags w, (ParamBegin "Game" flags w).1 = false) ->
  exists arc',
    SerializeVersion arc = Ok (tt, arc') /\
    mFileVersion arc' = 0 /\
    mGame arc' = eUnknownGame /\
    mArchiveVersion arc' =
      (let begun := ParamBegin "ArchiveVer" SH_Attribute (world arc) in
       if begun.1
       then (@SerializePrimitive W Z u16_Primitive (mArchiveVersion arc) SH_Attribute begun.2).1
       else 0) /\
    mParmStack arc' = mParmStack arc /\
    mArchiveFlags arc' = mArchiveFlags arc.
Proof.
  intros Hattr Hr Hw HFileVer HGame.
  unfold SerializeVersion. run.
  rewrite operator_shl_Primitive_run, Hattr.
  rewrite not_Writer_serializes by done. cbv zeta.
  change (pkName (ArchiveVer_parameter (mArchiveVersion arc))) with "ArchiveVer".
  change (HintFlags (ArchiveVer_parameter (mArchiveVersion arc))) with SH_Attribute.
  set (begun := ParamBegin "ArchiveVer" SH_Attribute (world arc)).
  set (v1 := if begun.1
             then (@SerializePrimitive W Z u16_Primitive (mArchiveVersion arc)
                     SH_Attribute begun.2).1
             else 0).
  assert (Hstep1 : exists w1,
    (if begun.1
     then Ok (set_rValue (ArchiveVer_parameter (mArchiveVersion arc))
                (@SerializePrimitive W Z u16_Primitive
                   (rValue (ArchiveVer_parameter (mArchiveVersion arc)))
                   SH_Attribute begun.2).1,
              set_world arc
                (ParamEnd (@SerializePrimitive W Z u16_Primitive
                   (rValue (ArchiveVer_parameter (mArchiveVersion arc)))
                   SH_Attribute begun.2).2))
     else Ok (if IsReader arc
              then (InitParameterToDefault (ST := u16_SerialTraits)
                      (ArchiveVer_parameter (mArchiveVersion arc))).2
              else ArchiveVer_parameter (mArchiveVersion arc),
              set_world arc begun.2))
    = Ok (set_rValue (ArchiveVer_parameter (mArchiveVersion arc)) v1, set_world arc w1)).
  { subst v1. destruct begun.1.
    - by eexists.
    - rewrite Hr. by eexists. }
  destruct Hstep1 as [w1 ->]. simpl.
  rewrite operator_shl_Primitive_run.
  replace (attribute_parent _) with (attribute_parent arc) by done.
  rewrite Hattr, not_Writer_serializes by done. cbv zeta.
  change (pkName (FileVer_parameter _)) with "FileVer".
  rewrite HFileVer.
  replace (IsReader (set_mArchiveVersion (set_world arc w1) v1)) with (IsReader arc) by done.
  rewrite Hr. simpl.
  rewrite operator_shl_Global_declined; [|done|by apply not_Writer_serializes|apply HGame].
  replace (IsReader _) with (IsReader arc) by done. rewrite Hr. simpl.
  eexists. split; [reflexivity|]. done.
Qed.

(** X18. [SerializeVersion] in a Writer that may skip parameters, with
    file version 0 and an unknown game: only "ArchiveVer" is serialized.  The
    backend sees the calls of that one operator and no others, and the two
    fields left out keep their values. *)
Theorem SerializeVersion_writes_ArchiveVer_only `{!VersionBackend W} (arc : IArchive W) :
  attribute_parent arc = false ->
  IsWriter arc = true ->
  flag_set (mArchiveFlags arc) AF_NoSkipping = false ->
  mFileVersion arc = 0 -> mGame arc = eUnknownGame ->
  exists prm w1,
    @operator_shl_Primitive W _ _ Z u16_SerialTraits u16_Primitive
      (ArchiveVer_parameter (mArchiveVersion arc)) arc = Ok (prm, set_world arc w1) /\
    SerializeVersion arc = Ok (tt, set_mArchiveVersion (set_world arc w1) (rValue prm)).
Proof.
  intros Hattr Hw Hns Hfile Hgame.
  assert (Hrun1 : exists prm w1,
    @operator_shl_Primitive W _ _ Z u16_SerialTraits u16_Primitive
      (ArchiveVer_parameter (mArchiveVersion arc)) arc = Ok (prm, set_world arc w1)).
  { rewrite operator_shl_Primitive_run, Hattr. cbv zeta.
    destruct (ShouldSerializeParameter _ arc);
      [destruct (ParamBegin _ _ _) as [[|] w]; simpl|];
      try (by eexists _, _).
    exists (if IsReader arc
            then (InitParameterToDefault (ST := u16_SerialTraits)
                    (ArchiveVer_parameter (mArchiveVersion arc))).2
            else ArchiveVer_parameter (mArchiveVersion arc)), (world arc).
    by destruct arc. }
  destruct Hrun1 as (prm & w1 & Hrun1).
  exists prm, w1. split; [done|].
  unfold SerializeVersion. run. rewrite Hrun1. simpl.
  set (arc1 := set_mArchiveVersion (set_world arc w1) (rValue prm)).
  assert (Hskip2 : ShouldSerializeParameter (ST := u16_SerialTraits)
                     (FileVer_parameter (mFileVersion arc)) arc1 = false).
  { unfold ShouldSerializeParameter. subst arc1. simpl.
    unfold IsWriter in *. simpl. rewrite Hns, Hw, Hfile. done. }
  rewrite operator_shl_Primitive_run.
  replace (attribute_parent arc1) with (attribute_parent arc) by done.
  rewrite Hattr. cbv zeta. rewrite Hskip2. simpl.
  set (arc2 := set_mFileVersion arc1 _).
  assert (Harc2 : arc2 = arc1).
  { subst arc2 arc1. rewrite Hfile. destruct arc; simpl in *. subst.
    by destruct (IsReader _). }
  rewrite Harc2.
  assert (Hskip3 : ShouldSerializeParameter (ST := EGame_SerialTraits)
                     (Game_parameter (mGame arc)) arc1 = false).
  { unfold ShouldSerializeParameter, ParameterMatchesDefault. subst arc1. simpl.
    unfold IsWriter in *. simpl. rewrite Hns, Hw, Hgame. simpl.
    by rewrite Z.eqb_refl. }
  rewrite operator_shl_Global_skipped by done.
  simpl. f_equal. f_equal.
  subst arc1. rewrite Hgame. destruct arc; simpl in *. subst.
  by destruct (IsReader _).
Qed.

End VersionProofs.
(** * Part I, continued: the containers *)

Section ContainerProofs.
Import Archive Game Containers.
Local Open Scope Z_scope.
Context {W : Type} `{!Backend W} `{!Platform} `{!Layout}.

Section VectorProofs.
Context {T : Type} {ST : SerialTraits T} `{!Streamable W T} `{!Constructible T}.

Lemma resize_length (Size : nat) (Vector : list T) : length (resize Size Vector) = Size.
Proof. unfold resize. rewrite length_app, length_take, length_replicate. lia. Qed.

Lemma vector_items_length data turns : forall i (Vector Vector' : list T) arc arc',
  0 <= i -> (Z.to_nat i <= length Vector)%nat ->
  vector_items data turns i Vector arc = Ok (Vector', arc') ->
  length Vector' = length Vector /\ (Z.to_nat i + turns <= length Vector)%nat.
Proof.
  induction turns as [|turns IH]; intros i Vector Vector' arc arc' Hi Hin; simpl.
  - run. intros [= <- <-]. split; [done|lia].
  - destruct (Vector !! Z.to_nat i) as [x|] eqn:Hx; [|done].
    pose proof (lookup_lt_Some _ _ _ Hx) as Hlt.
    run. destruct (operator_shl _ arc) as [[prm arc1]| |]; [|done..].
    intros Hrest. apply IH in Hrest as [Hlen Hbound]; [|lia|rewrite length_insert; lia].
    rewrite length_insert in Hlen, Hbound. split; [done|]. lia.
Qed.

(** X19. The size of a vector after [Serialize].  When the call returns, a
    Reader's vector has exactly as many elements as [SerializeArraySize]
    reported, whatever it held before; the vector of any other archive has
    the elements it had, and [SerializeArraySize] cannot have reported more
    than that, since the loop would have read past the end. *)
Theorem Serialize_vector_length `{!ArraySize W} data (Vector Vector' : list T)
    (arc arc' : IArchive W) :
  Serialize_vector data Vector arc = Ok (Vector', arc') ->
  exists Size arc1,
    SerializeArraySize (Z.of_nat (length Vector) mod 2^32) arc = Ok (Size, arc1) /\
    (IsReader arc1 = true -> length Vector' = Z.to_nat Size) /\
    (IsReader arc1 = false ->
       length Vector' = length Vector /\ (Z.to_nat Size <= length Vector)%nat).
Proof.
  unfold Serialize_vector. run.
  destruct (SerializeArraySize _ arc) as [[Size arc1]| |]; [|done..].
  intros Hitems. exists Size, arc1. split; [done|].
  apply vector_items_length in Hitems as [Hlen Hbound]; [|done|simpl; lia].
  destruct (IsReader arc1).
  - split; [|done]. intros _. by rewrite Hlen, resize_length.
  - split; [done|]. intros _. split; [done|]. simpl in Hbound. lia.
Qed.

End VectorProofs.

(** The "Size" attribute is never skipped. *)
Lemma Size_serialized (Value : Z) (arc : IArchive W) :
  ShouldSerializeParameter (ST := u32_SerialTraits)
    (SerialParameter (ST := u32_SerialTraits) "Size" Value local_Size_addr SH_Attribute 0) arc
  = true.
Proof.
  unfold ShouldSerializeParameter. simpl.
  destruct (flag_set (mArchiveFlags arc) AF_NoSkipping); [done|].
  by destruct (IsWriter arc).
Qed.

(** X20. A vector read from a document without the "Size" attribute.  Under
    the default [SerializeArraySize], when [ParamBegin] declines "Size" a
    Reader takes the size to be 0: the vector comes out empty, whatever it
    held, and no item is serialized. *)
Theorem Serialize_vector_without_Size `{!Primitive W Z}
    {T : Type} {ST : SerialTraits T} `{!Streamable W T} `{!Constructible T}
    data (Vector : list T) (arc : IArchive W) :
  attribute_parent arc = false ->
  IsReader arc = true ->
  (ParamBegin "Size" SH_Attribute (world arc)).1 = false ->
  Serialize_vector (ArraySize0 := default_ArraySize) data Vector arc =
    Ok ([], set_world arc (ParamBegin "Size" SH_Attribute (world arc)).2).
Proof.
  intros Hattr Hr Hdecl.
  unfold Serialize_vector. simpl. unfold IArchive_SerializeArraySize. run.
  rewrite operator_shl_Primitive_run, Hattr, Size_serialized. cbv zeta.
  change (pkName (SerialParameter _ _ _ _ _)) with "Size".
  change (HintFlags (SerialParameter (ST := u32_SerialTraits) "Size" _ _ SH_Attribute 0))
    with SH_Attribute.
  rewrite Hdecl, Hr. simpl.
  replace (IsReader _) with (IsReader arc) by done. by rewrite Hr.
Qed.

Section SetProofs.
Context `{!ArraySize W}.
Context {T : Type} `{Countable T} {ST : SerialTraits T} `{!Streamable W T} `{!Constructible T}.

Lemma set_read_grows turns : forall (Set_ Set' : gset T) arc arc',
  set_read turns Set_ arc = Ok (Set', arc') ->
  Set_ ⊆ Set' /\ (size Set' <= size Set_ + turns)%nat.
Proof.
  induction turns as [|turns IH]; intros Set_ Set' arc arc'; simpl.
  - run. intros [= <- <-]. split; [done|lia].
  - run. destruct (operator_shl _ arc) as [[prm arc1]| |]; [|done..].
    intros Hrest. apply IH in Hrest as [Hsub Hsize].
    split; [etrans; [apply union_subseteq_r|exact Hsub]|].
    pose proof (size_union_alt {[rValue prm]} Set_) as Hu.
    rewrite size_singleton in Hu.
    assert (size (Set_ ∖ {[rValue prm]}) <= size Set_)%nat
      by (apply subseteq_size, subseteq_difference_l; done).
    lia.
Qed.

(** X21. Reading into a set does not clear it.  When [Serialize] on a set
    returns in a Reader, every element the set held is still in it, and it
    has at most as many new elements as [SerializeArraySize] reported; in any
    other archive the set is left as it was. *)
Theorem Serialize_set_keeps_elements (less : T -> T -> bool) (Set_ Set' : gset T)
    (arc arc' : IArchive W) :
  Serialize_set less Set_ arc = Ok (Set', arc') ->
  exists Size arc1,
    SerializeArraySize (Z.of_nat (size Set_) mod 2^32) arc = Ok (Size, arc1) /\
    (IsReader arc1 = true ->
       Set_ ⊆ Set' /\ (size Set' <= size Set_ + Z.to_nat Size)%nat) /\
    (IsReader arc1 = false -> Set' = Set_).
Proof.
  unfold Serialize_set. run.
  destruct (SerializeArraySize _ arc) as [[Size arc1]| |]; [|done..].
  intros Hrun. exists Size, arc1. split; [done|].
  destruct (IsReader arc1).
  - split; [|done]. intros _. by eapply set_read_grows.
  - split; [done|]. intros _.
    destruct (set_write _ arc1) as [[[] arc2]| |]; [|done..].
    by injection Hrun as <- <-.
Qed.

End SetProofs.

Section MapProofs.
Context `{!ArraySize W}.
Context {KeyType : Type} `{Countable KeyType} {ValType : Type}.
Context {STK : SerialTraits KeyType} {STV : SerialTraits ValType}.
Context `{!Streamable W KeyType} `{!Streamable W ValType}.
Context `{!Constructible KeyType} `{!Constructible ValType}.

Lemma map_read_grows turns : forall (Map Map' : gmap KeyType ValType) arc arc',
  map_read turns Map arc = Ok (Map', arc') ->
  Map ⊆ Map' /\ (size Map' <= size Map + turns)%nat.
Proof.
  induction turns as [|turns IH]; intros Map Map' arc arc'; simpl.
  - run. intros [= <- <-]. split; [done|lia].
  - run. unfold callParamBegin. simpl.
    destruct (ParamBegin _ _ _) as [[|] w]; simpl.
    + destruct (operator_shl (Key_parameter default_init) _) as [[Key arc1]| |]; [|done..].
      destruct (operator_shl (Value_parameter default_init) _) as [[Val arc2]| |]; [|done..].
      destruct (Map !! rValue Key) as [x|] eqn:Hfree; [done|]. simpl.
      intros Hrest. apply IH in Hrest as [Hsub Hsize].
      rewrite map_size_insert_None in Hsize by done.
      split; [|lia].
      etrans; [|exact Hsub]. by apply insert_subseteq.
    + intros Hrest. apply IH in Hrest as [Hsub Hsize]. split; [done|lia].
Qed.

(** X22. Reading into a map never replaces a binding.  When
    [SerializeMap_Internal] returns in a Reader, every key the map held is
    still bound to the value it was bound to, and the map has at most as
    many new keys as [SerializeArraySize] reported; in any other archive the
    map is left as it was.  A Reader that enters an item and reads a key
    that the map already binds fails its assertion. *)
Theorem SerializeMap_keeps_bindings (less : KeyType -> KeyType -> bool)
    (Map : gmap KeyType ValType) (arc : IArchive W) :
  (forall Map' arc',
     SerializeMap_Internal less Map arc = Ok (Map', arc') ->
     exists Size arc1,
       SerializeArraySize (Z.of_nat (size Map) mod 2^32) arc = Ok (Size, arc1) /\
       (IsReader arc1 = true ->
          Map ⊆ Map' /\ (size Map' <= size Map + Z.to_nat Size)%nat) /\
       (IsReader arc1 = false -> Map' = Map)) /\
  (forall turns w1 Key arc1 Val arc2 x,
     ParamBegin "Item" SH_IgnoreName (world arc) = (true, w1) ->
     operator_shl (Key_parameter default_init) (set_world arc w1) = Ok (Key, arc1) ->
     operator_shl (Value_parameter default_init) arc1 = Ok (Val, arc2) ->
     Map !! rValue Key = Some x ->
     map_read (S turns) Map arc = AssertFail).
Proof.
  split.
  - intros Map' arc'. unfold SerializeMap_Internal. run.
    destruct (SerializeArraySize _ arc) as [[Size arc1]| |]; [|done..].
    intros Hrun. exists Size, arc1. split; [done|].
    destruct (IsReader arc1).
    + split; [|done]. intros _. by eapply map_read_grows.
    + split; [done|]. intros _.
      destruct (map_write _ arc1) as [[[] arc2]| |]; [|done..].
      by injection Hrun as <- <-.
  - intros turns w1 Key arc1 Val arc2 x Hbegin HKey HVal Hbound.
    simpl. run. unfold callParamBegin. simpl. rewrite Hbegin. simpl.
    rewrite HKey, HVal. simpl. by rewrite Hbound.
Qed.

End MapProofs.

End ContainerProofs.
(** * Part IV, proved: the string table loader *)

Section StringLoaderProofs.
Import StringLoader.
Local Open Scope Z_scope.
Context {St : Type} `{!IInputStream St} `{!Games} `{!Tables} `{!Memory}.
Implicit Type l : CStringLoader St.

Lemma stream_only_refl l : stream_only l l.
Proof. done. Qed.

Lemma stream_only_trans l1 l2 l3 : stream_only l1 l2 -> stream_only l2 l3 -> stream_only l1 l3.
Proof. intros (? & ? & ?) (? & ? & ?). repeat split; congruence. Qed.

Lemma table_resize_length {A} (zero : A) n v : length (resize zero n v) = n.
Proof. unfold resize. rewrite length_app, length_take, length_replicate. lia. Qed.

Lemma assign_at_Ok {A St'} (i : Z) (x : A) (v : list A) (s : St') :
  0 <= i < Z.of_nat (length v) ->
  assign_at i x v s = Ok (<[Z.to_nat i := x]> v, s).
Proof.
  intros Hi. unfold assign_at.
  replace (0 <=? i) with true by (symmetry; apply Z.leb_le; lia).
  by replace (i <? Z.of_nat (length v)) with true by (symmetry; apply Z.ltb_lt; lia).
Qed.


Lemma read_offsets_Ok turns : forall i Offsets l,
  0 <= i -> (Z.to_nat i + turns <= length Offsets)%nat ->
  exists Offsets' l',
    read_offsets turns i Offsets l = Ok (Offsets', l') /\
    length Offsets' = length Offsets /\ stream_only l l'.
Proof.
  induction turns as [|turns IH]; intros i Offsets l Hi Hlen; simpl.
  - by exists Offsets, l.
  - run. unfold callReadLong at 1.
    destruct (ReadLong (rSTRG l)) as [x s] eqn:Hread.
    rewrite assign_at_Ok by lia.
    destruct (IH (i + 1) (<[Z.to_nat i := uint32 x]> Offsets) (set_rSTRG l s)) as
      (Offsets' & l' & Hrun & Hlen' & Hframe); [lia|rewrite length_insert; lia|].
    exists Offsets', l'. split; [done|]. split; [by rewrite Hlen', length_insert|].
    by eapply stream_only_trans.
Qed.

Lemma read_strings_Ok Start Offsets turns : forall iStr Strings_ l,
  0 <= iStr -> (Z.to_nat iStr + turns <= length Offsets)%nat ->
  (Z.to_nat iStr + turns <= length Strings_)%nat ->
  exists Strings' l',
    read_strings Start Offsets turns iStr Strings_ l = Ok (Strings', l') /\
    length Strings' = length Strings_ /\ stream_only l l'.
Proof.
  induction turns as [|turns IH]; intros iStr Strings_ l Hi Hoff Hlen; simpl.
  - by exists Strings_, l.
  - destruct (Offsets !! Z.to_nat iStr) as [off|] eqn:Hoff'.
    2: { apply lookup_ge_None in Hoff'. lia. }
    run. unfold callSeek, callReadString. run. simpl.
    destruct (ReadString _) as [x s] eqn:Hread.
    rewrite assign_at_Ok by lia.
    destruct (IH (iStr + 1) (<[Z.to_nat iStr := x]> Strings_) (set_rSTRG
                (set_rSTRG l (Seek (uint32 (Start + off)) SEEK_SET (rSTRG l))) s)) as
      (Strings' & l' & Hrun & Hlen' & Hframe); [lia|lia|rewrite length_insert; lia|].
    exists Strings', l'. split; [done|]. split; [by rewrite Hlen', length_insert|].
    by eapply stream_only_trans.
Qed.

(** *** The name table *)






(** *** The tables of the languages *)

Lemma read_languages_Ok turns : forall iLang LangOffsets l,
  0 <= iLang -> (Z.to_nat iLang + turns <= length LangOffsets)%nat ->
  (Z.to_nat iLang + turns <= length (mLangTables (mpStringTable l)))%nat ->
  exists LangOffsets' l',
    read_languages turns iLang LangOffsets l = Ok (LangOffsets', l') /\
    length LangOffsets' = length LangOffsets /\
    length (mLangTables (mpStringTable l')) = length (mLangTables (mpStringTable l)) /\
    mNumStrings (mpStringTable l') = mNumStrings (mpStringTable l) /\
    mStringNames (mpStringTable l') = mStringNames (mpStringTable l) /\
    mVersion l' = mVersion l.
Proof.
  induction turns as [|turns IH]; intros iLang LangOffsets l Hi Hoff Hlen; simpl.
  - by exists LangOffsets, l.
  - run. destruct (mLangTables (mpStringTable l) !! Z.to_nat iLang) as [Lang|] eqn:HLang.
    2: { apply lookup_ge_None in HLang. lia. }
    unfold callReadFourCC, callReadLong. run. simpl.
    destruct (ReadFourCC (rSTRG l)) as [id s] eqn:Hid. simpl.
    destruct (ReadLong s) as [off s'] eqn:Hoff'. simpl.
    rewrite assign_at_Ok by lia. simpl.
    destruct (mVersion l =? Echoes); unfold callSeek; run; simpl;
      (match goal with
       | |- context [read_languages turns (iLang + 1) ?LO ?X] =>
           destruct (IH (iLang + 1) LO X) as
             (LangOffsets' & l' & Hrun & Hlen1 & Hlen2 & Hnum & Hnames & Hver);
             [lia|rewrite length_insert; lia|simpl; rewrite length_insert; lia|]
       end);
      exists LangOffsets', l'; (split; [exact Hrun|]);
      rewrite Hlen1, Hlen2, Hnum, Hnames, Hver; simpl; by rewrite !length_insert.
Qed.

(** The allocations that the machine grants. *)
Lemma resize_vector_Ok {A} (zero : A) (n : Z) (v : list A) l :
  (forall t, allocates t n = true) ->
  resize_vector zero n v l = Returned (Ok (resize zero (Z.to_nat n) v, l)).
Proof. intros Halloc. unfold resize_vector. by rewrite Halloc, orb_true_r. Qed.

Lemma new_vector_Ok {A} (zero : A) (n : Z) l :
  (forall t, allocates t n = true) ->
  new_vector zero n l = Returned (Ok (replicate (Z.to_nat n) zero, l)).
Proof. intros Halloc. unfold new_vector. by rewrite Halloc, orb_true_r. Qed.

Lemma read_tables_Ok StringsStart NumStrings LangOffsets turns : forall iLang l,
  (forall t, allocates t NumStrings = true) ->
  0 <= iLang -> (Z.to_nat iLang + turns <= length LangOffsets)%nat ->
  (Z.to_nat iLang + turns = length (mLangTables (mpStringTable l)))%nat ->
  (forall (j : nat) Lang, (j < Z.to_nat iLang)%nat ->
     mLangTables (mpStringTable l) !! j = Some Lang -> holds (Z.to_nat NumStrings) Lang) ->
  exists l',
    read_tables StringsStart NumStrings LangOffsets turns iLang l = Returned (Ok (tt, l')) /\
    length (mLangTables (mpStringTable l')) = length (mLangTables (mpStringTable l)) /\
    Forall (holds (Z.to_nat NumStrings)) (mLangTables (mpStringTable l')) /\
    mNumStrings (mpStringTable l') = mNumStrings (mpStringTable l) /\
    mStringNames (mpStringTable l') = mStringNames (mpStringTable l).
Proof.
  induction turns as [|turns IH]; intros iLang l Halloc Hi Hoff Hlen Hdone; simpl.
  - exists l. split; [done|]. split; [done|]. split; [|done].
    apply Forall_lookup. intros j Lang Hj. apply (Hdone j Lang); [|done].
    apply lookup_lt_Some in Hj. lia.
  - destruct (LangOffsets !! Z.to_nat iLang) as [off|] eqn:Hoff'.
    2: { apply lookup_ge_None in Hoff'. lia. }
    destruct (mLangTables (mpStringTable l) !! Z.to_nat iLang) as [pLang|] eqn:HLang.
    2: { apply lookup_ge_None in HLang. lia. }
    assert (Hbody : forall s0 LangStart,
      exists l',
        (Strings_ ← resize_vector "" NumStrings (Strings pLang);
         nothrow (modify (set_Strings iLang pLang Strings_));;
         StringOffsets ← new_vector 0 NumStrings;
         StringOffsets ← nothrow (read_offsets (Z.to_nat NumStrings) 0 StringOffsets);
         Strings' ← nothrow (read_strings LangStart StringOffsets (Z.to_nat NumStrings) 0
                               Strings_);
         nothrow (modify (set_Strings iLang pLang Strings'));;
         read_tables StringsStart NumStrings LangOffsets turns (iLang + 1))
          (set_rSTRG l s0) = Returned (Ok (tt, l')) /\
        length (mLangTables (mpStringTable l')) = length (mLangTables (mpStringTable l)) /\
        Forall (holds (Z.to_nat NumStrings)) (mLangTables (mpStringTable l')) /\
        mNumStrings (mpStringTable l') = mNumStrings (mpStringTable l) /\
        mStringNames (mpStringTable l') = mStringNames (mpStringTable l)).
    { intros s0 LangStart.
      set (Strings_ := resize "" (Z.to_nat NumStrings) (Strings pLang)).
      set (l0 := set_Strings iLang pLang Strings_ (set_rSTRG l s0)).
      destruct (read_offsets_Ok (Z.to_nat NumStrings) 0 (replicate (Z.to_nat NumStrings) 0) l0)
        as (StringOffsets & l1 & Hrun1 & Hlen1 & Ht1 & Hv1 & He1);
        [lia|rewrite length_replicate; simpl; lia|].
      rewrite length_replicate in Hlen1.
      destruct (read_strings_Ok LangStart StringOffsets (Z.to_nat NumStrings) 0 Strings_ l1)
        as (Strings' & l2 & Hrun2 & Hlen2 & Ht2 & Hv2 & He2);
        [lia|simpl; lia|subst Strings_; rewrite table_resize_length; simpl; lia|].
      subst Strings_. rewrite table_resize_length in Hlen2.
      set (Strings_ := resize "" (Z.to_nat NumStrings) (Strings pLang)) in *.
      set (l3 := set_Strings iLang pLang Strings' l2).
      assert (Htables3 : mLangTables (mpStringTable l3)
                         = <[Z.to_nat iLang := mkLangTable (Language pLang) Strings']>
                             (mLangTables (mpStringTable l))).
      { subst l3 l0. unfold set_Strings. simpl. rewrite Ht2, Ht1. simpl.
        by rewrite list_insert_insert_eq. }
      destruct (IH (iLang + 1) l3) as (l' & Hrun & Hlen' & Hall & Hnum & Hnames);
        [done|lia|lia|rewrite Htables3, length_insert; lia| |].
      { intros j Lang Hj. rewrite Htables3.
        destruct (decide (j = Z.to_nat iLang)) as [->|Hne].
        - rewrite list_lookup_insert_eq by lia. by intros [= <-].
        - rewrite list_lookup_insert_ne by done. apply Hdone. lia. }
      exists l'. split.
      { unfold mbind, Throwing_bind.
        rewrite resize_vector_Ok by done. fold Strings_.
        unfold nothrow at 1. unfold modify at 1. fold l0.
        rewrite new_vector_Ok by done.
        unfold nothrow at 1. rewrite Hrun1.
        unfold nothrow at 1. rewrite Hrun2.
        unfold nothrow at 1. unfold modify at 1. fold l3.
        exact Hrun. }
      rewrite Hlen', Hnum, Hnames, Htables3, length_insert.
      subst l3 l0. unfold set_Strings. simpl. by rewrite Ht2, Ht1. }
    unfold mbind at 1 2 3 4 5, Throwing_bind at 1 2 3 4 5.
    unfold nothrow at 1 2 3 4 5. unfold callSeek, callTell. run. simpl.
    destruct (mVersion l =? Prime); simpl; rewrite HLang;
      (match goal with
       | |- context [read_strings ?LS _ _ _ _] =>
           match goal with
           | |- exists l', Throwing_bind _ _ _ _ (set_rSTRG _ ?b) = _ /\ _ =>
               destruct (Hbody b LS) as (l' & Hrun & Hrest)
           end
       end);
      exists l'; (split; [exact Hrun|exact Hrest]).
Qed.

(** X24. The shape of the table [LoadPrimeSTRG] builds.  The two numbers of
    the header are read as [uint32].  For a version other than Echoes, on a
    machine that grants a vector of as many elements as either number when
    asked, the function returns, whatever else the stream holds, with as many
    language tables as the header announces and, in every one of them, as
    many strings as the header announces, which is also what [mNumStrings]
    is set to; the string names are not touched.  When the header announces
    more language tables than the table has and the machine does not grant
    them, [std::bad_alloc] leaves the function. *)
Theorem LoadPrimeSTRG_shape l :
  mVersion l <> Echoes ->
  let NumLanguages := uint32 (ReadLong (rSTRG l)).1 in
  let NumStrings := uint32 (ReadLong (ReadLong (rSTRG l)).2).1 in
  ((forall t, allocates t NumLanguages = true) ->
   (forall t, allocates t NumStrings = true) ->
   exists l',
     LoadPrimeSTRG l = Returned (Ok (tt, l')) /\
     mNumStrings (mpStringTable l') = NumStrings /\
     length (mLangTables (mpStringTable l')) = Z.to_nat NumLanguages /\
     Forall (fun Lang => length (Strings Lang) = Z.to_nat NumStrings)
       (mLangTables (mpStringTable l')) /\
     mStringNames (mpStringTable l') = mStringNames (mpStringTable l)) /\
  (Z.of_nat (length (mLangTables (mpStringTable l))) < NumLanguages ->
   allocates (set_mNumStrings (mpStringTable l) NumStrings) NumLanguages = false ->
   LoadPrimeSTRG l = bad_alloc).
Proof.
  intros Hver NumLanguages NumStrings.
  subst NumLanguages NumStrings.
  destruct (ReadLong (rSTRG l)) as [NumLanguages s] eqn:Hlang. cbn [fst snd].
  destruct (ReadLong s) as [NumStrings s'] eqn:Hstr. cbn [fst snd].
  set (lh := set_table (set_rSTRG (set_rSTRG l s) s')
               (set_mNumStrings (mpStringTable l) (uint32 NumStrings))).
  assert (Hheader : LoadPrimeSTRG l
    = (Tables_ ← resize_vector (mkLangTable "" []) (uint32 NumLanguages)
                   (mLangTables (mpStringTable lh));
       nothrow (modify (fun l => set_table l (set_mLangTables (mpStringTable l) Tables_)));;
       LangOffsets ← new_vector 0 (uint32 NumLanguages);
       LangOffsets ← nothrow (read_languages (Z.to_nat (uint32 NumLanguages)) 0 LangOffsets);
       l ← nothrow get;
       (if mVersion l =? Echoes then callLoadNameTable else mret tt);;
       StringsStart ← nothrow callTell;
       read_tables (uint32 StringsStart) (uint32 NumStrings) LangOffsets
         (Z.to_nat (uint32 NumLanguages)) 0) lh).
  { unfold LoadPrimeSTRG, mbind.
    do 4 (unfold Throwing_bind at 1, nothrow at 1).
    unfold callReadLong, modify, get. rewrite Hlang. cbv beta iota.
    cbn [rSTRG set_rSTRG]. rewrite Hstr. reflexivity. }
  rewrite Hheader. clear Hheader.
  unfold mbind.
  split.
  - intros HallocL HallocS.
    unfold Throwing_bind at 1. rewrite resize_vector_Ok by done. cbv beta iota.
    unfold Throwing_bind at 1, nothrow at 1, modify. cbv beta iota.
    set (l0 := set_table _ _).
    assert (Hl0 : length (mLangTables (mpStringTable l0)) = Z.to_nat (uint32 NumLanguages)).
    { subst l0. simpl. by rewrite table_resize_length. }
    unfold Throwing_bind at 1. rewrite new_vector_Ok by done. cbv beta iota.
    destruct (read_languages_Ok (Z.to_nat (uint32 NumLanguages)) 0
                (replicate (Z.to_nat (uint32 NumLanguages)) 0) l0) as
      (LangOffsets & l1 & Hrun1 & Hlen1 & Htab1 & Hnum1 & Hnames1 & Hver1);
      [lia|rewrite length_replicate; simpl; lia|rewrite Hl0; simpl; lia|].
    rewrite length_replicate in Hlen1.
    unfold Throwing_bind at 1, nothrow at 1. rewrite Hrun1. cbv beta iota.
    unfold Throwing_bind at 1, nothrow at 1, get. cbv beta iota.
    rewrite Hver1. replace (mVersion l0) with (mVersion l) by done.
    destruct (Z.eqb_spec (mVersion l) Echoes) as [|_]; [done|].
    unfold Throwing_bind at 1, mret, Throwing_ret. cbv beta iota.
    unfold Throwing_bind at 1, nothrow at 1, callTell. run. cbv beta iota.
    destruct (read_tables_Ok (uint32 (Tell (rSTRG l1))) (uint32 NumStrings) LangOffsets
                (Z.to_nat (uint32 NumLanguages)) 0 l1) as
      (l' & Hrun & Hlen' & Hall & Hnum & Hnames);
      [done|lia|simpl; lia|rewrite Htab1, Hl0; simpl; lia|intros j Lang Hj; simpl in Hj; lia|].
    exists l'. split; [exact Hrun|].
    rewrite Hnum, Hnum1, Hlen', Htab1, Hl0, Hnames, Hnames1.
    repeat split; try done.
  - intros Hmore Hrefuse.
    unfold Throwing_bind at 1, resize_vector.
    replace (mLangTables (mpStringTable lh)) with (mLangTables (mpStringTable l)) by done.
    replace (uint32 NumLanguages <=? Z.of_nat (length (mLangTables (mpStringTable l))))
      with false by (symmetry; apply Z.leb_gt; exact Hmore).
    replace (mpStringTable lh)
      with (set_mNumStrings (mpStringTable l) (uint32 NumStrings)) by done.
    by rewrite Hrefuse.
Qed.

(** *** The entry point *)

Lemma LoadPrimeDemoSTRG_Undefined l : LoadPrimeDemoSTRG l = Undefined.
Proof.
  unfold LoadPrimeDemoSTRG. run. simpl.
  assert (Hnone : resize (mkLangTable "" []) 1 (mLangTables (mpStringTable l)) !! 1%nat = None).
  { apply lookup_ge_None. by rewrite table_resize_length. }
  by rewrite Hnone.
Qed.

(** X25. What [LoadSTRG] makes of the header.  A stream without the magic
    that passes the test for the demo format (the first value is no greater
    than the size and the stream, put at that offset, is at its end or reads
    the short 0xFFFF) is handed to [LoadPrimeDemoSTRG], which resizes the
    language tables to one element and then writes to the element at index
    1: the load never yields a table.  A stream with the magic and a version
    other than 0, 1 and 3 yields [nullptr] and one error message, and no
    loader is run. *)
Theorem LoadSTRG_header (rSTRG0 : St) :
  IsValid rSTRG0 = true ->
  let Magic := (ReadLong rSTRG0).1 in
  let s1 := (ReadLong rSTRG0).2 in
  (Magic <> 0x87654321 ->
   Magic <= uint32 (Size s1) ->
   EoF (Seek Magic SEEK_SET s1) = true \/ (ReadShort (Seek Magic SEEK_SET s1)).1 = 0xFFFF ->
     LoadSTRG rSTRG0 = Returned Undefined) /\
  (Magic = 0x87654321 ->
   let FileVersion := (ReadLong s1).1 in
   FileVersion <> 0 -> FileVersion <> 1 -> FileVersion <> 3 ->
     LoadSTRG rSTRG0
       = Returned (Ok (None, (ReadLong s1).2, [": Unsupported STRG version: "]))).
Proof.
  intros Hvalid Magic s1. subst Magic s1.
  unfold LoadSTRG. rewrite Hvalid. simpl.
  destruct (ReadLong rSTRG0) as [Magic s1]. simpl.
  split.
  - intros Hmagic Hsize Hdemo.
    destruct (Z.eqb_spec Magic 0x87654321) as [|_]; [done|]. simpl.
    replace (Magic <=? uint32 (Size s1)) with true by (symmetry; apply Z.leb_le; lia).
    assert (Hrun : forall s, run_loader PrimeDemo s = Returned Undefined).
    { intros s. unfold run_loader, nothrow.
      by rewrite Z.eqb_refl, LoadPrimeDemoSTRG_Undefined. }
    destruct (EoF (Seek Magic SEEK_SET s1)) eqn:Heof.
    + rewrite Z.eqb_refl. simpl. apply Hrun.
    + destruct Hdemo as [|Hshort]; [done|].
      destruct (ReadShort _) as [x s3]. simpl in Hshort. subst x. simpl.
      rewrite Z.eqb_refl. simpl. apply Hrun.
  - intros ->. cbv zeta. simpl.
    destruct (ReadLong s1) as [FileVersion s2]. simpl. intros Hv0 Hv1 Hv3.
    unfold GetFormatVersion.
    destruct (Z.eqb_spec FileVersion 0) as [|_]; [done|].
    destruct (Z.eqb_spec FileVersion 1) as [|_]; [done|].
    destruct (Z.eqb_spec FileVersion 3) as [|_]; [done|].
    by rewrite Z.eqb_refl.
Qed.

End StringLoaderProofs.
(** * Part III, continued: an enum value in an archive *)

Section EnumValueArchive.
Import Archive EnumProperty EnumPropertyArchive.
Local Open Scope Z_scope.
Context {W : Type} `{!Backend W} `{!Platform} `{!TStringTraits}.
Context {TString_Primitive : Primitive W string} {u32_Primitive : Primitive W Z}.

(** X26. [SEnumValue::Serialize] serializes the two members as attributes,
    one after the other.  It fails its assertion exactly when the frame on
    top of the stack is an attribute in a debug build; otherwise it returns
    with only the backend changed, so the parameter stack is balanced.  In a
    Reader, when [ParamBegin] declines both attributes the value becomes the
    default one, with an empty name and the ID 0. *)
Theorem SEnumValue_Serialize_attributes (this : addr) (v : SEnumValue) (arc : IArchive W) :
  (SEnumValue_Serialize this v arc = AssertFail <-> attribute_parent arc = true) /\
  (attribute_parent arc = false ->
     exists v' w', SEnumValue_Serialize this v arc = Ok (v', set_world arc w')) /\
  (attribute_parent arc = false ->
   IsReader arc = true ->
   (forall flags w, (ParamBegin "Name" flags w).1 = false) ->
   (forall flags w, (ParamBegin "ID" flags w).1 = false) ->
     exists w', SEnumValue_Serialize this v arc = Ok (mkEnumValue "" 0, set_world arc w')).
Proof.
  unfold SEnumValue_Serialize. run.
  destruct (attribute_parent arc) eqn:Hattr.
  { rewrite operator_shl_Primitive_run, Hattr. split; [done|]. split; intros [=]. }
  destruct (operator_shl_Primitive_Ok (ST := TString_SerialTraits)
              (Name_parameter this v) arc Hattr) as (n & w1 & -> & HName).
  destruct (operator_shl_Primitive_Ok (ST := u32_SerialTraits)
              (ID_parameter this v) (set_world arc w1) Hattr) as (i & w2 & -> & HID).
  simpl. split; [done|]. split.
  - intros _. by exists (mkEnumValue n i), w2.
  - intros _ Hr HdN HdI. exists w2.
    specialize (HName Hr (HdN _ _)). specialize (HID Hr (HdI _ _)).
    apply (f_equal rValue) in HName, HID. simpl in HName, HID.
    by rewrite HName, HID.
Qed.

End EnumValueArchive.
(** * Part V, proved: property templates *)

Section PropertyTemplateProofs.
Import PropertyTemplate.
Local Open Scope Z_scope.
Implicit Type mEnumerators : list SEnumerator.

Lemma Matches_self (t : IPropertyTemplate) : Matches t (Some t) = true.
Proof.
  unfold Matches. rewrite !String.eqb_refl, !Z.eqb_refl.
  by rewrite !bool_decide_eq_true_2.
Qed.

(** X27. [Copy] and [Matches].  A template matches itself and never
    matches [nullptr].  After [Copy] from another template, the template
    matches that template exactly when the two are of the same property
    type, which [Copy] leaves as it is; and that template matches the copy
    under the same condition. *)
Theorem Copy_then_Matches (this other : IPropertyTemplate) :
  Matches this (Some this) = true /\
  Matches this None = false /\
  exists copy,
    Copy this (Some other) = Ok copy /\
    Type_ copy = Type_ this /\
    Matches copy (Some other) = (Type_ this =? Type_ other) /\
    Matches other (Some copy) = (Type_ other =? Type_ this).
Proof.
  split; [apply Matches_self|]. split; [done|].
  eexists. split; [reflexivity|]. split; [done|].
  unfold Matches. simpl. rewrite !String.eqb_refl, !Z.eqb_refl.
  by rewrite !bool_decide_eq_true_2.
Qed.

Lemma EnumeratorIndex_loop_found mEnumerators enumID (k : nat) e :
  Z.of_nat (length mEnumerators) < 2^32 ->
  mEnumerators !! k = Some e -> ID e = enumID ->
  (forall (j : nat) e', (j < k)%nat -> mEnumerators !! j = Some e' -> ID e' <> enumID) ->
  forall turns (i : nat),
    (i <= k)%nat -> (k - i < turns)%nat ->
    EnumeratorIndex_loop turns mEnumerators enumID (Z.of_nat i) = Some (Z.of_nat k).
Proof.
  intros Hlen Hk Hid Hfirst.
  pose proof (lookup_lt_Some _ _ _ Hk) as Hklen.
  induction turns as [|turns IH]; intros i Hi Hturns; [lia|].
  simpl. rewrite Nat2Z.id.
  replace (Z.of_nat i <? Z.of_nat (length mEnumerators)) with true
    by (symmetry; apply Z.ltb_lt; lia).
  destruct (decide (i = k)) as [->|Hne].
  - rewrite Hk. by rewrite Hid, Z.eqb_refl.
  - destruct (mEnumerators !! i) as [e'|] eqn:Hi'.
    2: { apply lookup_ge_None in Hi'. lia. }
    destruct (Z.eqb_spec (ID e') enumID) as [Heq|_].
    + exfalso. apply (Hfirst i e'); [lia|done|done].
    + unfold u32. rewrite Z.mod_small by lia.
      replace (Z.of_nat i + 1) with (Z.of_nat (S i)) by lia.
      apply IH; lia.
Qed.

Lemma EnumeratorIndex_loop_absent mEnumerators enumID :
  Z.of_nat (length mEnumerators) < 2^32 ->
  (forall e, e ∈ mEnumerators -> ID e <> enumID) ->
  forall turns (i : nat),
    (i <= length mEnumerators)%nat -> (length mEnumerators - i < turns)%nat ->
    EnumeratorIndex_loop turns mEnumerators enumID (Z.of_nat i) = Some (2^32 - 1).
Proof.
  intros Hlen Habsent.
  induction turns as [|turns IH]; intros i Hi Hturns; [lia|].
  simpl. rewrite Nat2Z.id.
  destruct (Z.ltb_spec (Z.of_nat i) (Z.of_nat (length mEnumerators))) as [Hlt|Hge]; [|done].
  destruct (mEnumerators !! i) as [e'|] eqn:Hi'.
  2: { apply lookup_ge_None in Hi'. lia. }
  destruct (Z.eqb_spec (ID e') enumID) as [Heq|_].
  - exfalso. apply (Habsent e'); [by eapply list_elem_of_lookup_2|done].
  - unfold u32. rewrite Z.mod_small by lia.
    replace (Z.of_nat i + 1) with (Z.of_nat (S i)) by lia.
    apply IH; lia.
Qed.

(** X28. [EnumeratorIndex], [EnumeratorID] and [EnumeratorName] of an enum
    template with fewer than 2^32 enumerators.  For an ID that an enumerator
    carries, the index returned is that of the first such enumerator, and
    [EnumeratorID] and [EnumeratorName] give back the ID and the name of that
    one.  For an ID that none carries, the index returned is [u32(-1)], on
    which [EnumeratorID] answers [u32(-1)] and [EnumeratorName] answers
    "INVALID ENUM INDEX": the ID 0xFFFFFFFF is given back by [EnumeratorID]
    whether or not it is listed. *)
Theorem EnumeratorID_of_EnumeratorIndex mEnumerators enumID :
  Z.of_nat (length mEnumerators) < 2^32 ->
  exists enumIndex,
    EnumeratorIndex mEnumerators enumID = Some enumIndex /\
    (forall (k : nat) e,
       mEnumerators !! k = Some e -> ID e = enumID ->
       (forall (j : nat) e', (j < k)%nat -> mEnumerators !! j = Some e' -> ID e' <> enumID) ->
       enumIndex = Z.of_nat k /\
       EnumeratorID mEnumerators enumIndex = enumID /\
       EnumeratorName mEnumerators enumIndex = Name e) /\
    ((forall e, e ∈ mEnumerators -> ID e <> enumID) ->
       enumIndex = 2^32 - 1 /\
       EnumeratorID mEnumerators enumIndex = 2^32 - 1 /\
       EnumeratorName mEnumerators enumIndex = "INVALID ENUM INDEX").
Proof.
  intros Hlen.
  assert (Hcases :
    (exists (k : nat) e, mEnumerators !! k = Some e /\ ID e = enumID /\
       forall (j : nat) e', (j < k)%nat -> mEnumerators !! j = Some e' -> ID e' <> enumID) \/
    (forall e, e ∈ mEnumerators -> ID e <> enumID)).
  { destruct (list_find (fun e => ID e = enumID) mEnumerators) as [[k e]|] eqn:Hfind.
    - apply list_find_Some in Hfind as (Hk & Hid & Hfirst).
      left. exists k, e. split; [done|]. split; [done|].
      intros j e' Hj Hj'. by apply (Hfirst j e').
    - apply list_find_None in Hfind. right.
      intros e He. by apply (proj1 (Forall_forall _ _) Hfind). }
  destruct Hcases as [(k & e & Hk & Hid & Hfirst)|Habsent].
  - pose proof (lookup_lt_Some _ _ _ Hk) as Hklen.
    exists (Z.of_nat k). split.
    { apply (EnumeratorIndex_loop_found mEnumerators enumID k e Hlen Hk Hid Hfirst _ 0%nat);
        lia. }
    split.
    + intros k' e' Hk' Hid' Hfirst'.
      assert (k' = k) as ->.
      { destruct (Nat.lt_trichotomy k k') as [Hlt|[->|Hgt]]; [|done|].
        - exfalso. by apply (Hfirst' k e).
        - exfalso. by apply (Hfirst k' e'). }
      assert (e' = e) as -> by congruence.
      split; [done|].
      unfold EnumeratorID, EnumeratorName. rewrite Nat2Z.id, Hk.
      by replace (Z.of_nat k <? Z.of_nat (length mEnumerators)) with true
        by (symmetry; apply Z.ltb_lt; lia).
    + intros Habsent. exfalso.
      apply (Habsent e); [by eapply list_elem_of_lookup_2|done].
  - exists (2^32 - 1). split.
    { apply (EnumeratorIndex_loop_absent mEnumerators enumID Hlen Habsent _ 0%nat); lia. }
    split.
    + intros k e Hk Hid _. exfalso.
      apply (Habsent e); [by eapply list_elem_of_lookup_2|done].
    + intros _. split; [done|].
      unfold EnumeratorID, EnumeratorName.
      by replace (2^32 - 1 <? Z.of_nat (length mEnumerators)) with false
        by (symmetry; apply Z.ltb_ge; lia).
Qed.

End PropertyTemplateProofs.
(** * The parts added, on the fixtures *)

Section ArchiveOnDocument.
Import Archive Game Containers Fixture MoreFixture.
Local Open Scope Z_scope.

Lemma Member_operator_balanced_witness :
  exists r,
    operator_shl_Member (V := unit) (mkParam "Obj" tt 500 0 None) (reading [] true) = Ok r /\
    mParmStack r.2 = [].
Proof.
  destruct (Member_operator_balanced (W := Document) (V := unit)
              (mkParam "Obj" tt 500 0 None) (reading [] true)) as [Hmember _].
  - intros v a r [= <-]. reflexivity.
  - eexists. split; [reflexivity|]. apply Hmember. reflexivity.
Defined.

Lemma refused_pointer_field_witness :
  let arc := reading [] false in
  operator_shl_MemberPtr (V := unit) (Obj (Some 7)) arc
    = Ok (Obj None, set_world arc (mkDocument ["Obj"] [] false)).
Proof.
  intros arc.
  destruct (refused_pointer_field (W := Document) (V := unit) (P := Z) (Obj (Some 7)) arc
              (mkDocument ["Obj"] [] false) (mkDocument ["Obj"] [] false) (Some 7))
    as [Hmember _]; [reflexivity..|].
  exact Hmember.
Defined.

Lemma unknown_type_leaves_null_witness :
  let arc := archive AF_Reader skCurrentArchiveVersion true in
  exists w,
    operator_shl_AbstractPtr (V := unit) (T := Z) (F := null_factory) (Obj None) arc
      = Ok (Obj None, set_world arc w).
Proof.
  intros arc.
  destruct (unknown_type_leaves_null (W := World) (T := Z) (V := unit) null_factory
              (Obj None) arc (true, ["Obj"]) (true, ["Obj"]))
    as (Type_ & w3 & _ & Hrun); [reflexivity..|].
  exists (ParamEnd w3). apply Hrun. reflexivity.
Defined.

Lemma SerializeVersion_absent_attributes_witness :
  exists arc',
    SerializeVersion (reading [4] true) = Ok (tt, arc') /\
    mArchiveVersion arc' = 4 /\ mFileVersion arc' = 0 /\ mGame arc' = -1.
Proof.
  destruct (SerializeVersion_absent_attributes (W := Document) (reading [4] true))
    as (arc' & Hrun & HFileVer & HGame & HArchiveVer & _);
    [reflexivity|reflexivity|reflexivity|intros flags w; reflexivity
    |intros flags w; reflexivity|].
  exists arc'. split; [exact Hrun|]. split; [exact HArchiveVer|]. split; [exact HFileVer|].
  exact HGame.
Defined.

Lemma SerializeVersion_writes_ArchiveVer_only_witness :
  SerializeVersion blank_writer = Ok (tt, set_world blank_writer (true, ["ArchiveVer"])).
Proof.
  destruct (SerializeVersion_writes_ArchiveVer_only (W := World) blank_writer)
    as (prm & w1 & Hfirst & Hrun); [reflexivity..|].
  rewrite Hrun. vm_compute in Hfirst. injection Hfirst as <- <-. reflexivity.
Defined.

Lemma Serialize_vector_length_witness :
  exists Vector' arc',
    Serialize_vector 3000 [5] (reading [2; 10; 20] true) = Ok (Vector', arc') /\
    length Vector' = 2%nat.
Proof.
  destruct (Serialize_vector 3000 [5] (reading [2; 10; 20] true))
    as [[Vector' arc']| |] eqn:Hrun; [|vm_compute in Hrun; discriminate..].
  destruct (Serialize_vector_length (W := Document) _ _ _ _ _ Hrun)
    as (Size & arc1 & HSize & Hreader & _).
  vm_compute in HSize. injection HSize as <- <-.
  exists Vector', arc'. split; [reflexivity|]. apply Hreader. reflexivity.
Defined.

Lemma Serialize_vector_without_Size_witness :
  Serialize_vector (ArraySize0 := default_ArraySize) 3000 [5; 6] (archive AF_Reader 2 false)
    = Ok ([], set_world (archive AF_Reader 2 false) (false, ["Size"])).
Proof.
  rewrite (Serialize_vector_without_Size (W := World) (T := Z) 3000 [5; 6]
             (archive AF_Reader 2 false)); reflexivity.
Defined.

Lemma Serialize_set_keeps_elements_witness :
  exists Set' arc',
    Serialize_set Z.ltb ({[5]} : gset Z) (reading [1; 9] true) = Ok (Set', arc') /\
    5 ∈ Set'.
Proof.
  destruct (Serialize_set Z.ltb ({[5]} : gset Z) (reading [1; 9] true))
    as [[Set' arc']| |] eqn:Hrun; [|vm_compute in Hrun; discriminate..].
  destruct (Serialize_set_keeps_elements (W := Document) _ _ _ _ _ Hrun)
    as (Size & arc1 & HSize & Hreader & _).
  vm_compute in HSize. injection HSize as <- <-.
  exists Set', arc'. split; [reflexivity|].
  destruct Hreader as [Hkept _]; [reflexivity|].
  apply Hkept. by apply elem_of_singleton.
Defined.

Lemma SerializeMap_keeps_bindings_witness :
  (exists Map' arc',
     SerializeMap_Internal Z.ltb ({[5 := 50]} : gmap Z Z) (reading [1; 6; 60] true)
       = Ok (Map', arc') /\
     Map' !! 5 = Some 50) /\
  map_read 1 ({[5 := 50]} : gmap Z Z) (reading [5; 60] true) = AssertFail.
Proof.
  split.
  - destruct (SerializeMap_Internal Z.ltb ({[5 := 50]} : gmap Z Z) (reading [1; 6; 60] true))
      as [[Map' arc']| |] eqn:Hrun; [|vm_compute in Hrun; discriminate..].
    destruct (SerializeMap_keeps_bindings (W := Document) Z.ltb ({[5 := 50]} : gmap Z Z)
                (reading [1; 6; 60] true)) as [Hkeeps _].
    destruct (Hkeeps Map' arc' Hrun) as (Size & arc1 & HSize & Hreader & _).
    vm_compute in HSize. injection HSize as <- <-.
    exists Map', arc'. split; [reflexivity|].
    destruct Hreader as [Hkept _]; [reflexivity|].
    eapply lookup_weaken; [|exact Hkept]. reflexivity.
  - destruct (SerializeMap_keeps_bindings (W := Document) Z.ltb ({[5 := 50]} : gmap Z Z)
                (reading [5; 60] true)) as [_ Hbound].
    eapply (Hbound 0%nat); reflexivity.
Defined.

End ArchiveOnDocument.

Section StoreOnMoreFixture.
Import Store Game StoreMore StoreFixture MoreStoreFixture.
Local Open Scope Z_scope.
#[local] Existing Instance MoreFixture.game_constants.

Lemma RegisterResource_then_found_witness :
  exists s',
    RegisterResource 8 1 "chars" "first" project = Ok (Some 8, s') /\
    FindEntry 8 s' = Some 8.
Proof.
  destruct (RegisterResource_then_found 8 1 "chars" "first" project)
    as (s' & Hrun & Hfound & _); [reflexivity..|].
  by exists s'.
Defined.

Lemma RegisterResource_invalid_id_witness :
  exists s',
    RegisterResource 0xFFFFFFFF 1 "chars" "first" project = Ok (Some 0xFFFFFFFF, s') /\
    FindEntry 0xFFFFFFFF s' = None.
Proof.
  destruct (RegisterResource_invalid_id 0xFFFFFFFF 1 "chars" "first" project)
    as (pDir & s' & Hrun & _ & _ & Hfound & _); [reflexivity..|].
  by exists s'.
Defined.

Lemma RegisterTransientResource_ID_idempotent_witness :
  (exists s', RegisterTransientResource_ID 1 8 "chars" "temp" project = Ok (8, s') /\
     RegisterTransientResource_ID 2 8 "other" "name" s' = Ok (8, s')) /\
  RegisterTransientResource_ID 2 7 "other" "name" project = Ok (7, project).
Proof.
  split.
  - destruct (RegisterTransientResource_ID_idempotent 1 8 "chars" "temp" project)
      as (s' & Hrun & _ & _ & Hagain); [reflexivity|].
    exists s'. split; [exact Hrun|]. apply Hagain.
  - destruct (RegisterTransientResource_ID_idempotent 2 7 "other" "name" project)
      as (s' & Hrun & Hsame & _); [reflexivity|].
    rewrite Hrun, Hsame; [reflexivity|]. by exists hero.
Defined.

Lemma DeleteResourceEntry_loaded_witness :
  DeleteResourceEntry 1 chain = Ok (false, chain) /\
  exists s', DeleteResourceEntry 2 chain = Ok (true, s') /\
    mResourceEntries s' !! 2 = None.
Proof.
  split.
  - destruct (DeleteResourceEntry_loaded 1 A_entry (mkResource 1 []) chain)
      as (Hreferenced & _); [reflexivity..|].
    apply Hreferenced. reflexivity.
  - destruct (DeleteResourceEntry_loaded 2 B_entry (mkResource 0 [1]) chain)
      as (_ & _ & Hdeleted); [reflexivity..|].
    destruct Hdeleted as (s' & Hrun & _ & Hgone & _); [reflexivity|by eexists|].
    by exists s'.
Defined.

Lemma LoadResource_loaded_witness :
  LoadResource 1 "TXTR" chain = Ok (Some (mkResource 1 []), chain).
Proof.
  destruct (LoadResource_loaded 1 chain chain_wf) as (e & r & He & Hr & Hrun & _).
  - by eexists.
  - rewrite Hrun. vm_compute in He. injection He as <-.
    simpl in Hr. injection Hr as <-. reflexivity.
Defined.

Lemma transient_roots_sweep_witness :
  DestroyUnreferencedResources (Collaborators0 := sweeping) (rooted [0; 1])
    = Ok (true, rooted [1]) /\
  DestroyUnreferencedResources (Collaborators0 := sweeping) (rooted [1; 0]) = Undefined.
Proof.
  split.
  - destruct (@transient_roots_sweep unit Env File sweeping (rooted [0; 1]))
      as (_ & Hskip & _); [reflexivity|].
    apply (Hskip 0 1); reflexivity.
  - destruct (@transient_roots_sweep unit Env File sweeping (rooted [1; 0]))
      as (_ & _ & Hpast); [reflexivity|].
    apply (Hpast [1] 0); [reflexivity|by repeat constructor|reflexivity].
Defined.

Lemma RegisterResources_first_wins_witness :
  exists s',
    RegisterResources records project = Ok (tt, s') /\
    mResourceEntries s' !! 7 = Some hero /\
    exists pDir, mResourceEntries s' !! 8 = Some (mkEntry None 8 1 pDir "first" 0).
Proof.
  destruct (RegisterResources_first_wins records project) as (s' & Hrun & _ & Heach).
  - intros k e. unfold project, store. simpl.
    intros [[_ <-] | [_ Hempty]]%lookup_insert_Some; [reflexivity|].
    by rewrite lookup_empty in Hempty.
  - repeat constructor; by eexists.
  - exists s'. split; [exact Hrun|]. split.
    + apply (Heach 7). reflexivity.
    + destruct (Heach 8 eq_refl) as (Type_ & pDir & [= <-] & Hentry).
      by exists pDir.
Defined.

Lemma CloseProject_returns_witness :
  exists s',
    CloseProject mixed = Ok (tt, s') /\
    mResourceEntries s' !! 7 = None /\
    mpDatabaseRoot s' = None /\ mGame s' = -1.
Proof.
  destruct (CloseProject mixed) as [[[] s']| |] eqn:Hrun;
    [|vm_compute in Hrun; discriminate..].
  destruct (CloseProject_returns mixed s' Hrun)
    as (finished & s1 & Hsweep & _ & _ & Hentries & Hroot & Hgame & _).
  exists s'. split; [reflexivity|]. split; [|by split].
  vm_compute in Hsweep. injection Hsweep as <- <-.
  destruct (mResourceEntries s' !! 7) as [e|] eqn:He; [|reflexivity].
  apply Hentries in He as [He Htransient].
  vm_compute in He. injection He as <-. discriminate Htransient.
Defined.

End StoreOnMoreFixture.

Section EnumOnFixture.
Import Archive EnumProperty EnumFixture.
#[local] Existing Instance Fixture.platform.
Local Open Scope Z_scope.

Lemma ValueIndex_first_match_witness :
  ValueIndex colours 1 = Some 0 /\ ValueIndex colours 2 = Some (2^32 - 1).
Proof.
  split.
  - destruct (ValueIndex_first_match colours 1) as (Index & Hrun & Hfirst & _);
      [simpl; lia|].
    rewrite Hrun. f_equal.
    apply (Hfirst 0%nat (mkEnumValue "red" 1)); [reflexivity..|]. intros j v' Hj. lia.
  - destruct (ValueIndex_first_match colours 2) as (Index & Hrun & _ & Habsent & _);
      [simpl; lia|].
    rewrite Hrun. f_equal. apply Habsent.
    intros v Hv. repeat (apply elem_of_cons in Hv as [->|Hv]; [discriminate|]).
    by apply elem_of_nil in Hv.
Defined.

Lemma ValueID_of_ValueIndex_witness :
  exists Index,
    ValueIndex colours 0xFFFFFFFF = Some Index /\ ValueID colours Index = Ok 0xFFFFFFFF.
Proof.
  destruct (ValueID_of_ValueIndex colours 0xFFFFFFFF) as (Index & Hrun & Hfound & _);
    [simpl; lia|].
  exists Index. split; [exact Hrun|]. apply Hfound.
  exists (mkEnumValue "green" 0xFFFFFFFF). split; [|reflexivity].
  apply list_elem_of_further, list_elem_of_here.
Defined.

Lemma HasValidValue_spec_witness :
  HasValidValue colours (-1) = Some true /\ HasValidValue [] 3 = Some true.
Proof.
  split.
  - destruct (HasValidValue_spec colours (-1)) as (b & Hrun & Hb); [simpl; lia|].
    rewrite Hrun. f_equal. apply Hb. right.
    exists (mkEnumValue "green" 0xFFFFFFFF). split; [|reflexivity].
    apply list_elem_of_further, list_elem_of_here.
  - destruct (HasValidValue_spec [] 3) as (b & Hrun & Hb); [simpl; lia|].
    rewrite Hrun. f_equal. apply Hb. by left.
Defined.

Lemma AddValue_first_wins_witness :
  ValueIndex (AddValue colours "scarlet" 1) 1 = ValueIndex colours 1 /\
  ValueIndex (AddValue colours "blue" 2) 2 = Some 3.
Proof.
  split.
  - destruct (AddValue_first_wins colours "scarlet" 1) as [Hheld _]; [simpl; lia|].
    apply Hheld. exists (mkEnumValue "red" 1). split; [apply list_elem_of_here|reflexivity].
  - destruct (AddValue_first_wins colours "blue" 2) as [_ Hnew]; [simpl; lia|].
    apply Hnew.
    intros v Hv. repeat (apply elem_of_cons in Hv as [->|Hv]; [discriminate|]).
    by apply elem_of_nil in Hv.
Defined.

Lemma SEnumValue_Serialize_attributes_witness :
  EnumPropertyArchive.SEnumValue_Serialize 100 (mkEnumValue "red" 1) empty_reader
    = Ok (mkEnumValue "" 0, empty_reader).
Proof.
  destruct (SEnumValue_Serialize_attributes (W := unit) 100 (mkEnumValue "red" 1) empty_reader)
    as (_ & _ & Habsent).
  destruct Habsent as ([] & Hrun); [reflexivity..|]. exact Hrun.
Defined.

End EnumOnFixture.

Section TemplateOnFixture.
Import PropertyTemplate EnumFixture.
Local Open Scope Z_scope.

Lemma EnumeratorID_of_EnumeratorIndex_witness :
  (exists enumIndex,
     EnumeratorIndex enumerators 5 = Some enumIndex /\
     EnumeratorName enumerators enumIndex = "green") /\
  (exists enumIndex,
     EnumeratorIndex enumerators 9 = Some enumIndex /\
     EnumeratorName enumerators enumIndex = "INVALID ENUM INDEX").
Proof.
  split.
  - destruct (EnumeratorID_of_EnumeratorIndex enumerators 5)
      as (enumIndex & Hrun & Hfound & _); [simpl; lia|].
    exists enumIndex. split; [exact Hrun|].
    apply (Hfound 1%nat (mkEnumerator "green" 5)); [reflexivity..|].
    intros [|j] e' Hj; [|lia]. intros [= <-]. discriminate.
  - destruct (EnumeratorID_of_EnumeratorIndex enumerators 9)
      as (enumIndex & Hrun & _ & Habsent); [simpl; lia|].
    exists enumIndex. split; [exact Hrun|]. apply Habsent.
    intros e He. repeat (apply elem_of_cons in He as [->|He]; [discriminate|]).
    by apply elem_of_nil in He.
Defined.

End TemplateOnFixture.

Section LoaderOnFixture.
Import StringLoader LoaderFixture.
Local Open Scope Z_scope.


Lemma LoadPrimeSTRG_shape_witness :
  (exists l',
     LoadPrimeSTRG prime_loader = Returned (Ok (tt, l')) /\
     mNumStrings (mpStringTable l') = 3 /\
     length (mLangTables (mpStringTable l')) = 2%nat) /\
  LoadPrimeSTRG greedy_loader = bad_alloc.
Proof.
  split.
  - destruct (LoadPrimeSTRG_shape prime_loader) as [Hgranted _]; [discriminate|].
    destruct Hgranted as (l' & Hrun & HNum & HLang & _); [intros t; reflexivity..|].
    exists l'. split; [exact Hrun|]. split; [exact HNum|exact HLang].
  - destruct (LoadPrimeSTRG_shape greedy_loader) as [_ Hrefused]; [discriminate|].
    apply Hrefused; [vm_compute; reflexivity|reflexivity].
Defined.

Lemma LoadSTRG_header_witness :
  LoadSTRG (([0x87654321; 9], 0) : Stream)
    = Returned (Ok (None, ([0x87654321; 9], 2), [": Unsupported STRG version: "])) /\
  LoadSTRG (([1], 0) : Stream) = Returned Undefined.
Proof.
  split.
  - destruct (LoadSTRG_header (([0x87654321; 9], 0) : Stream)) as [_ Hversion];
      [reflexivity|].
    apply Hversion; [reflexivity|discriminate..].
  - destruct (LoadSTRG_header (([1], 0) : Stream)) as [Hdemo _]; [reflexivity|].
    apply Hdemo; [discriminate|vm_compute; discriminate|left; reflexivity].
Defined.

End LoaderOnFixture.
